(** * The coffee-and-toast demos: sequential, asynchronous, asynchronous
      with a mutex around [std::cout]

    The C++ sources are three small programs that make "coffee" (2000 ms)
    and "toast" (3000 ms), either one after the other
    ([concurrency/src/01_sync.h]), or through [std::async]
    ([multithreading/02_async/main.cpp]), or through [std::async] with a
    [std::lock_guard] on a global [std::mutex] around the first console
    write ([concurrency/src/03_async_cout_mutex.h]); and an entry point that
    selects one of them by a [switch] ([concurrency/main.cpp]).

    The programs are embedded as lists of statements, run by an abstract
    machine with a pool of threads, one mutex, a console and a clock.  A run
    is driven by a schedule: which thread executes its next statement, when
    time passes because every thread sleeps or waits, and how much time the
    platform loses in between (scheduling overhead, late wake-ups).  Every
    property below is proved for all schedules.

    Two readings of the platform are fixed here.  [std::async], called
    without a launch policy as in the sources, starts its function on a new
    thread at once, as the standard libraries do while threads are to be
    had; when none is to be had it throws.  And the schedule may make any
    statement throw: an exception unwinds the function of the thread
    (releasing its [lock_guard]), is stored in the thread's future and
    thrown again by [get()], and terminates the process when it leaves
    main, since the sources catch nothing. *)

From Stdlib Require Import ZArith Lia Ascii String DecimalString.
From stdpp Require Import base list strings numbers.

Local Open Scope Z_scope.

(** ** Statements *)

(** One constructor per kind of statement of the sources.  A console
    statement [std::cout << a << b << std::endl] is a sequence of stream
    insertions, one [Insert] or [InsertCount] per operand and [Endl] for
    [std::endl]: another thread may write between two of them. *)
#[warnings="-register-all"]
Inductive instr : Type :=
| Insert (s : string)        (* std::cout << "..." *)
| Endl                       (* << std::endl *)
| SleepFor (ms : Z)          (* std::this_thread::sleep_for(std::chrono::milliseconds(ms)) *)
| LockGuard                  (* std::lock_guard<std::mutex> lock(coutMutex); *)
| EndScope                   (* the closing brace of the lock_guard's block *)
| Async (body : list instr)  (* std::async([](){ body }), the future kept in the next local *)
| FutureGet (f : nat)        (* the f-th local future: f.get() *)
| ClockStart                 (* auto start = high_resolution_clock::now(); *)
| ClockStop                  (* auto stop = high_resolution_clock::now(); *)
| InsertCount                (* << duration_cast<seconds>(stop - start).count() *)
| ReturnMain (code : Z).     (* return code; in main *)

(** ** Time and text *)

(** The clock counts nanoseconds (the period of [high_resolution_clock] in
    libstdc++ and libc++). *)
Definition milliseconds (n : Z) : Z := n * 1000000.

(** [std::chrono::duration_cast<std::chrono::seconds>]: integer division of
    the tick count, rounding toward zero. *)
Definition duration_cast_seconds (ticks : Z) : Z := Z.quot ticks 1000000000.

(** [std::chrono::duration_cast<std::chrono::milliseconds>], used to state
    elapsed times in the unit of the specification. *)
Definition duration_cast_milliseconds (ticks : Z) : Z := Z.quot ticks 1000000.

(** [operator<<] on an integer: its decimal numeral. *)
Definition string_of_Z (n : Z) : string := NilZero.string_of_int (Z.to_int n).

(** The character written by [std::endl]. *)
Definition newline : string := String (ascii_of_nat 10) EmptyString.

(** ** Threads, the process and the machine state *)

Record thread : Type := Thread {
  body : list instr;     (* the statements of the thread's function *)
  pc : nat;              (* how many of them it has executed *)
  wake : Z;              (* it does not run before this instant *)
  futures : list nat;    (* its local futures: the threads they stand for *)
  start : Z;             (* its local [start] *)
  stop : Z;              (* its local [stop] *)
  failed : bool          (* an exception left its function *)
}.

Inductive status : Type :=
| Running
| Exited (code : Z)          (* main returned [code] *)
| Aborted.                   (* an exception left main uncaught: std::terminate *)

Record config : Type := Config {
  now : Z;                      (* the clock *)
  pool : list thread;           (* thread 0 is main *)
  mutex : option nat;           (* coutMutex: its owner, if locked *)
  out : list (nat * string);    (* the console: who inserted what, oldest first *)
  acquired : nat;               (* how many times coutMutex was locked *)
  stalled : Z;                  (* time lost so far while a thread could have run *)
  proc : status
}.

Definition set_now (w : Z) (c : config) : config :=
  Config w (pool c) (mutex c) (out c) (acquired c) (stalled c) (proc c).
Definition set_pool (p : list thread) (c : config) : config :=
  Config (now c) p (mutex c) (out c) (acquired c) (stalled c) (proc c).
Definition set_mutex (m : option nat) (c : config) : config :=
  Config (now c) (pool c) m (out c) (acquired c) (stalled c) (proc c).
Definition set_proc (s : status) (c : config) : config :=
  Config (now c) (pool c) (mutex c) (out c) (acquired c) (stalled c) s.
Definition write (t : nat) (s : string) (c : config) : config :=
  Config (now c) (pool c) (mutex c) (out c ++ [(t, s)]) (acquired c) (stalled c) (proc c).
Definition count_acquisition (c : config) : config :=
  Config (now c) (pool c) (mutex c) (out c) (S (acquired c)) (stalled c) (proc c).
Definition lose (dt : Z) (c : config) : config :=
  Config (now c + dt) (pool c) (mutex c) (out c) (acquired c) (stalled c + dt) (proc c).

Definition advance (th : thread) : thread :=
  Thread (body th) (S (pc th)) (wake th) (futures th) (start th) (stop th) (failed th).
Definition set_wake (w : Z) (th : thread) : thread :=
  Thread (body th) (pc th) w (futures th) (start th) (stop th) (failed th).
Definition add_future (u : nat) (th : thread) : thread :=
  Thread (body th) (pc th) (wake th) (futures th ++ [u]) (start th) (stop th) (failed th).
Definition set_start (v : Z) (th : thread) : thread :=
  Thread (body th) (pc th) (wake th) (futures th) v (stop th) (failed th).
Definition set_stop (v : Z) (th : thread) : thread :=
  Thread (body th) (pc th) (wake th) (futures th) (start th) v (failed th).
Definition fail (th : thread) : thread :=
  Thread (body th) (pc th) (wake th) (futures th) (start th) (stop th) true.

(** A thread created at instant [t0] to run [code]. *)
Definition spawn (code : list instr) (t0 : Z) : thread := Thread code 0 t0 [] 0 0 false.

(** The process at instant [t0], about to run [code] as its main thread. *)
Definition boot (code : list instr) (t0 : Z) : config :=
  Config t0 [spawn code t0] None [] 0 0 Running.

(** What [<< duration.count()] inserts for this thread's [start] and [stop]. *)
Definition count_text (th : thread) : string :=
  string_of_Z (duration_cast_seconds (stop th - start th)).

(** A thread has returned from its function: no statement left and its
    last sleep is over. *)
Definition returned (c : config) (th : thread) : bool :=
  negb (failed th) &&
  bool_decide (length (body th) ≤ pc th)%nat && bool_decide (wake th ≤ now c).

(** The future of a thread is ready: its function returned or threw. *)
Definition finished (c : config) (th : thread) : bool :=
  failed th || returned c th.

(** The threads of an exited process are gone.  After [std::terminate] the
    other threads may still run for a while (whether the stack of main is
    unwound, and the futures it holds destroyed, is left to the
    implementation); main does not, it has [failed]. *)
Definition may_run (c : config) : bool :=
  match proc c with
  | Exited _ => false
  | _ => true
  end.

(** The statement thread [t] can execute now, if any: it is awake, the
    mutex it wants is free, the mutex it releases is its own, the future it
    waits for is ready. *)
Definition ready (c : config) (t : nat) (th : thread) : option instr :=
  if may_run c && negb (failed th) && bool_decide (wake th ≤ now c) then
    match body th !! pc th with
    | Some LockGuard =>
        match mutex c with None => Some LockGuard | Some _ => None end
    | Some EndScope =>
        if bool_decide (mutex c = Some t) then Some EndScope else None
    | Some (FutureGet f) =>
        match futures th !! f with
        | Some u =>
            match pool c !! u with
            | Some tu => if finished c tu then Some (FutureGet f) else None
            | None => None
            end
        | None => None
        end
    | oi => oi
    end
  else None.

(** The effect of statement [i] on the thread that executes it. *)
Definition local_step (c : config) (th : thread) (i : instr) : thread :=
  let th' := advance th in
  match i with
  | SleepFor ms => set_wake (now c + milliseconds ms) th'
  | Async _ => add_future (length (pool c)) th'
  | ClockStart => set_start (now c) th'
  | ClockStop => set_stop (now c) th'
  | _ => th'
  end.

(** The effect of statement [i], executed by thread [t] (whose record is
    [th]), on the whole state. *)
Definition exec_instr (c : config) (t : nat) (th : thread) (i : instr) : config :=
  let c' := set_pool (<[t := local_step c th i]> (pool c)) c in
  match i with
  | Insert s => write t s c'
  | Endl => write t newline c'
  | InsertCount => write t (count_text th) c'
  | LockGuard => count_acquisition (set_mutex (Some t) c')
  | EndScope => set_mutex None c'
  | Async code => set_pool (pool c' ++ [spawn code (now c)]) c'
  | ReturnMain code => set_proc (Exited code) c'
  | _ => c'
  end.

(** [get()] on the future of a thread whose function threw throws that
    exception again. *)
Definition rethrows (c : config) (th : thread) (i : instr) : bool :=
  match i with
  | FutureGet f =>
      match futures th !! f with
      | Some u =>
          match pool c !! u with
          | Some tu => failed tu
          | None => false
          end
      | None => false
      end
  | _ => false
  end.

(** An exception leaves the function of thread [t]: the stack is unwound,
    which destroys the [lock_guard] if the thread is inside its scope.  In a
    thread started by [std::async] the exception is stored in the future;
    in main nothing catches it. *)
Definition raise_in (c : config) (t : nat) (th : thread) : config :=
  let c1 := set_pool (<[t := fail th]> (pool c)) c in
  let c2 := if bool_decide (mutex c = Some t) then set_mutex None c1 else c1 in
  match t with
  | O => set_proc Aborted c2
  | S _ => c2
  end.

Fixpoint some_ready_from (c : config) (t : nat) (ths : list thread) : bool :=
  match ths with
  | [] => false
  | th :: rest =>
      match ready c t th with
      | Some _ => true
      | None => some_ready_from c (S t) rest
      end
  end.

(** Some thread can execute a statement now. *)
Definition some_ready (c : config) : bool := some_ready_from c 0%nat (pool c).

Fixpoint earliest_wake (t0 : Z) (ths : list thread) : option Z :=
  match ths with
  | [] => None
  | th :: rest =>
      if bool_decide (t0 < wake th) then
        match earliest_wake t0 rest with
        | Some w => Some (Z.min (wake th) w)
        | None => Some (wake th)
        end
      else earliest_wake t0 rest
  end.

(** The next instant at which a sleeping thread wakes. *)
Definition next_wake (c : config) : option Z := earliest_wake (now c) (pool c).

(** ** Schedules *)

(** What happens next is chosen by the platform:
    - [Run t]: thread [t] executes its next statement;
    - [Fault t]: the statement thread [t] is about to execute throws
      ([std::async] that cannot obtain an execution context, for one);
    - [Idle]: no thread can run, and time passes until the next wake-up;
    - [Stall dt]: [dt] nanoseconds are lost (a thread that could run is not
      run, or is woken late).
    A choice that is not possible in the current state changes nothing. *)
Inductive choice : Type :=
| Run (t : nat)
| Fault (t : nat)
| Idle
| Stall (dt : N).

Definition act (ch : choice) (c : config) : config :=
  match ch with
  | Run t =>
      match pool c !! t with
      | Some th =>
          match ready c t th with
          | Some i =>
              if rethrows c th i then raise_in c t th else exec_instr c t th i
          | None => c
          end
      | None => c
      end
  | Fault t =>
      match pool c !! t with
      | Some th =>
          match ready c t th with
          | Some _ => raise_in c t th
          | None => c
          end
      | None => c
      end
  | Idle =>
      if some_ready c then c
      else match next_wake c with
           | Some w => set_now w c
           | None => c
           end
  | Stall dt => lose (Z.of_N dt) c
  end.

(** Nothing happens in a process that has exited. *)
Definition step (ch : choice) (c : config) : config :=
  if may_run c then act ch c else c.

Definition exec (sched : list choice) (c : config) : config :=
  fold_left (fun c ch => step ch c) sched c.

(** The overhead a schedule asks for. *)
Definition total_stall (sched : list choice) : Z :=
  fold_right (fun ch acc => match ch with Stall dt => Z.of_N dt + acc | _ => acc end)
             0 sched.

Definition has_fault (sched : list choice) : bool :=
  existsb (fun ch => match ch with Fault _ => true | _ => false end) sched.

(** ** What is observed of a run *)

(** The pieces of text inserted into [std::cout], in order. *)
Definition console (c : config) : list string := map snd (out c).

(** The console as one text. *)
Definition console_text (c : config) : string :=
  fold_right String.append EmptyString (console c).

(** The pieces inserted by thread [t]. *)
Definition written_by (t : nat) (o : list (nat * string)) : list string :=
  omap (fun e => if Nat.eqb (fst e) t then Some (snd e) else None) o.


(** Every occurrence of [b] comes after an occurrence of [a]. *)
Definition always_after {A : Type} (a b : A) (l : list A) : Prop :=
  forall l1 l2, l = l1 ++ b :: l2 -> In a l1.

(** The value main's [stop - start] has, in clock ticks. *)
Definition elapsed (c : config) : Z :=
  match pool c !! 0%nat with
  | Some m => stop m - start m
  | None => 0
  end.

(** The main thread has executed all of its statements. *)
Definition main_done (c : config) : bool :=
  match pool c !! 0%nat with
  | Some m => bool_decide (length (body m) ≤ pc m)%nat
  | None => false
  end.

(** ** The programs *)

(** [concurrency/src/01_sync.h] *)
Module Program_01_async.

Definition CreateCoffee : list instr :=
  [ Insert "Creating coffee..."; Endl;
    SleepFor 2000;
    Insert "Created coffee!"; Endl ].

Definition CreateToast : list instr :=
  [ Insert "Creating toast..."; Endl;
    SleepFor 3000;
    Insert "Created toast!"; Endl ].

Definition Run : list instr :=
  [ ClockStart ] ++
  CreateCoffee ++
  CreateToast ++
  [ ClockStop;
    Insert "Total time = "; InsertCount; Insert " seconds"; Endl ].

End Program_01_async.

(** [multithreading/02_async/main.cpp] *)
Module Program.

Definition CreateCoffee : list instr :=
  [ Async [ Insert "Creating coffee..."; Endl;
            SleepFor 2000;
            Insert "Created coffee!"; Endl ] ].

Definition CreateToast : list instr :=
  [ Async [ Insert "Creating toast..."; Endl;
            SleepFor 3000;
            Insert "Created toast!"; Endl ] ].

Definition Run : list instr :=
  [ ClockStart ] ++
  CreateCoffee ++       (* auto coffee_future = CreateCoffee(); *)
  CreateToast ++        (* auto toast_future = CreateToast(); *)
  [ FutureGet 0;        (* coffee_future.get(); *)
    FutureGet 1;        (* toast_future.get(); *)
    ClockStop;
    Insert "Total time = "; InsertCount; Insert " seconds"; Endl ].

Definition main : list instr := Run ++ [ ReturnMain 0 ].

End Program.

(** [concurrency/src/03_async_cout_mutex.h] *)
Module Program_03_async_cout_mutex.

Definition CreateCoffee : list instr :=
  [ Async [ LockGuard; Insert "Creating coffee..."; Endl; EndScope;
            SleepFor 2000;
            Insert "Created coffee!"; Endl ] ].

Definition CreateToast : list instr :=
  [ Async [ LockGuard; Insert "Creating toast..."; Endl; EndScope;
            SleepFor 3000;
            Insert "Created toast!"; Endl ] ].

Definition Run : list instr :=
  [ ClockStart ] ++
  CreateCoffee ++
  CreateToast ++
  [ FutureGet 0;
    FutureGet 1;
    ClockStop;
    Insert "Total time = "; InsertCount; Insert " seconds"; Endl ].

End Program_03_async_cout_mutex.

(** Modelled from the spec: [concurrency/src/02_async.h], which
    [concurrency/main.cpp] includes for its [case 2], is not among the
    sources.  The specification's ConcurrentUnsynchronized mode launches
    every unit on its own execution context without the output guard and
    waits for all of them, which is what [Program::Run] of
    [multithreading/02_async/main.cpp] does. *)
Module Program_02_async.

Definition Run : list instr := Program.Run.

End Program_02_async.

(** [std::format("Running program , {}...", programId)] *)
Definition banner (programId : Z) : string :=
  "Running program , " +:+ string_of_Z programId +:+ "...".

(** [concurrency/main.cpp] and [concurrency/src/main.cpp] (the two differ
    in the names of their local variables only), for any value of
    [programId]; the sources set it to 3. *)
Definition main (programId : Z) : list instr :=
  [ Insert (banner programId); Endl ] ++
  match programId with
  | 1 => Program_01_async.Run
  | 2 => Program_02_async.Run
  | 3 => Program_03_async_cout_mutex.Run
  | _ => []
  end ++
  [ ReturnMain 0 ].

(** The exit code of the process, once main has returned. *)
Definition exit_code (c : config) : option Z :=
  match proc c with Exited code => Some code | _ => None end.

(** ** The scheduler of the specification *)

(** The specification reads the three programs as one scheduler run in
    three modes over a list of work units; the sources are its instances at
    the two units below (lemmas [Program_01_async_is_sequential] and
    following). *)
Record WorkUnit : Type := { name : string; durationMillis : Z }.

Inductive ExecutionMode : Type :=
| Sequential
| ConcurrentUnsynchronized
| ConcurrentSynchronized.

Definition start_message (u : WorkUnit) : string := "Creating " +:+ name u +:+ "...".
Definition finish_message (u : WorkUnit) : string := "Created " +:+ name u +:+ "!".

(** [WorkUnit::execute()]: the body of [CreateCoffee] and [CreateToast]. *)
Definition execute (mode : ExecutionMode) (u : WorkUnit) : list instr :=
  match mode with
  | ConcurrentSynchronized =>
      [ LockGuard; Insert (start_message u); Endl; EndScope;
        SleepFor (durationMillis u);
        Insert (finish_message u); Endl ]
  | _ =>
      [ Insert (start_message u); Endl;
        SleepFor (durationMillis u);
        Insert (finish_message u); Endl ]
  end.

Definition dispatch (mode : ExecutionMode) (u : WorkUnit) : list instr :=
  match mode with
  | Sequential => execute mode u
  | _ => [ Async (execute mode u) ]
  end.

Definition join_all (mode : ExecutionMode) (n : nat) : list instr :=
  match mode with
  | Sequential => []
  | _ => map FutureGet (seq 0 n)
  end.

Definition report : list instr :=
  [ Insert "Total time = "; InsertCount; Insert " seconds"; Endl ].

Definition Scheduler_run (mode : ExecutionMode) (units : list WorkUnit) : list instr :=
  [ ClockStart ] ++
  flat_map (dispatch mode) units ++
  join_all mode (length units) ++
  [ ClockStop ] ++ report.

Definition coffee : WorkUnit := {| name := "coffee"; durationMillis := 2000 |}.
Definition toast : WorkUnit := {| name := "toast"; durationMillis := 3000 |}.
Definition workload : list WorkUnit := [ coffee; toast ].

(** The [switch] of [main]. *)
Definition mode_of_id (programId : Z) : option ExecutionMode :=
  match programId with
  | 1 => Some Sequential
  | 2 => Some ConcurrentUnsynchronized
  | 3 => Some ConcurrentSynchronized
  | _ => None
  end.


(** ** Transitions *)

(** The steps that change the state, as a relation. *)
Inductive trans (c : config) : config -> Prop :=
| trans_run t th i :
    pool c !! t = Some th ->
    ready c t th = Some i ->
    rethrows c th i = false ->
    trans c (exec_instr c t th i)
| trans_raise t th i :
    pool c !! t = Some th ->
    ready c t th = Some i ->
    trans c (raise_in c t th)
| trans_idle w :
    exit_code c = None ->
    some_ready c = false ->
    next_wake c = Some w ->
    trans c (set_now w c)
| trans_stall dt :
    exit_code c = None ->
    0 <= dt ->
    trans c (lose dt c).

Definition reachable (c0 c : config) : Prop := exists sched, exec sched c0 = c.

(** ** Invariants of the machine *)

(** A thread that is not yet due has just executed a [sleep_for]. *)
Definition wake_ok (c : config) : Prop :=
  forall t th, pool c !! t = Some th ->
    wake th <= now c \/
    exists ms, (0 < pc th)%nat /\ body th !! (pc th - 1)%nat = Some (SleepFor ms).

(** No thread is past the end of its function. *)
Definition pc_ok (c : config) : Prop :=
  forall t th, pool c !! t = Some th -> (pc th <= length (body th))%nat.

(** The console only holds what existing threads wrote. *)
Definition out_ok (c : config) : Prop :=
  forall t s, In (t, s) (out c) -> (t < length (pool c))%nat.

(** How many [lock_guard]s are alive after [code]: constructed and not yet
    destroyed. *)
Definition guard_delta (i : instr) : Z :=
  match i with LockGuard => 1 | EndScope => -1 | _ => 0 end.
Definition guards (code : list instr) : Z :=
  fold_right (fun i acc => guard_delta i + acc) 0 code.

(** The thread is inside the scope of its [lock_guard]. *)
Definition holds_guard (th : thread) : Z :=
  if failed th then 0 else guards (take (pc th) (body th)).

(** The owner of the mutex is the one thread inside its guarded scope. *)
Definition lock_ok (c : config) : Prop :=
  (forall t, mutex c = Some t -> (t < length (pool c))%nat) /\
  forall t th, pool c !! t = Some th ->
    holds_guard th = if bool_decide (mutex c = Some t) then 1 else 0.

(** The number of execution contexts that hold the guard. *)
Definition holders (c : config) : nat :=
  length (filter (fun th => 0 < holds_guard th) (pool c)).

(** [lock_guard] constructions executed by a thread so far. *)
Definition is_lock (i : instr) : bool :=
  match i with LockGuard => true | _ => false end.
Definition locks_taken (th : thread) : nat :=
  length (filter (fun i => is_lock i = true) (take (pc th) (body th))).

(** The acquisition counter counts the executed [lock_guard]s. *)
Definition acquired_ok (c : config) : Prop :=
  acquired c = sum_list (locks_taken <$> pool c).

(** A [get()] that returned was on a future whose thread has completed. *)
Definition get_ok (c : config) : Prop :=
  forall t th k f, pool c !! t = Some th -> (k < pc th)%nat ->
    body th !! k = Some (FutureGet f) ->
    exists u tu, futures th !! f = Some u /\ pool c !! u = Some tu /\
                 returned c tu = true.

(** The bodies of the [std::async] calls of [code], in order. *)
Definition async_body (i : instr) : option (list instr) :=
  match i with Async code => Some code | _ => None end.
Definition spawned (code : list instr) : list (list instr) := omap async_body code.

(** Only the main thread starts threads. *)
Definition flat (code : list instr) : Prop :=
  Forall (fun b => spawned b = []) (spawned code).

(** The pool of a process that runs the flat program [B]: main, and one
    thread per [std::async] executed, in order; the main thread's futures
    are these threads. *)
Definition shape (B : list instr) (c : config) : Prop :=
  exists m ws, pool c = m :: ws /\ body m = B /\
    futures m = seq 1 (length ws) /\
    body <$> ws = spawned (take (pc m) B).

(** The text a statement inserts, if it is a console statement. *)
Definition piece (th : thread) (i : instr) : option string :=
  match i with
  | Insert s => Some s
  | Endl => Some newline
  | InsertCount => Some (count_text th)
  | _ => None
  end.
Definition pieces (th : thread) (code : list instr) : list string := omap (piece th) code.

Definition is_clock (i : instr) : bool :=
  match i with ClockStart | ClockStop => true | _ => false end.
Definition is_count (i : instr) : bool :=
  match i with InsertCount => true | _ => false end.

(** The clock is not read again once an elapsed time has been printed. *)
Definition tidy (code : list instr) : Prop :=
  forall k i, code !! k = Some i -> is_clock i = true ->
    Forall (fun j => is_count j = false) (take k code).

(** What a thread has written is what the statements it has executed
    insert. *)
Definition written_ok (c : config) : Prop :=
  forall t th, pool c !! t = Some th ->
    written_by t (out c) = pieces th (take (pc th) (body th)).

(** ** Vocabulary of the statements about the programs *)



(** A console statement [std::cout << text << std::endl]. *)
Definition console_write (text : string) : list instr := [ Insert text; Endl ].

(** The sum and the maximum of the durations, in clock ticks. *)
Definition total_duration (units : list WorkUnit) : Z :=
  fold_right (fun u acc => milliseconds (durationMillis u) + acc) 0 units.

(** The time the [sleep_for]s of [code] ask for, in clock ticks. *)
Definition sleep_of (i : instr) : Z :=
  match i with SleepFor ms => milliseconds ms | _ => 0 end.
Definition slept (code : list instr) : Z :=
  fold_right (fun i acc => sleep_of i + acc) 0 code.

(** The text of these lines, each ended by [std::endl]. *)
Definition unlines (ls : list string) : string :=
  fold_right (fun l acc => l +:+ newline +:+ acc) EmptyString ls.

(** Sequential mode: where the clock stands, between the time the
    [sleep_for]s executed so far ask for and that time plus the overhead. *)
Definition sequential_time (units : list WorkUnit) (t0 : Z) (c : config) : Prop :=
  exists m, pool c = [m] /\
    (0 <= stalled c /\ t0 <= now c) /\
    Z.max (now c) (wake m) <=
      t0 + stalled c + slept (take (pc m) (Scheduler_run Sequential units)) /\
    ((1 <= pc m)%nat ->
       t0 <= start m /\
       start m + slept (take (pc m) (Scheduler_run Sequential units)) <=
         Z.max (now c) (wake m)) /\
    ((S (length (flat_map (dispatch Sequential) units)) < pc m)%nat ->
       total_duration units <= stop m - start m <= total_duration units + stalled c).

(** The schedule that runs the only thread of a sequential program without
    overhead: each statement at once, each sleep to its end. *)
Definition straight (n : nat) : list choice :=
  concat (replicate n [Run 0%nat; Idle]).

(** ** Two units run concurrently *)

(** Where [sleep_for] stands in [execute]. *)
Definition sleep_index (mode : ExecutionMode) : nat :=
  match mode with ConcurrentSynchronized => 4%nat | _ => 2%nat end.

(** No exception has left any function. *)
Definition healthy (c : config) : Prop :=
  forall t th, pool c !! t = Some th -> failed th = false.

(** The part of its duration [D] that the [j]-th unit still has to sleep. *)
Definition remaining (c : config) (si : nat) (j : nat) (D : Z) : Z :=
  match pool c !! S j with
  | None => D
  | Some w => if (pc w <=? si)%nat then D else Z.max 0 (wake w - now c)
  end.

(** The finish write of the [j]-th unit is due at most [D] plus the
    overhead after the start of the process. *)
Definition finish_due (c : config) (t0 : Z) (si : nat) (j : nat) (D : Z) : Prop :=
  match pool c !! S j with
  | None => now c <= t0 + stalled c
  | Some w =>
      if (pc w <=? si)%nat then now c <= t0 + stalled c
      else pc w = S si -> Z.max (now c) (wake w) <= t0 + stalled c + D
  end.

(** The [j]-th unit does not wake before [D] after main read [start]. *)
Definition sleeps_long (c : config) (m : thread) (si : nat) (j : nat) (D : Z) : Prop :=
  match pool c !! S j with
  | None => True
  | Some w => (si < pc w)%nat -> start m + D <= wake w
  end.

(** The clock of a concurrent run of two units, while no exception has
    been thrown. *)
Definition concurrent_time (mode : ExecutionMode) (u1 u2 : WorkUnit) (t0 : Z)
           (c : config) : Prop :=
  healthy c ->
  exists m, pool c !! 0%nat = Some m /\
    (0 <= stalled c /\ t0 <= now c /\ wake m <= now c) /\
    ((1 <= pc m)%nat -> t0 <= start m <= now c) /\
    ((pc m <= 5)%nat ->
       now c + Z.max (remaining c (sleep_index mode) 0 (milliseconds (durationMillis u1)))
                     (remaining c (sleep_index mode) 1 (milliseconds (durationMillis u2)))
       <= t0 + stalled c + Z.max (milliseconds (durationMillis u1))
                                 (milliseconds (durationMillis u2))) /\
    finish_due c t0 (sleep_index mode) 0 (milliseconds (durationMillis u1)) /\
    finish_due c t0 (sleep_index mode) 1 (milliseconds (durationMillis u2)) /\
    sleeps_long c m (sleep_index mode) 0 (milliseconds (durationMillis u1)) /\
    sleeps_long c m (sleep_index mode) 1 (milliseconds (durationMillis u2)) /\
    ((6 <= pc m)%nat ->
       start m + Z.max (milliseconds (durationMillis u1))
                       (milliseconds (durationMillis u2)) <= stop m /\
       stop m <= t0 + stalled c + Z.max (milliseconds (durationMillis u1))
                                        (milliseconds (durationMillis u2))).

(** The statements of [execute] that stand inside the scope of its
    [lock_guard]: the start write and the closing brace. *)
Definition in_scope (mode : ExecutionMode) (k : nat) : bool :=
  match mode with
  | ConcurrentSynchronized => (1 <=? k)%nat && (k <=? 3)%nat
  | _ => false
  end.


(** The second unit does not finish before the first, when the overhead of
    the run is less than the difference of the durations. *)
Definition finish_order (mode : ExecutionMode) (u1 u2 : WorkUnit) (c : config) : Prop :=
  healthy c ->
  stalled c < milliseconds (durationMillis u2) - milliseconds (durationMillis u1) ->
  always_after (1%nat, finish_message u1) (2%nat, finish_message u2) (out c).

(** Two schedules without overhead for the concurrent programs: main starts
    both units, each unit runs up to its sleep, time passes to the first
    wake-up, the first unit finishes and main collects its future, time
    passes to the second wake-up, the second unit finishes, main collects
    its future and reports. *)
Definition smooth_unsynchronized : list choice :=
  replicate 3 (Run 0%nat) ++ replicate 3 (Run 1%nat) ++ replicate 3 (Run 2%nat) ++
  [Idle] ++ replicate 2 (Run 1%nat) ++ [Run 0%nat] ++
  [Idle] ++ replicate 2 (Run 2%nat) ++ replicate 6 (Run 0%nat).

Definition smooth_synchronized : list choice :=
  replicate 3 (Run 0%nat) ++ replicate 5 (Run 1%nat) ++ replicate 5 (Run 2%nat) ++
  [Idle] ++ replicate 2 (Run 1%nat) ++ [Run 0%nat] ++
  [Idle] ++ replicate 2 (Run 2%nat) ++ replicate 6 (Run 0%nat).

(** The overhead-free sequential schedule, with 999 ms lost once the clock
    has been started. *)
Definition slow_sequential : list choice :=
  [ Run 0%nat; Stall 999000000 ] ++ straight 16.

(** ** The entry points *)

(** Statements that only write to the console. *)
Definition is_text (i : instr) : bool :=
  match i with Insert _ | Endl => true | _ => false end.
Definition is_return (i : instr) : bool :=
  match i with ReturnMain _ => true | _ => false end.
Definition is_sleep (i : instr) : bool :=
  match i with SleepFor _ => true | _ => false end.

(** The work between the banner and [return 0], as the [switch] selects it. *)
Definition work_of (m : option ExecutionMode) : list instr :=
  match m with
  | Some mode => Scheduler_run mode workload
  | None => []
  end.

(** A process has exited with [n] only if a thread has executed
    [return n]. *)
Definition exit_ok (c : config) : Prop :=
  forall n, proc c = Exited n ->
    exists t th k, pool c !! t = Some th /\ (k < pc th)%nat /\
                   body th !! k = Some (ReturnMain n).

(** A process is aborted only if an exception left main, and it is no
    longer running once one has. *)
Definition abort_ok (c : config) : Prop :=
  (proc c = Aborted -> exists m, pool c !! 0%nat = Some m /\ failed m = true) /\
  (forall m, pool c !! 0%nat = Some m -> failed m = true -> proc c <> Running).

(** The console of a program that begins with the line [s]: main alone
    writes it, before anything else is written. *)
Definition begins_with (s : string) (c : config) : Prop :=
  exists m, pool c !! 0%nat = Some m /\
    match pc m with
    | O => out c = [] /\ length (pool c) = 1%nat
    | S O => out c = [(0%nat, s)] /\ length (pool c) = 1%nat
    | _ => exists rest, out c = (0%nat, s) :: (0%nat, newline) :: rest
    end.

(** ** The same run, started later *)

(** The same thread, [d] later.  What its clock variables hold is left
    open: no thread chooses its next statement by them. *)
Definition later_thread (d : Z) (th th' : thread) : Prop :=
  body th' = body th /\ pc th' = pc th /\ wake th' = wake th + d /\
  futures th' = futures th /\ failed th' = failed th.

(** The same process, [d] later. *)
Definition later (d : Z) (c c' : config) : Prop :=
  now c' = now c + d /\ Forall2 (later_thread d) (pool c) (pool c') /\
  mutex c' = mutex c /\ acquired c' = acquired c /\ stalled c' = stalled c /\
  proc c' = proc c.

(** One statement of each thread in turn, then the wait for the next
    wake-up, [n] times over: a schedule without overhead and without
    exceptions. *)
Definition round_robin (n : nat) : list choice :=
  concat (replicate n [ Run 0%nat; Run 1%nat; Run 2%nat; Idle ]).

(** A process, started at [t0], that has done no work: no execution
    context besides main, no unit's message and no total on the console,
    the mutex never locked, and no time spent but the overhead. *)
Definition no_work (t0 : Z) (c : config) : Prop :=
  length (pool c) = 1%nat /\
  (forall u, ~ In (start_message u) (console c) /\ ~ In (finish_message u) (console c)) /\
  ~ In "Total time = " (console c) /\
  acquired c = 0%nat /\
  now c = t0 + stalled c.

(** ** An execution context that cannot be created *)

(** The statements of [Run] between the two readings of the clock, these
    included: [Run] is [measured] and then [report]. *)
Definition measured (mode : ExecutionMode) (units : list WorkUnit) : list instr :=
  [ ClockStart ] ++
  flat_map (dispatch mode) units ++
  join_all mode (length units) ++
  [ ClockStop ].



(** ** Progress *)

(** The statements a piece of code still has to execute, those of the
    threads it will start included. *)
Definition cost (i : instr) : nat :=
  match i with Async code => S (length code) | _ => 1%nat end.
Definition todo (code : list instr) : nat := sum_list (cost <$> code).
Definition left_to_do (th : thread) : nat := todo (drop (pc th) (body th)).

Definition asleep (c : config) (th : thread) : nat :=
  if bool_decide (now c < wake th) then 1%nat else 0%nat.

(** What bounds the length of the rest of a run: every statement executed
    and every wait for a wake-up makes it smaller. *)
Definition potential (c : config) : nat :=
  sum_list ((fun th => 2 * left_to_do th + asleep c th)%nat <$> pool c).

(** Once a thread has executed a [return] of main the process no longer
    runs. *)
Definition return_ok (c : config) : Prop :=
  forall t th k n, pool c !! t = Some th -> (k < pc th)%nat ->
    body th !! k = Some (ReturnMain n) -> proc c <> Running.

(** ** Further vocabulary *)

(** The four pieces a unit inserts, and the four of the report. *)
Definition unit_lines (u : WorkUnit) : list string :=
  [ start_message u; newline; finish_message u; newline ].
Definition total_lines (c : config) : list string :=
  [ "Total time = "; string_of_Z (duration_cast_seconds (elapsed c));
    " seconds"; newline ].

(** The start lines of the units on the console: a unit's "Creating ..."
    is followed by its end of line, or its thread still owns the mutex and
    no other unit has begun its own; and between the "Creating ..." of two
    units the line of the first has been ended. *)
Definition start_lines_ok (c : config) : Prop :=
  (forall a j u,
     out c !! a = Some (S j, start_message u) ->
     (exists n, (a < n)%nat /\ out c !! n = Some (S j, newline)) \/
     (mutex c = Some (S j) /\
      forall b k v, (a < b)%nat -> out c !! b <> Some (S k, start_message v))) /\
  (forall a b j k u v,
     (a < b)%nat ->
     out c !! a = Some (S j, start_message u) ->
     out c !! b = Some (S k, start_message v) ->
     exists n, (a < n < b)%nat /\ out c !! n = Some (S j, newline)).

(** Two schedules that show what the console can look like.  In the first
    the two threads of an unsynchronized run write in turn.  In the second,
    of the synchronized program, the first thread has slept through its
    2000 ms when the second, started late, is inside its guarded block. *)
Definition mixed_unsynchronized : list choice :=
  replicate 3 (Run 0%nat) ++ [ Run 1%nat; Run 2%nat; Run 1%nat; Run 2%nat ].
Definition split_synchronized : list choice :=
  replicate 3 (Run 0%nat) ++ replicate 5 (Run 1%nat) ++ [ Stall 2000000000 ] ++
  replicate 2 (Run 2%nat) ++ [ Run 1%nat; Run 2%nat; Run 1%nat ].

(** ** Any number of units run concurrently *)


(** One statement of each of the first [threads] threads in turn, then the
    wait for the next wake-up, [rounds] times over. *)
Definition fair (threads rounds : nat) : list choice :=
  concat (replicate rounds (map Run (seq 0 threads) ++ [ Idle ])).

(** A third unit, for examples. *)
Definition eggs : WorkUnit := {| name := "eggs"; durationMillis := 1000 |}.

(** Main is about to call [get()] on the future of a unit whose function
    has thrown. *)
Definition getting_failed (c : config) : bool :=
  match pool c !! 0%nat with
  | Some m =>
      match ready c 0%nat m with
      | Some (FutureGet f) => rethrows c m (FutureGet f)
      | _ => false
      end
  | None => false
  end.

(** [multithreading/main.cpp]: the three programs are declared and the
    synchronized one is run.  The headers it includes are not beside it in
    the sources; they are read as those of the same names under
    [concurrency/src]. *)
Module Multithreading.

Definition main : list instr :=
  Program_03_async_cout_mutex.Run ++ [ ReturnMain 0 ].

End Multithreading.

(** A [main] that runs the scheduler and returns 0. *)
Definition run_and_return (mode : ExecutionMode) (units : list WorkUnit) : list instr :=
  Scheduler_run mode units ++ [ ReturnMain 0 ].

(** * Proofs *)

Ltac split_leb :=
  repeat match goal with
         | H : context [ (?a <=? ?b)%nat ] |- _ => revert H
         end;
  repeat match goal with
         | |- context [ (?a <=? ?b)%nat ] => destruct (Nat.leb_spec a b)
         end;
  intros.

Ltac finish_time :=
  repeat split; try assumption; intros; split_leb; try lia.

Ltac cfg :=
  cbn [now pool mutex out acquired stalled proc
       set_now set_pool set_mutex set_proc write count_acquisition lose
       body pc wake futures start stop failed
       advance set_wake add_future set_start set_stop fail spawn boot] in *.

(** ** Schedules and transitions *)

Lemma exec_app (s1 s2 : list choice) (c : config) :
  exec (s1 ++ s2) c = exec s2 (exec s1 c).
Proof. unfold exec. apply fold_left_app. Qed.

Lemma exec_snoc (s : list choice) (ch : choice) (c : config) :
  exec (s ++ [ch]) c = step ch (exec s c).
Proof. rewrite exec_app. reflexivity. Qed.

Lemma ready_inv (c : config) (t : nat) (th : thread) (i : instr) :
  ready c t th = Some i ->
  may_run c = true /\ failed th = false /\ wake th <= now c /\
  body th !! pc th = Some i /\
  (i = LockGuard -> mutex c = None) /\
  (i = EndScope -> mutex c = Some t) /\
  (forall f, i = FutureGet f ->
     exists u tu, futures th !! f = Some u /\ pool c !! u = Some tu /\
                  finished c tu = true).
Proof.
  unfold ready. destruct (may_run c); simpl; [|discriminate].
  destruct (failed th); simpl; [discriminate|].
  case_bool_decide as Hw; [|discriminate].
  destruct (body th !! pc th) as [j|] eqn:Hj; [|discriminate].
  destruct j; intros H;
    try (injection H as <-; repeat split; try done; intros; discriminate).
  - destruct (mutex c) eqn:Hm; [discriminate|]. injection H as <-.
    repeat split; try done; intros; discriminate.
  - case_bool_decide as Hm; [|discriminate]. injection H as <-.
    repeat split; try done; intros; discriminate.
  - destruct (futures th !! f) as [u|] eqn:Hu; [|discriminate].
    destruct (pool c !! u) as [tu|] eqn:Htu; [|discriminate].
    destruct (finished c tu) eqn:Hf; [|discriminate]. injection H as <-.
    repeat split; try done; try (intros; discriminate).
    intros f' [= <-]. eauto.
Qed.

(** A [get()] that does not throw found a thread that returned. *)
Lemma ready_get_returned (c : config) (t : nat) (th : thread) (f : nat) :
  ready c t th = Some (FutureGet f) ->
  rethrows c th (FutureGet f) = false ->
  exists u tu, futures th !! f = Some u /\ pool c !! u = Some tu /\
               returned c tu = true.
Proof.
  intros Hr Hre. apply ready_inv in Hr as (_ & _ & _ & _ & _ & _ & Hget).
  destruct (Hget f eq_refl) as (u & tu & Hu & Htu & Hf).
  exists u, tu. repeat split; auto.
  simpl in Hre. rewrite Hu, Htu in Hre.
  unfold finished in Hf. rewrite Hre in Hf. exact Hf.
Qed.

Lemma may_run_exit_code (c : config) : may_run c = true -> exit_code c = None.
Proof. unfold may_run, exit_code. destruct (proc c); done. Qed.

Lemma step_trans (ch : choice) (c : config) :
  step ch c = c \/ trans c (step ch c).
Proof.
  unfold step. destruct (may_run c) eqn:Hm; [|auto].
  apply may_run_exit_code in Hm.
  destruct ch as [t|t| |dt]; simpl.
  - destruct (pool c !! t) as [th|] eqn:Ht; auto.
    destruct (ready c t th) as [i|] eqn:Hr; auto.
    destruct (rethrows c th i) eqn:Hre; right; econstructor; eauto.
  - destruct (pool c !! t) as [th|] eqn:Ht; auto.
    destruct (ready c t th) as [i|] eqn:Hr; auto.
    right. econstructor; eauto.
  - destruct (some_ready c) eqn:Hs; auto.
    destruct (next_wake c) eqn:Hn; auto.
    right. constructor; auto.
  - right. constructor; [exact Hm | lia].
Qed.

Lemma reachable_refl (c0 : config) : reachable c0 c0.
Proof. exists []. reflexivity. Qed.

Lemma reachable_step (c0 c : config) (ch : choice) :
  reachable c0 c -> reachable c0 (step ch c).
Proof. intros [s <-]. exists (s ++ [ch]). apply exec_snoc. Qed.

(** An invariant is a property of the initial state that every transition
    from a reachable state preserves. *)
Lemma invariant (c0 : config) (I : config -> Prop) :
  I c0 ->
  (forall c c', reachable c0 c -> I c -> trans c c' -> I c') ->
  forall c, reachable c0 c -> I c.
Proof.
  intros H0 Hstep c [s <-].
  induction s as [|ch s IH] using rev_ind; [exact H0|].
  rewrite exec_snoc.
  destruct (step_trans ch (exec s c0)) as [-> | Ht]; [exact IH|].
  eapply Hstep; [exists s; reflexivity | exact IH | exact Ht].
Qed.

(** ** What a transition does to the pool *)

Lemma pool_exec_instr (c : config) (t : nat) (th : thread) (i : instr) :
  pool (exec_instr c t th i) =
  <[t := local_step c th i]> (pool c) ++
  match i with Async code => [spawn code (now c)] | _ => [] end.
Proof. destruct i; cfg; unfold exec_instr; cfg; rewrite ?app_nil_r; reflexivity. Qed.

Lemma lookup_exec_instr (c : config) (t : nat) (th : thread) (i : instr)
      (t' : nat) (th' : thread) :
  pool c !! t = Some th ->
  pool (exec_instr c t th i) !! t' = Some th' ->
  (t' = t /\ th' = local_step c th i) \/
  (t' <> t /\ pool c !! t' = Some th') \/
  (t' = length (pool c) /\ exists code, i = Async code /\ th' = spawn code (now c)).
Proof.
  intros Ht. rewrite pool_exec_instr. rewrite lookup_app_Some.
  rewrite length_insert, list_lookup_insert_Some.
  intros [[(-> & <- & _) | (Hne & H)] | (Hle & H)]; auto.
  right; right. destruct i; try (rewrite lookup_nil in H; discriminate).
  destruct (t' - length (pool c))%nat as [|k] eqn:Hk; simpl in H; [|done].
  injection H as <-. split; [lia | eauto].
Qed.

Lemma lookup_exec_instr_self (c : config) (t : nat) (th : thread) (i : instr) :
  pool c !! t = Some th ->
  pool (exec_instr c t th i) !! t = Some (local_step c th i).
Proof.
  intros Ht. rewrite pool_exec_instr.
  pose proof (lookup_lt_Some _ _ _ Ht) as Hlt.
  rewrite lookup_app_l by (rewrite length_insert; exact Hlt).
  apply list_lookup_insert_eq. exact Hlt.
Qed.

Lemma lookup_exec_instr_other (c : config) (t : nat) (th : thread) (i : instr)
      (t' : nat) (th' : thread) :
  t' <> t ->
  pool c !! t' = Some th' ->
  pool (exec_instr c t th i) !! t' = Some th'.
Proof.
  intros Hne Ht'. rewrite pool_exec_instr.
  pose proof (lookup_lt_Some _ _ _ Ht') as Hlt.
  rewrite lookup_app_l by (rewrite length_insert; exact Hlt).
  rewrite list_lookup_insert_ne by auto. exact Ht'.
Qed.

Lemma pool_raise_in (c : config) (t : nat) (th : thread) :
  pool (raise_in c t th) = <[t := fail th]> (pool c).
Proof. unfold raise_in. destruct t; case_bool_decide; reflexivity. Qed.

Lemma lookup_raise_in (c : config) (t : nat) (th : thread) (t' : nat) (th' : thread) :
  pool (raise_in c t th) !! t' = Some th' ->
  (t' = t /\ th' = fail th) \/ (t' <> t /\ pool c !! t' = Some th').
Proof.
  rewrite pool_raise_in, list_lookup_insert_Some.
  intros [(-> & <- & _) | (Hne & H)]; auto.
Qed.

Lemma now_raise_in (c : config) (t : nat) (th : thread) :
  now (raise_in c t th) = now c.
Proof. unfold raise_in. destruct t; case_bool_decide; reflexivity. Qed.

Lemma stalled_raise_in (c : config) (t : nat) (th : thread) :
  stalled (raise_in c t th) = stalled c.
Proof. unfold raise_in. destruct t; case_bool_decide; reflexivity. Qed.

Lemma out_raise_in (c : config) (t : nat) (th : thread) :
  out (raise_in c t th) = out c.
Proof. unfold raise_in. destruct t; case_bool_decide; reflexivity. Qed.

Lemma acquired_raise_in (c : config) (t : nat) (th : thread) :
  acquired (raise_in c t th) = acquired c.
Proof. unfold raise_in. destruct t; case_bool_decide; reflexivity. Qed.

Lemma mutex_raise_in (c : config) (t : nat) (th : thread) :
  mutex (raise_in c t th) = if bool_decide (mutex c = Some t) then None else mutex c.
Proof. unfold raise_in. destruct t; case_bool_decide; reflexivity. Qed.

Lemma proc_raise_in (c : config) (t : nat) (th : thread) :
  proc (raise_in c t th) = match t with O => Aborted | S _ => proc c end.
Proof. unfold raise_in. destruct t; case_bool_decide; reflexivity. Qed.

Lemma now_exec_instr (c : config) (t : nat) (th : thread) (i : instr) :
  now (exec_instr c t th i) = now c.
Proof. destruct i; reflexivity. Qed.

Lemma stalled_exec_instr (c : config) (t : nat) (th : thread) (i : instr) :
  stalled (exec_instr c t th i) = stalled c.
Proof. destruct i; reflexivity. Qed.

Lemma earliest_wake_spec (t0 : Z) (ths : list thread) (w : Z) :
  earliest_wake t0 ths = Some w ->
  t0 < w /\ (exists t th, ths !! t = Some th /\ wake th = w) /\
  (forall t th, ths !! t = Some th -> t0 < wake th -> w <= wake th).
Proof.
  revert w. induction ths as [|th rest IH]; intros w; simpl; [discriminate|].
  case_bool_decide as Hlt.
  - destruct (earliest_wake t0 rest) as [w'|] eqn:Hrest.
    + intros [= <-]. destruct (IH w' eq_refl) as (Hw' & (t & u & Hu & Hwu) & Hmin).
      split; [lia|]. split.
      * destruct (Z.min_spec (wake th) w') as [[_ ->] | [_ ->]].
        -- exists 0%nat, th. done.
        -- exists (S t), u. done.
      * intros [|k] v Hv Hlv; simpl in Hv.
        -- injection Hv as <-. lia.
        -- specialize (Hmin k v Hv Hlv). lia.
    + intros [= <-]. split; [lia|]. split; [exists 0%nat, th; done|].
      intros [|k] v Hv Hlv; simpl in Hv.
      * injection Hv as <-. lia.
      * exfalso. clear IH. revert k v Hv Hlv.
        induction rest as [|r rest IHr]; intros k v Hv Hlv; [done|].
        simpl in Hrest. case_bool_decide as Hr.
        -- destruct (earliest_wake t0 rest); discriminate.
        -- destruct k as [|k]; simpl in Hv.
           ++ injection Hv as <-. lia.
           ++ eapply IHr; eauto.
  - intros Hw. destruct (IH w Hw) as (Hw' & (t & u & Hu & Hwu) & Hmin).
    split; [lia|]. split; [exists (S t), u; done|].
    intros [|k] v Hv Hlv; simpl in Hv.
    + injection Hv as <-. lia.
    + eauto.
Qed.

Lemma next_wake_spec (c : config) (w : Z) :
  next_wake c = Some w ->
  now c < w /\ (exists t th, pool c !! t = Some th /\ wake th = w) /\
  (forall t th, pool c !! t = Some th -> now c < wake th -> w <= wake th).
Proof. apply earliest_wake_spec. Qed.

Lemma some_ready_from_false (c : config) (ths : list thread) (t0 : nat) :
  some_ready_from c t0 ths = false ->
  forall k th, ths !! k = Some th -> ready c (t0 + k) th = None.
Proof.
  revert t0. induction ths as [|th rest IH]; intros t0 H k u Hu; [done|].
  simpl in H. destruct (ready c t0 th) eqn:Hr; [discriminate|].
  destruct k as [|k]; simpl in Hu.
  - injection Hu as <-. rewrite Nat.add_0_r. exact Hr.
  - replace (t0 + S k)%nat with (S t0 + k)%nat by lia. eauto.
Qed.

Lemma some_ready_false (c : config) :
  some_ready c = false ->
  forall t th, pool c !! t = Some th -> ready c t th = None.
Proof. intros H t th Ht. exact (some_ready_from_false c (pool c) 0 H t th Ht). Qed.

(** Time never runs backwards, and the overhead only grows. *)
Lemma trans_now (c c' : config) : trans c c' -> now c <= now c'.
Proof.
  intros [t th i Ht Hr Hre | t th i Ht Hr | w He Hs Hn | dt He Hdt].
  - rewrite now_exec_instr. lia.
  - rewrite now_raise_in. lia.
  - apply next_wake_spec in Hn. cfg. lia.
  - cfg. lia.
Qed.

Lemma trans_stalled (c c' : config) : trans c c' -> stalled c <= stalled c'.
Proof.
  intros [t th i Ht Hr Hre | t th i Ht Hr | w He Hs Hn | dt He Hdt].
  - rewrite stalled_exec_instr. lia.
  - rewrite stalled_raise_in. lia.
  - cfg. lia.
  - cfg. lia.
Qed.

(** ** Invariants of the machine, for every program *)

Section Machine.

Variable B : list instr.
Variable t0 : Z.

Lemma wake_ok_reachable (c : config) : reachable (boot B t0) c -> wake_ok c.
Proof.
  apply invariant.
  - intros t th Ht. cfg. destruct t; simpl in Ht; [|done].
    injection Ht as <-. left. cfg. lia.
  - intros c1 c2 _ IH Htr.
    pose proof (trans_now _ _ Htr) as Hnow.
    destruct Htr as [t th i Ht Hr Hre | t th i Ht Hr | w He Hs Hn | dt He Hdt].
    + apply ready_inv in Hr as (_ & _ & Hw & Hi & _).
      intros t' th' Ht'. rewrite now_exec_instr.
      destruct (lookup_exec_instr _ _ _ _ _ _ Ht Ht')
        as [[-> ->] | [[Hne Hold] | [-> (code & -> & ->)]]].
      * destruct i; cfg; unfold local_step; cfg; auto.
        right. exists ms. split; [lia|].
        replace (S (pc th) - 1)%nat with (pc th) by lia. exact Hi.
      * exact (IH _ _ Hold).
      * left. cfg. lia.
    + intros t' th' Ht'. rewrite now_raise_in.
      destruct (lookup_raise_in _ _ _ _ _ Ht') as [[-> ->] | [Hne Hold]].
      * exact (IH _ _ Ht).
      * exact (IH _ _ Hold).
    + intros t' th' Ht'. cfg. destruct (IH _ _ Ht') as [Hle | Hs']; auto.
      left. cfg. lia.
    + intros t' th' Ht'. cfg. destruct (IH _ _ Ht') as [Hle | Hs']; auto.
      left. lia.
Qed.

Lemma pc_ok_reachable (c : config) : reachable (boot B t0) c -> pc_ok c.
Proof.
  apply invariant.
  - intros t th Ht. cfg. destruct t; simpl in Ht; [|done].
    injection Ht as <-. cfg. lia.
  - intros c1 c2 _ IH Htr.
    destruct Htr as [t th i Ht Hr Hre | t th i Ht Hr | w He Hs Hn | dt He Hdt];
      try (intros t' th' Ht'; cfg; exact (IH _ _ Ht')).
    + apply ready_inv in Hr as (_ & _ & _ & Hi & _).
      apply lookup_lt_Some in Hi.
      intros t' th' Ht'.
      destruct (lookup_exec_instr _ _ _ _ _ _ Ht Ht')
        as [[-> ->] | [[Hne Hold] | [-> (code & -> & ->)]]].
      * destruct i; cfg; unfold local_step; cfg; lia.
      * exact (IH _ _ Hold).
      * cfg. lia.
    + intros t' th' Ht'.
      destruct (lookup_raise_in _ _ _ _ _ Ht') as [[-> ->] | [Hne Hold]].
      * exact (IH _ _ Ht).
      * exact (IH _ _ Hold).
Qed.

Lemma length_pool_exec_instr (c : config) (t : nat) (th : thread) (i : instr) :
  (length (pool c) <= length (pool (exec_instr c t th i)))%nat.
Proof. rewrite pool_exec_instr, length_app, length_insert. lia. Qed.

Lemma out_exec_instr (c : config) (t : nat) (th : thread) (i : instr) :
  out (exec_instr c t th i) =
  out c ++ match piece th i with Some s => [(t, s)] | None => [] end.
Proof. destruct i; cfg; unfold exec_instr; cfg; rewrite ?app_nil_r; reflexivity. Qed.

Lemma out_ok_reachable (c : config) : reachable (boot B t0) c -> out_ok c.
Proof.
  apply invariant.
  - intros t s []. 
  - intros c1 c2 _ IH Htr.
    destruct Htr as [t th i Ht Hr Hre | t th i Ht Hr | w He Hs Hn | dt He Hdt];
      try (intros t' s' Hin; cfg; exact (IH _ _ Hin)).
    + intros t' s' Hin. rewrite out_exec_instr in Hin.
      pose proof (length_pool_exec_instr c1 t th i) as Hlen.
      apply lookup_lt_Some in Ht.
      apply in_app_or in Hin as [Hin | Hin].
      * specialize (IH _ _ Hin). lia.
      * destruct (piece th i); simpl in Hin; [|done].
        destruct Hin as [[= <- <-] | []]. lia.
    + intros t' s' Hin. rewrite out_raise_in in Hin.
      rewrite pool_raise_in, length_insert. exact (IH _ _ Hin).
Qed.

(*MACHINE-END*)

Lemma body_local_step (c : config) (th : thread) (i : instr) :
  body (local_step c th i) = body th.
Proof. destruct i; reflexivity. Qed.

Lemma pc_local_step (c : config) (th : thread) (i : instr) :
  pc (local_step c th i) = S (pc th).
Proof. destruct i; reflexivity. Qed.

Lemma wake_local_step (c : config) (th : thread) (i : instr) :
  wake (local_step c th i) =
  match i with SleepFor ms => now c + milliseconds ms | _ => wake th end.
Proof. destruct i; reflexivity. Qed.

Lemma mutex_exec_instr (c : config) (t : nat) (th : thread) (i : instr) :
  mutex (exec_instr c t th i) =
  match i with LockGuard => Some t | EndScope => None | _ => mutex c end.
Proof. destruct i; reflexivity. Qed.

Lemma proc_exec_instr (c : config) (t : nat) (th : thread) (i : instr) :
  proc (exec_instr c t th i) =
  match i with ReturnMain code => Exited code | _ => proc c end.
Proof. destruct i; reflexivity. Qed.

Lemma acquired_exec_instr (c : config) (t : nat) (th : thread) (i : instr) :
  acquired (exec_instr c t th i) =
  (acquired c + if is_lock i then 1 else 0)%nat.
Proof. destruct i; cbn; lia. Qed.

Lemma guards_app (l1 l2 : list instr) : guards (l1 ++ l2) = guards l1 + guards l2.
Proof. induction l1 as [|i l1 IH]; simpl; [lia|]. rewrite IH. lia. Qed.

Lemma failed_local_step (c : config) (th : thread) (i : instr) :
  failed (local_step c th i) = failed th.
Proof. destruct i; reflexivity. Qed.

Lemma holds_guard_local_step (c : config) (th : thread) (i : instr) :
  failed th = false ->
  body th !! pc th = Some i ->
  holds_guard (local_step c th i) = holds_guard th + guard_delta i.
Proof.
  intros Hnf Hi. unfold holds_guard.
  rewrite failed_local_step, Hnf.
  rewrite body_local_step, pc_local_step, (take_S_r _ _ _ Hi), guards_app.
  simpl. lia.
Qed.

Lemma lock_ok_reachable (c : config) : reachable (boot B t0) c -> lock_ok c.
Proof.
  apply invariant.
  - split; [intros t; cfg; discriminate|].
    intros t th Ht. cfg. destruct t; simpl in Ht; [|done].
    injection Ht as <-. reflexivity.
  - intros c1 c2 _ [IHm IH] Htr.
    destruct Htr as [t th i Ht Hr Hre | t th i Ht Hr | w He Hs Hn | dt He Hdt];
      try (split; [intros t' Hm; cfg; exact (IHm _ Hm)
                  | intros t' th' Ht'; cfg; exact (IH _ _ Ht')]).
    + apply ready_inv in Hr as (_ & Hnf & _ & Hi & Hlock & Hunlock & _).
      pose proof (length_pool_exec_instr c1 t th i) as Hlen.
      pose proof (lookup_lt_Some _ _ _ Ht) as Hlt.
      split.
      * intros t'. rewrite mutex_exec_instr.
        destruct i; try (intros Hm; specialize (IHm _ Hm); lia).
        -- intros [= <-]. lia.
        -- discriminate.
      * intros t' th' Ht'. rewrite mutex_exec_instr.
        destruct (lookup_exec_instr _ _ _ _ _ _ Ht Ht')
          as [[-> ->] | [[Hne Hold] | [-> (code & -> & ->)]]].
        -- rewrite (holds_guard_local_step _ _ _ Hnf Hi), (IH _ _ Ht).
           destruct i; simpl; try (case_bool_decide; lia).
           ++ rewrite (Hlock eq_refl). repeat case_bool_decide; congruence || lia.
           ++ rewrite (Hunlock eq_refl). repeat case_bool_decide; congruence || lia.
        -- rewrite (IH _ _ Hold).
           destruct i; try reflexivity.
           ++ rewrite (Hlock eq_refl). repeat case_bool_decide; congruence || lia.
           ++ rewrite (Hunlock eq_refl). repeat case_bool_decide; congruence || lia.
        -- unfold holds_guard. cfg. simpl.
           case_bool_decide as Hm; [|reflexivity].
           specialize (IHm _ Hm). lia.
    + split.
      * intros t'. rewrite mutex_raise_in, pool_raise_in, length_insert.
        case_bool_decide; [discriminate|]. apply IHm.
      * intros t' th' Ht'. rewrite mutex_raise_in.
        destruct (lookup_raise_in _ _ _ _ _ Ht') as [[-> ->] | [Hne Hold]].
        -- unfold holds_guard. cfg.
           repeat case_bool_decide; congruence || lia.
        -- rewrite (IH _ _ Hold).
           repeat case_bool_decide; congruence || lia.
Qed.

Lemma sum_list_insert (f : thread -> nat) (l : list thread) (i : nat) (x y : thread) :
  l !! i = Some x ->
  (sum_list (f <$> <[i:=y]> l) + f x = sum_list (f <$> l) + f y)%nat.
Proof.
  revert i. induction l as [|a l IH]; intros [|i] H; csimpl in *; try done.
  - injection H as ->. lia.
  - specialize (IH _ H). lia.
Qed.

Lemma sum_list_app (l1 l2 : list nat) :
  sum_list (l1 ++ l2) = (sum_list l1 + sum_list l2)%nat.
Proof. induction l1 as [|a l1 IH]; simpl; lia. Qed.

Lemma locks_taken_local_step (c : config) (th : thread) (i : instr) :
  body th !! pc th = Some i ->
  locks_taken (local_step c th i) =
  (locks_taken th + if is_lock i then 1 else 0)%nat.
Proof.
  intros Hi. unfold locks_taken.
  rewrite body_local_step, pc_local_step, (take_S_r _ _ _ Hi), list.filter_app, length_app.
  destruct i; reflexivity.
Qed.

Lemma acquired_ok_reachable (c : config) : reachable (boot B t0) c -> acquired_ok c.
Proof.
  apply invariant.
  - reflexivity.
  - intros c1 c2 _ IH Htr. unfold acquired_ok in *.
    destruct Htr as [t th i Ht Hr Hre | t th i Ht Hr | w He Hs Hn | dt He Hdt];
      try (cfg; exact IH).
    + apply ready_inv in Hr as (_ & _ & _ & Hi & _).
      rewrite acquired_exec_instr, pool_exec_instr, fmap_app, sum_list_app, IH.
      pose proof (sum_list_insert locks_taken _ _ _ (local_step c1 th i) Ht) as Hsum.
      rewrite (locks_taken_local_step _ _ _ Hi) in Hsum.
      assert (sum_list (locks_taken <$>
                match i with Async code => [spawn code (now c1)] | _ => [] end) = 0%nat)
        as -> by (destruct i; reflexivity).
      lia.
    + rewrite acquired_raise_in, pool_raise_in, IH.
      pose proof (sum_list_insert locks_taken _ _ _ (fail th) Ht) as Hsum.
      change (locks_taken (fail th)) with (locks_taken th) in Hsum. lia.
Qed.

Lemma returned_mono (c c' : config) (th : thread) :
  now c <= now c' -> returned c th = true -> returned c' th = true.
Proof.
  unfold returned. rewrite !andb_true_iff, !bool_decide_eq_true.
  intros Hle [[Hf Hlen] Hw]. repeat split; auto. lia.
Qed.

Lemma returned_not_ready (c c' : config) (t : nat) (th : thread) (i : instr) :
  returned c th = true -> ready c' t th = Some i -> False.
Proof.
  unfold returned. rewrite !andb_true_iff, !bool_decide_eq_true.
  intros [[_ Hlen] _] Hr. apply ready_inv in Hr as (_ & _ & _ & Hi & _).
  apply lookup_lt_Some in Hi. lia.
Qed.

Lemma get_ok_reachable (c : config) : reachable (boot B t0) c -> get_ok c.
Proof.
  apply invariant.
  - intros t th k f Ht Hk. cfg. destruct t; simpl in Ht; [|done].
    injection Ht as <-. cfg. lia.
  - intros c1 c2 _ IH Htr.
    pose proof (trans_now _ _ Htr) as Hnow.
    destruct Htr as [t th i Ht Hr Hre | t th i Ht Hr | w He Hs Hn | dt He Hdt].
    + assert (Hkeep : forall u tu, pool c1 !! u = Some tu -> returned c1 tu = true ->
                pool (exec_instr c1 t th i) !! u = Some tu /\
                returned (exec_instr c1 t th i) tu = true).
      { intros u tu Hu Hf. split; [|eapply returned_mono; eauto].
        apply lookup_exec_instr_other; [|exact Hu].
        intros ->. rewrite Ht in Hu. injection Hu as <-.
        eapply returned_not_ready; eauto. }
      pose proof Hr as Hr'.
      apply ready_inv in Hr as (_ & _ & _ & Hi & _).
      intros t' th' k f Ht' Hk Hb.
      destruct (lookup_exec_instr _ _ _ _ _ _ Ht Ht')
        as [[-> ->] | [[Hne Hold] | [-> (code & -> & ->)]]].
      * rewrite body_local_step in Hb. rewrite pc_local_step in Hk.
        assert (Hfut : forall u, futures th !! f = Some u ->
                  futures (local_step c1 th i) !! f = Some u).
        { intros u Hu. destruct i; cfg; unfold local_step; cfg; auto.
          apply lookup_app_l_Some. exact Hu. }
        destruct (decide (k = pc th)) as [-> | Hne].
        -- rewrite Hi in Hb. injection Hb as ->.
           destruct (ready_get_returned _ _ _ _ Hr' Hre) as (u & tu & Hu & Htu & Hf).
           destruct (Hkeep _ _ Htu Hf). eauto 6.
        -- destruct (IH t th k f Ht ltac:(lia) Hb) as (u & tu & Hu & Htu & Hf).
           destruct (Hkeep _ _ Htu Hf). eauto 6.
      * destruct (IH t' th' k f Hold Hk Hb) as (u & tu & Hu & Htu & Hf).
        destruct (Hkeep _ _ Htu Hf). eauto 6.
      * cfg. lia.
    + assert (Hkeep : forall u tu, pool c1 !! u = Some tu -> returned c1 tu = true ->
                pool (raise_in c1 t th) !! u = Some tu /\
                returned (raise_in c1 t th) tu = true).
      { intros u tu Hu Hf. split; [|eapply returned_mono; eauto].
        rewrite pool_raise_in, list_lookup_insert_ne; [exact Hu|].
        intros ->. rewrite Ht in Hu. injection Hu as <-.
        eapply returned_not_ready; eauto. }
      intros t' th' k f Ht' Hk Hb.
      destruct (lookup_raise_in _ _ _ _ _ Ht') as [[-> ->] | [Hne Hold]].
      * destruct (IH t th k f Ht Hk Hb) as (u & tu & Hu & Htu & Hf).
        destruct (Hkeep _ _ Htu Hf). exists u, tu. auto.
      * destruct (IH t' th' k f Hold Hk Hb) as (u & tu & Hu & Htu & Hf).
        destruct (Hkeep _ _ Htu Hf). eauto 6.
    + intros t' th' k f Ht' Hk Hb. cfg.
      destruct (IH t' th' k f Ht' Hk Hb) as (u & tu & Hu & Htu & Hf).
      exists u, tu. repeat split; auto. eapply returned_mono; [|exact Hf]. exact Hnow.
    + intros t' th' k f Ht' Hk Hb. cfg.
      destruct (IH t' th' k f Ht' Hk Hb) as (u & tu & Hu & Htu & Hf).
      exists u, tu. repeat split; auto. eapply returned_mono; [|exact Hf]. exact Hnow.
Qed.

End Machine.

(** ** Invariants of flat programs *)

Lemma spawned_lookup (code : list instr) (k : nat) (b : list instr) :
  code !! k = Some (Async b) -> b ∈ spawned code.
Proof.
  intros H. unfold spawned. apply list_elem_of_omap.
  exists (Async b). split; [|reflexivity].
  apply list_elem_of_lookup. eauto.
Qed.

Lemma spawned_take (code : list instr) (k : nat) (b : list instr) :
  b ∈ spawned (take k code) -> b ∈ spawned code.
Proof.
  intros H. rewrite <- (take_drop k code). unfold spawned in *.
  rewrite omap_app. apply elem_of_app. auto.
Qed.

Lemma pieces_app (th : thread) (l1 l2 : list instr) :
  pieces th (l1 ++ l2) = pieces th l1 ++ pieces th l2.
Proof. unfold pieces. apply omap_app. Qed.

Lemma pieces_no_count (th th' : thread) (code : list instr) :
  Forall (fun j => is_count j = false) code -> pieces th code = pieces th' code.
Proof.
  induction 1 as [|j code Hj _ IH]; [reflexivity|].
  unfold pieces in *. csimpl. rewrite IH. destruct j; try reflexivity. discriminate.
Qed.

Lemma pieces_same_clock (th th' : thread) (code : list instr) :
  start th = start th' -> stop th = stop th' -> pieces th code = pieces th' code.
Proof.
  intros Hs He. unfold pieces.
  induction code as [|i code IH]; [reflexivity|]. csimpl. rewrite IH.
  destruct i; simpl; auto. unfold count_text. rewrite Hs, He. reflexivity.
Qed.

Lemma written_by_app (t : nat) (o1 o2 : list (nat * string)) :
  written_by t (o1 ++ o2) = written_by t o1 ++ written_by t o2.
Proof. unfold written_by. apply omap_app. Qed.

Lemma written_by_none (t : nat) (o : list (nat * string)) :
  (forall u s, In (u, s) o -> u <> t) -> written_by t o = [].
Proof.
  induction o as [|[u s] o IH]; intros H; [reflexivity|].
  unfold written_by in *. simpl.
  destruct (Nat.eqb_spec u t) as [-> | Hne].
  - exfalso. apply (H t s); [left; reflexivity | reflexivity].
  - apply IH. intros u' s' Hin. apply (H u' s'). right. exact Hin.
Qed.

Section Flat.

Variable B : list instr.
Variable t0 : Z.
Hypothesis B_flat : flat B.

Lemma shape_reachable (c : config) : reachable (boot B t0) c -> shape B c.
Proof.
  apply invariant.
  - exists (spawn B t0), []. repeat split.
  - intros c1 c2 _ (m & ws & Hpool & Hb & Hf & Hws) Htr.
    destruct Htr as [t th i Ht Hr Hre | t th i Ht Hr | w He Hs Hn | dt He Hdt];
      try (exists m, ws; cfg; done);
      [| unfold shape; rewrite pool_raise_in, Hpool; rewrite Hpool in Ht;
         destruct t as [|j]; simpl in Ht |- *;
         [ injection Ht as <-; exists (fail m), ws; done
         | exists m, (<[j := fail th]> ws);
           rewrite length_insert, list_fmap_insert;
           repeat split; auto;
           rewrite list_insert_id; [exact Hws|];
           rewrite list_lookup_fmap, Ht; reflexivity ] ].
    apply ready_inv in Hr as (_ & _ & _ & Hi & _).
    rewrite Hpool in Ht. unfold shape. rewrite pool_exec_instr, Hpool.
    destruct t as [|j]; simpl in Ht.
    + injection Ht as <-. rewrite Hb in Hi.
      exists (local_step c1 m i),
             (ws ++ match i with Async code => [spawn code (now c1)] | _ => [] end).
      rewrite body_local_step, pc_local_step, (take_S_r _ _ _ Hi).
      unfold spawned in *. rewrite omap_app, fmap_app, Hws.
      repeat split; auto.
      * destruct i; cfg; unfold local_step; cfg; rewrite ?app_nil_r; auto.
        rewrite Hpool, Hf, length_app. simpl.
        rewrite Nat.add_1_r, seq_S. reflexivity.
      * destruct i; reflexivity.
    + assert (Hin : body th ∈ spawned B).
      { apply (spawned_take _ (pc m)). rewrite <- Hws.
        apply list_elem_of_fmap. exists th. split; [reflexivity|].
        apply list_elem_of_lookup. eauto. }
      assert (Hnil : spawned (body th) = []).
      { exact (proj1 (list.Forall_forall _ _) B_flat _ Hin). }
      assert (Hna : match i with Async code => [spawn code (now c1)] | _ => [] end = []).
      { destruct i; try reflexivity.
        apply spawned_lookup in Hi. rewrite Hnil in Hi. inversion Hi. }
      rewrite Hna, app_nil_r. simpl.
      exists m, (<[j := local_step c1 th i]> ws).
      rewrite length_insert, list_fmap_insert, body_local_step.
      repeat split; auto.
      rewrite list_insert_id; [exact Hws|].
      rewrite list_lookup_fmap, Ht. reflexivity.
Qed.

Lemma main_body (c : config) (m : thread) :
  reachable (boot B t0) c -> pool c !! 0%nat = Some m -> body m = B.
Proof.
  intros Hr Hm. destruct (shape_reachable c Hr) as (m' & ws & Hpool & Hb & _).
  rewrite Hpool in Hm. injection Hm as <-. exact Hb.
Qed.

Lemma worker_body (c : config) (j : nat) (th : thread) :
  reachable (boot B t0) c -> pool c !! S j = Some th ->
  exists m, pool c !! 0%nat = Some m /\ spawned (take (pc m) B) !! j = Some (body th).
Proof.
  intros Hr Hj. destruct (shape_reachable c Hr) as (m & ws & Hpool & Hb & _ & Hws).
  rewrite Hpool in Hj |- *. simpl in Hj. exists m. split; [reflexivity|].
  rewrite <- Hws, list_lookup_fmap, Hj. reflexivity.
Qed.

Lemma worker_body_in (c : config) (j : nat) (th : thread) :
  reachable (boot B t0) c -> pool c !! S j = Some th -> body th ∈ spawned B.
Proof.
  intros Hr Hj. destruct (worker_body c j th Hr Hj) as (m & _ & H).
  apply (spawned_take _ (pc m)). apply list_elem_of_lookup. eauto.
Qed.

Lemma main_futures (c : config) (m : thread) :
  reachable (boot B t0) c -> pool c !! 0%nat = Some m ->
  futures m = seq 1 (length (pool c) - 1).
Proof.
  intros Hr Hm. destruct (shape_reachable c Hr) as (m' & ws & Hpool & _ & Hf & _).
  rewrite Hpool in Hm |- *. injection Hm as <-. rewrite Hf. simpl.
  rewrite Nat.sub_0_r. reflexivity.
Qed.


Hypothesis B_tidy : tidy B.
Hypothesis workers_tidy : Forall tidy (spawned B).

Lemma body_tidy (c : config) (t : nat) (th : thread) :
  reachable (boot B t0) c -> pool c !! t = Some th -> tidy (body th).
Proof.
  intros Hr Ht. destruct t as [|j].
  - rewrite (main_body c th Hr Ht). exact B_tidy.
  - apply (proj1 (list.Forall_forall _ _) workers_tidy).
    eapply worker_body_in; eauto.
Qed.

Lemma pieces_local_step (c : config) (th : thread) (i : instr) :
  tidy (body th) ->
  body th !! pc th = Some i ->
  pieces (local_step c th i) (take (pc th) (body th)) =
  pieces th (take (pc th) (body th)).
Proof.
  intros Htidy Hi.
  destruct (is_clock i) eqn:Hc.
  - apply pieces_no_count. exact (Htidy _ _ Hi Hc).
  - apply pieces_same_clock; destruct i; try reflexivity; discriminate.
Qed.

Lemma written_ok_reachable (c : config) : reachable (boot B t0) c -> written_ok c.
Proof.
  apply invariant.
  - intros t th Ht. cfg. destruct t; simpl in Ht; [|done].
    injection Ht as <-. reflexivity.
  - intros c1 c2 Hreach IH Htr.
    destruct Htr as [t th i Ht Hr Hre | t th i Ht Hr | w He Hs Hn | dt He Hdt];
      try (intros t' th' Ht'; cfg; exact (IH _ _ Ht')).
    + apply ready_inv in Hr as (_ & _ & _ & Hi & _).
      intros t' th' Ht'. rewrite out_exec_instr, written_by_app.
      destruct (lookup_exec_instr _ _ _ _ _ _ Ht Ht')
        as [[-> ->] | [[Hne Hold] | [-> (code & -> & ->)]]].
      * rewrite body_local_step, pc_local_step, (take_S_r _ _ _ Hi).
        rewrite pieces_app.
        rewrite (pieces_local_step c1 th i (body_tidy c1 t th Hreach Ht) Hi).
        rewrite (IH _ _ Ht). f_equal.
        destruct i; simpl; unfold written_by; simpl; rewrite ?Nat.eqb_refl; reflexivity.
      * rewrite (IH _ _ Hold).
        rewrite (written_by_none t'); [apply app_nil_r|].
        intros u s Hin. destruct (piece th i); simpl in Hin; [|done].
        destruct Hin as [[= <- <-] | []]. auto.
      * cfg. simpl. rewrite app_nil_r. apply written_by_none.
        intros u s Hin Hu. apply (out_ok_reachable B t0 c1 Hreach) in Hin. lia.
    + intros t' th' Ht'. rewrite out_raise_in.
      destruct (lookup_raise_in _ _ _ _ _ Ht') as [[-> ->] | [Hne Hold]].
      * exact (IH _ _ Ht).
      * exact (IH _ _ Hold).
Qed.

End Flat.

(** ** The sources are the scheduler at the coffee-and-toast workload *)

Lemma Program_01_async_is_sequential :
  Program_01_async.CreateCoffee = dispatch Sequential coffee /\
  Program_01_async.CreateToast = dispatch Sequential toast /\
  Program_01_async.Run = Scheduler_run Sequential workload.
Proof. repeat split. Qed.

Lemma Program_is_unsynchronized :
  Program.CreateCoffee = dispatch ConcurrentUnsynchronized coffee /\
  Program.CreateToast = dispatch ConcurrentUnsynchronized toast /\
  Program.Run = Scheduler_run ConcurrentUnsynchronized workload.
Proof. repeat split. Qed.

Lemma Program_03_is_synchronized :
  Program_03_async_cout_mutex.CreateCoffee = dispatch ConcurrentSynchronized coffee /\
  Program_03_async_cout_mutex.CreateToast = dispatch ConcurrentSynchronized toast /\
  Program_03_async_cout_mutex.Run = Scheduler_run ConcurrentSynchronized workload.
Proof. repeat split. Qed.

(** ** Static facts about the scheduler's code *)

Lemma spawned_app (l1 l2 : list instr) : spawned (l1 ++ l2) = spawned l1 ++ spawned l2.
Proof. unfold spawned. apply omap_app. Qed.

Lemma spawned_execute (mode : ExecutionMode) (u : WorkUnit) :
  spawned (execute mode u) = [].
Proof. destruct mode; reflexivity. Qed.

Lemma spawned_dispatch (mode : ExecutionMode) (units : list WorkUnit) :
  spawned (flat_map (dispatch mode) units) =
  match mode with Sequential => [] | _ => execute mode <$> units end.
Proof.
  induction units as [|u units IH]; simpl.
  - destruct mode; reflexivity.
  - rewrite spawned_app, IH. destruct mode; reflexivity.
Qed.

Lemma spawned_join_all (mode : ExecutionMode) (n : nat) : spawned (join_all mode n) = [].
Proof.
  destruct mode; simpl; try reflexivity;
    generalize 0%nat; induction n as [|n IH]; intros k; simpl; auto.
Qed.

Lemma spawned_Scheduler_run (mode : ExecutionMode) (units : list WorkUnit) :
  spawned (Scheduler_run mode units) =
  match mode with Sequential => [] | _ => execute mode <$> units end.
Proof.
  unfold Scheduler_run. rewrite !spawned_app, spawned_dispatch, spawned_join_all.
  simpl. rewrite !app_nil_r. reflexivity.
Qed.

Lemma flat_Scheduler_run (mode : ExecutionMode) (units : list WorkUnit) :
  flat (Scheduler_run mode units).
Proof.
  unfold flat. rewrite spawned_Scheduler_run.
  destruct mode; [constructor| |];
    apply list.Forall_forall; intros b Hb;
    apply list_elem_of_fmap in Hb as (u & -> & _); reflexivity.
Qed.

Lemma tidy_split (xs ys : list instr) :
  Forall (fun j => is_count j = false) xs ->
  Forall (fun j => is_clock j = false) ys ->
  tidy (xs ++ ys).
Proof.
  intros Hx Hy k i Hi Hc.
  destruct (decide (k < length xs)%nat) as [Hlt | Hge].
  - rewrite take_app_le by lia. apply Forall_take. exact Hx.
  - rewrite lookup_app_r in Hi by lia.
    apply list_elem_of_lookup_2 in Hi.
    pose proof (proj1 (list.Forall_forall _ _) Hy _ Hi) as Hn. congruence.
Qed.

Lemma tidy_no_clock (code : list instr) :
  Forall (fun j => is_clock j = false) code -> tidy code.
Proof. intros H. apply (tidy_split [] code); [constructor | exact H]. Qed.

Lemma execute_no_clock (mode : ExecutionMode) (u : WorkUnit) :
  Forall (fun j => is_clock j = false) (execute mode u).
Proof. destruct mode; repeat constructor. Qed.

Lemma dispatch_no_count (mode : ExecutionMode) (units : list WorkUnit) :
  Forall (fun j => is_count j = false) (flat_map (dispatch mode) units).
Proof.
  induction units as [|u units IH]; simpl; [constructor|].
  apply Forall_app. split; [|exact IH]. destruct mode; repeat constructor.
Qed.

Lemma join_all_no_count (mode : ExecutionMode) (n : nat) :
  Forall (fun j => is_count j = false) (join_all mode n).
Proof.
  destruct mode; simpl; [constructor| |];
    apply Forall_fmap, list.Forall_forall; intros; reflexivity.
Qed.

Lemma tidy_Scheduler_run (mode : ExecutionMode) (units : list WorkUnit) :
  tidy (Scheduler_run mode units).
Proof.
  unfold Scheduler_run.
  replace ([ClockStart] ++ flat_map (dispatch mode) units ++
           join_all mode (length units) ++ [ClockStop] ++ report)
    with (([ClockStart] ++ flat_map (dispatch mode) units ++
           join_all mode (length units) ++ [ClockStop]) ++ report)
    by (rewrite <- !app_assoc; reflexivity).
  apply tidy_split; [|repeat constructor].
  repeat (apply Forall_app; split);
    auto using dispatch_no_count, join_all_no_count; repeat constructor.
Qed.

Lemma workers_tidy_Scheduler_run (mode : ExecutionMode) (units : list WorkUnit) :
  Forall tidy (spawned (Scheduler_run mode units)).
Proof.
  rewrite spawned_Scheduler_run.
  destruct mode; [constructor| |];
    apply list.Forall_forall; intros b Hb;
    apply list_elem_of_fmap in Hb as (u & -> & _);
    apply tidy_no_clock, execute_no_clock.
Qed.

(** The thread that runs the [i]-th unit in a concurrent mode runs its
    [execute]. *)
Lemma worker_executes (mode : ExecutionMode) (units : list WorkUnit) (t0 : Z)
      (c : config) (j : nat) (th : thread) :
  mode <> Sequential ->
  reachable (boot (Scheduler_run mode units) t0) c ->
  pool c !! S j = Some th ->
  exists u, units !! j = Some u /\ body th = execute mode u.
Proof.
  intros Hmode Hr Hj.
  destruct (worker_body _ t0 (flat_Scheduler_run mode units) c j th Hr Hj)
    as (m & _ & Hb).
  assert (Hfull : spawned (Scheduler_run mode units) !! j = Some (body th)).
  { rewrite <- (take_drop (pc m) (Scheduler_run mode units)), spawned_app.
    apply lookup_app_l_Some. exact Hb. }
  rewrite spawned_Scheduler_run in Hfull.
  destruct mode; [done| |]; rewrite list_lookup_fmap in Hfull;
    destruct (units !! j) as [u|]; simpl in Hfull; try done;
    injection Hfull as <-; eauto.
Qed.

(** In Sequential mode main is the only thread. *)
Lemma sequential_alone (units : list WorkUnit) (t0 : Z) (c : config) :
  reachable (boot (Scheduler_run Sequential units) t0) c ->
  exists m, pool c = [m] /\ body m = Scheduler_run Sequential units.
Proof.
  intros Hr.
  destruct (shape_reachable _ t0 (flat_Scheduler_run Sequential units) c Hr)
    as (m & ws & Hpool & Hb & _ & Hws).
  exists m. split; [|exact Hb]. rewrite Hpool. f_equal.
  assert (Hnil : spawned (take (pc m) (Scheduler_run Sequential units)) = []).
  { assert (Hall : forall b, b ∈ spawned (take (pc m) (Scheduler_run Sequential units)) -> False).
    { intros b Hin. apply spawned_take in Hin.
      rewrite spawned_Scheduler_run in Hin. inversion Hin. }
    destruct (spawned (take (pc m) (Scheduler_run Sequential units))) as [|b l]; auto.
    exfalso. apply (Hall b). left. }
  rewrite Hnil in Hws. destruct ws; [reflexivity | discriminate].
Qed.

(** ** The texts *)

Ltac text_differs H := exfalso; injection H; intros; discriminate.

Lemma start_ne_finish (u v : WorkUnit) : start_message u <> finish_message v.
Proof. unfold start_message, finish_message. intros H. text_differs H. Qed.

Lemma finish_ne_newline (u : WorkUnit) : finish_message u <> newline.
Proof. unfold finish_message, newline. intros H. text_differs H. Qed.



(** A numeral starts with a digit or a minus sign. *)
Lemma string_of_Z_head (n : Z) :
  exists a r, string_of_Z n = String a r /\
    (a = "-" \/ a = "0" \/ a = "1" \/ a = "2" \/ a = "3" \/ a = "4" \/ a = "5" \/
     a = "6" \/ a = "7" \/ a = "8" \/ a = "9")%char.
Proof.
  unfold string_of_Z. destruct (Z.to_int n) as [d|d]; simpl.
  - destruct d; simpl; eexists _, _; (split; [reflexivity|]); tauto.
  - eexists _, _. split; [reflexivity|]. tauto.
Qed.


(** ** Order on the console *)

Lemma app_split_at {A : Type} (l l' l1 l2 : list A) (b : A) :
  l ++ l' = l1 ++ b :: l2 ->
  (exists k, l = l1 ++ b :: k /\ l2 = k ++ l') \/
  (exists k, l1 = l ++ k /\ l' = k ++ b :: l2).
Proof.
  revert l1. induction l as [|x l IH]; intros l1 H; simpl in H.
  - right. exists l1. auto.
  - destruct l1 as [|y l1]; simpl in H; injection H as -> H.
    + left. exists l. auto.
    + destruct (IH _ H) as [(k & -> & ->) | (k & -> & ->)].
      * left. exists k. auto.
      * right. exists k. auto.
Qed.

Lemma always_after_nil {A : Type} (a b : A) : always_after a b [].
Proof. intros [|x l1] l2 H; discriminate. Qed.

Lemma always_after_absent {A : Type} (a b : A) (l : list A) :
  ~ In b l -> always_after a b l.
Proof.
  intros Hb l1 l2 ->. exfalso. apply Hb. apply in_or_app. right. left. reflexivity.
Qed.


Lemma always_after_app {A : Type} (a b : A) (l l' : list A) :
  always_after a b l -> always_after a b l' -> always_after a b (l ++ l').
Proof.
  intros H H' l1 l2 Heq.
  destruct (app_split_at _ _ _ _ _ Heq) as [(k & Hl & _) | (k & -> & Hl')].
  - exact (H _ _ Hl).
  - apply in_or_app. right. exact (H' _ _ Hl').
Qed.


Lemma In_written_by (t : nat) (s : string) (o : list (nat * string)) :
  In s (written_by t o) -> In (t, s) o.
Proof.
  induction o as [|[u x] o IH]; [done|].
  unfold written_by in *. csimpl.
  destruct (Nat.eqb_spec u t) as [-> | Hne]; simpl.
  - intros [-> | Hin]; [left; reflexivity | right; auto].
  - intros Hin. right. auto.
Qed.

Lemma written_by_In (t : nat) (s : string) (o : list (nat * string)) :
  In (t, s) o -> In s (written_by t o).
Proof.
  induction o as [|[u x] o IH]; [done|].
  unfold written_by in *. csimpl.
  intros [[= -> ->] | Hin].
  - rewrite Nat.eqb_refl. left. reflexivity.
  - destruct (Nat.eqb u t); simpl; auto.
Qed.


(** ** The statements of a unit, in the order of [execute] *)

Lemma pieces_execute (th : thread) (mode : ExecutionMode) (u : WorkUnit) :
  pieces th (execute mode u) =
  [start_message u; newline; finish_message u; newline].
Proof. destruct mode; reflexivity. Qed.





(** ** Overhead *)

Lemma stalled_step (ch : choice) (c : config) :
  stalled (step ch c) =
  stalled c + match ch with
              | Stall dt => if may_run c then Z.of_N dt else 0
              | _ => 0
              end.
Proof.
  unfold step. destruct (may_run c); [|destruct ch; lia].
  destruct ch as [t|t| |dt]; simpl.
  - destruct (pool c !! t) as [th|]; [|lia].
    destruct (ready c t th) as [i|]; [|lia].
    destruct (rethrows c th i);
      rewrite ?stalled_raise_in, ?stalled_exec_instr; lia.
  - destruct (pool c !! t) as [th|]; [|lia].
    destruct (ready c t th) as [i|]; [|lia].
    rewrite stalled_raise_in. lia.
  - destruct (some_ready c); [lia|]. destruct (next_wake c); cfg; lia.
  - reflexivity.
Qed.

(** The overhead of a run is at most what its schedule asks for. *)
Lemma stalled_exec (sched : list choice) (c : config) :
  stalled c <= stalled (exec sched c) <= stalled c + total_stall sched.
Proof.
  revert c. induction sched as [|ch sched IH]; intros c; simpl; [lia|].
  specialize (IH (step ch c)). rewrite stalled_step in IH.
  destruct ch as [t|t| |dt]; try lia.
  destruct (may_run c); lia.
Qed.

Lemma total_stall_nonneg (sched : list choice) : 0 <= total_stall sched.
Proof. induction sched as [|[t|t| |dt] sched IH]; simpl; lia. Qed.

(** ** Sequential mode *)

Lemma slept_app (l1 l2 : list instr) : slept (l1 ++ l2) = slept l1 + slept l2.
Proof. induction l1 as [|i l1 IH]; simpl; [lia|]. rewrite IH. lia. Qed.

Lemma slept_dispatch_sequential (units : list WorkUnit) :
  slept (flat_map (dispatch Sequential) units) = total_duration units.
Proof.
  induction units as [|u units IH]; [reflexivity|].
  change (flat_map (dispatch Sequential) (u :: units))
    with (execute Sequential u ++ flat_map (dispatch Sequential) units).
  rewrite slept_app, IH. simpl. lia.
Qed.

Lemma dispatch_sequential_statements (units : list WorkUnit) (k : nat) (i : instr) :
  Forall (fun u => 0 <= durationMillis u) units ->
  flat_map (dispatch Sequential) units !! k = Some i ->
  is_clock i = false /\ 0 <= sleep_of i /\
  match i with
  | Insert _ | Endl | SleepFor _ => True
  | _ => False
  end.
Proof.
  intros Hd. revert k. induction Hd as [|u us Hu _ IH]; intros k Hk; [done|].
  change (flat_map (dispatch Sequential) (u :: us))
    with (execute Sequential u ++ flat_map (dispatch Sequential) us) in Hk.
  apply lookup_app_Some in Hk as [Hk | [_ Hk]]; [|eauto].
  do 5 (destruct k as [|k];
        [injection Hk as <-; simpl; unfold milliseconds; repeat split; lia|]).
  discriminate.
Qed.

Section Sequential.

Variable units : list WorkUnit.
Variable t0 : Z.
Hypothesis durations_nonneg : Forall (fun u => 0 <= durationMillis u) units.

Let D : list instr := flat_map (dispatch Sequential) units.

Lemma sequential_code :
  Scheduler_run Sequential units = ClockStart :: D ++ ClockStop :: report.
Proof. reflexivity. Qed.

Lemma D_statements (k : nat) (i : instr) :
  D !! k = Some i ->
  is_clock i = false /\ 0 <= sleep_of i /\
  match i with
  | Insert _ | Endl | SleepFor _ => True
  | _ => False
  end.
Proof. apply dispatch_sequential_statements. exact durations_nonneg. Qed.

Lemma sequential_lookup (p : nat) (i : instr) :
  Scheduler_run Sequential units !! p = Some i ->
  0 <= sleep_of i /\
  (i = ClockStart <-> p = 0%nat) /\
  (i = ClockStop <-> p = S (length D)) /\
  match i with
  | Insert _ | Endl | SleepFor _ | ClockStart | ClockStop | InsertCount => True
  | _ => False
  end.
Proof.
  rewrite sequential_code. destruct p as [|p]; simpl.
  - intros [= <-]. repeat split; try done; simpl; lia.
  - intros H. apply lookup_app_Some in H as [H | [Hle H]].
    + pose proof (lookup_lt_Some _ _ _ H) as Hlt.
      destruct (D_statements _ _ H) as (Hc & Hs & Hk).
      destruct i; try done; repeat split; auto; intros; discriminate || lia.
    + destruct (p - length D)%nat as [|[|[|[|[|q]]]]] eqn:Hq; simpl in H;
        try discriminate; injection H as <-;
        repeat split; try done; simpl; try lia; intros; discriminate || lia.
Qed.

Lemma slept_take_stop :
  slept (take (S (length D)) (Scheduler_run Sequential units)) = total_duration units.
Proof.
  rewrite sequential_code. simpl. rewrite take_app_length.
  apply slept_dispatch_sequential.
Qed.

Lemma sequential_time_reachable (c : config) :
  reachable (boot (Scheduler_run Sequential units) t0) c ->
  sequential_time units t0 c.
Proof.
  intros Hreach. revert c Hreach. apply invariant.
  - exists (spawn (Scheduler_run Sequential units) t0). split; [reflexivity|].
    cfg. simpl. repeat split; try lia.
  - intros c1 c2 Hreach (m & Hpool & [Hst Ht0] & Hup & Hlow & Hstop) Htr.
    pose proof (main_body _ t0 (flat_Scheduler_run Sequential units) c1 m Hreach
                  ltac:(rewrite Hpool; reflexivity)) as Hb.
    fold D in Hstop.
    destruct Htr as [t th i Ht Hr Hre | t th i Ht Hr | w He Hs Hn | dt He Hdt].
    + rewrite Hpool in Ht. destruct t as [|t]; simpl in Ht; [|done].
      injection Ht as <-.
      apply ready_inv in Hr as (_ & _ & Hw & Hi & _).
      rewrite Hb in Hi.
      destruct (sequential_lookup _ _ Hi) as (Hs & Hcs & Hce & Hkind).
      exists (local_step c1 m i). split.
      { rewrite pool_exec_instr, Hpool. destruct i; try done. }
      rewrite now_exec_instr, stalled_exec_instr, pc_local_step.
      rewrite (take_S_r _ _ _ Hi), slept_app. fold D.
      assert (Hsl : slept [i] = sleep_of i) by (simpl; lia). rewrite Hsl.
      assert (Hfirst : pc m = 0%nat -> slept (take (pc m) (Scheduler_run Sequential units)) = 0)
        by (intros ->; reflexivity).
      assert (Hlast : pc m = S (length D) ->
                slept (take (pc m) (Scheduler_run Sequential units)) = total_duration units)
        by (intros ->; apply slept_take_stop).
      split; [split; [exact Hst | exact Ht0]|].
      destruct i; try done; cfg; unfold local_step; cfg; simpl sleep_of in *.
      * assert (pc m <> 0%nat) by (intros E; apply Hcs in E; discriminate).
        assert (pc m <> S (length D)) by (intros E; apply Hce in E; discriminate).
        split; [lia|]. split.
        -- intros _. destruct (Hlow ltac:(lia)). lia.
        -- intros Hp. specialize (Hstop ltac:(lia)). lia.
      * assert (pc m <> 0%nat) by (intros E; apply Hcs in E; discriminate).
        assert (pc m <> S (length D)) by (intros E; apply Hce in E; discriminate).
        split; [lia|]. split.
        -- intros _. destruct (Hlow ltac:(lia)). lia.
        -- intros Hp. specialize (Hstop ltac:(lia)). lia.
      * assert (pc m <> 0%nat) by (intros E; apply Hcs in E; discriminate).
        assert (pc m <> S (length D)) by (intros E; apply Hce in E; discriminate).
        split; [lia|]. split.
        -- intros _. destruct (Hlow ltac:(lia)). lia.
        -- intros Hp. specialize (Hstop ltac:(lia)). lia.
      * assert (Hz : pc m = 0%nat) by (apply Hcs; reflexivity).
        specialize (Hfirst Hz).
        split; [lia|]. split.
        -- intros _. lia.
        -- intros Hp. lia.
      * assert (Hz : pc m = S (length D)) by (apply Hce; reflexivity).
        specialize (Hlast Hz). destruct (Hlow ltac:(lia)).
        split; [lia|]. split.
        -- intros _. lia.
        -- intros _. lia.
      * assert (pc m <> 0%nat) by (intros E; apply Hcs in E; discriminate).
        assert (pc m <> S (length D)) by (intros E; apply Hce in E; discriminate).
        split; [lia|]. split.
        -- intros _. destruct (Hlow ltac:(lia)). lia.
        -- intros Hp. specialize (Hstop ltac:(lia)). lia.
    + rewrite Hpool in Ht. destruct t as [|t]; simpl in Ht; [|done].
      injection Ht as <-.
      exists (fail m). split.
      { rewrite pool_raise_in, Hpool. reflexivity. }
      rewrite now_raise_in, stalled_raise_in. cfg. auto.
    + exists m. split; [exact Hpool|]. cfg.
      apply next_wake_spec in Hn as (Hlt & (t & th & Ht & <-) & _).
      rewrite Hpool in Ht. destruct t as [|t]; simpl in Ht; [|done].
      injection Ht as <-.
      split; [split; lia|]. split; [lia|]. split.
      * intros Hp. destruct (Hlow Hp). lia.
      * intros Hp. specialize (Hstop Hp). fold D. lia.
    + exists m. split; [exact Hpool|]. cfg.
      split; [split; lia|]. split; [lia|]. split.
      * intros Hp. destruct (Hlow Hp). lia.
      * intros Hp. specialize (Hstop Hp). fold D. lia.
Qed.

(** When main is done, the elapsed time is the sum of the durations, up to
    the overhead of the run. *)
Lemma sequential_elapsed (sched : list choice) :
  let c := exec sched (boot (Scheduler_run Sequential units) t0) in
  main_done c = true ->
  total_duration units <= elapsed c <= total_duration units + total_stall sched.
Proof.
  intros c Hdone.
  assert (Hreach : reachable (boot (Scheduler_run Sequential units) t0) c)
    by (exists sched; reflexivity).
  destruct (sequential_time_reachable c Hreach) as (m & Hpool & _ & _ & _ & Hstop).
  pose proof (main_body _ t0 (flat_Scheduler_run Sequential units) c m Hreach
                ltac:(rewrite Hpool; reflexivity)) as Hb.
  unfold main_done, elapsed in *. rewrite Hpool in *. simpl in *.
  apply bool_decide_eq_true in Hdone. rewrite Hb in Hdone.
  rewrite sequential_code in Hdone. simpl in Hdone.
  rewrite length_app in Hdone. simpl in Hdone. fold D in Hstop.
  specialize (Hstop ltac:(lia)).
  pose proof (stalled_exec sched (boot (Scheduler_run Sequential units) t0)) as Hs.
  fold c in Hs. cfg. lia.
Qed.

(** The overhead-free schedule runs a sequential program to its end. *)
Lemma straight_pair (c : config) (m : thread) :
  pool c = [m] -> proc c = Running -> failed m = false -> wake m <= now c ->
  body m = Scheduler_run Sequential units ->
  (pc m < length (Scheduler_run Sequential units))%nat ->
  exists m', pool (step Idle (step (Run 0) c)) = [m'] /\
    proc (step Idle (step (Run 0) c)) = Running /\ failed m' = false /\
    wake m' <= now (step Idle (step (Run 0) c)) /\
    body m' = Scheduler_run Sequential units /\ pc m' = S (pc m).
Proof.
  intros Hpool Hproc Hnf Hw Hb Hpc.
  destruct (lookup_lt_is_Some_2 _ _ Hpc) as [i Hi].
  destruct (sequential_lookup _ _ Hi) as (_ & _ & _ & Hkind).
  assert (Hmay : may_run c = true) by (unfold may_run; rewrite Hproc; reflexivity).
  assert (Hready : ready c 0 m = Some i).
  { unfold ready. rewrite Hmay, Hnf, Hb, Hi. simpl.
    rewrite bool_decide_eq_true_2 by exact Hw. destruct i; done. }
  assert (Hstep : step (Run 0) c = exec_instr c 0 m i).
  { unfold step. rewrite Hmay. simpl. rewrite Hpool. simpl. rewrite Hready.
    destruct i; done. }
  rewrite Hstep. set (c1 := exec_instr c 0 m i).
  assert (Hpool1 : pool c1 = [local_step c m i]).
  { unfold c1. rewrite pool_exec_instr, Hpool. destruct i; done. }
  assert (Hproc1 : proc c1 = Running).
  { unfold c1. rewrite proc_exec_instr, Hproc. destruct i; done. }
  assert (Hmay1 : may_run c1 = true) by (unfold may_run; rewrite Hproc1; reflexivity).
  exists (local_step c m i).
  rewrite failed_local_step, body_local_step, pc_local_step.
  unfold step. rewrite Hmay1. simpl.
  unfold some_ready. rewrite Hpool1. simpl.
  destruct (ready c1 0 (local_step c m i)) as [j|] eqn:Hr1.
  - apply ready_inv in Hr1 as (_ & _ & Hw1 & _). repeat split; auto.
  - unfold next_wake. rewrite Hpool1. simpl.
    case_bool_decide as Hlt; cfg; repeat split; auto; lia.
Qed.

Lemma straight_run (n : nat) (c : config) (m : thread) :
  pool c = [m] -> proc c = Running -> failed m = false -> wake m <= now c ->
  body m = Scheduler_run Sequential units ->
  (pc m + n <= length (Scheduler_run Sequential units))%nat ->
  exists m', pool (exec (straight n) c) = [m'] /\
    body m' = Scheduler_run Sequential units /\ pc m' = (pc m + n)%nat.
Proof.
  revert c m. induction n as [|n IH]; intros c m Hpool Hproc Hnf Hw Hb Hpc.
  - exists m. rewrite Nat.add_0_r. auto.
  - destruct (straight_pair c m Hpool Hproc Hnf Hw Hb ltac:(lia))
      as (m1 & Hpool1 & Hproc1 & Hnf1 & Hw1 & Hb1 & Hpc1).
    destruct (IH _ m1 Hpool1 Hproc1 Hnf1 Hw1 Hb1 ltac:(lia)) as (m' & H1 & H2 & H3).
    exists m'. split; [exact H1|]. split; [exact H2|]. lia.
Qed.

Lemma straight_no_stall (n : nat) : total_stall (straight n) = 0.
Proof. induction n as [|n IH]; [reflexivity|]. exact IH. Qed.

Lemma straight_completes :
  main_done (exec (straight (length (Scheduler_run Sequential units)))
                  (boot (Scheduler_run Sequential units) t0)) = true.
Proof.
  destruct (straight_run (length (Scheduler_run Sequential units))
              (boot (Scheduler_run Sequential units) t0)
              (spawn (Scheduler_run Sequential units) t0))
    as (m' & Hpool & Hb & Hpc); try reflexivity; cfg; try lia.
  unfold main_done. rewrite Hpool. simpl.
  apply bool_decide_eq_true. rewrite Hb, Hpc. simpl. lia.
Qed.

End Sequential.

(** ** Whole seconds *)

Lemma duration_cast_seconds_range (ticks n : Z) :
  0 <= n ->
  n * 1000000000 <= ticks < (n + 1) * 1000000000 ->
  duration_cast_seconds ticks = n.
Proof.
  intros Hn H. unfold duration_cast_seconds.
  rewrite Z.quot_div_nonneg by lia.
  symmetry. apply (Z.div_unique ticks 1000000000 n (ticks - n * 1000000000)); lia.
Qed.

(** ** The console of a sequential run *)

Lemma console_single (o : list (nat * string)) :
  (forall t s, In (t, s) o -> t = 0%nat) -> map snd o = written_by 0 o.
Proof.
  induction o as [|[t s] o IH]; intros H; [reflexivity|].
  unfold written_by in *. csimpl.
  rewrite (H t s) by (left; reflexivity). simpl. f_equal.
  apply IH. intros t' s' Hin. apply (H t' s'). right. exact Hin.
Qed.

Lemma sequential_console (units : list WorkUnit) (t0 : Z) (c : config) :
  reachable (boot (Scheduler_run Sequential units) t0) c ->
  main_done c = true ->
  exists m, pool c = [m] /\ console c = pieces m (Scheduler_run Sequential units).
Proof.
  intros Hr Hdone.
  destruct (sequential_alone units t0 c Hr) as (m & Hpool & Hb).
  exists m. split; [exact Hpool|].
  unfold console. rewrite console_single.
  - rewrite (written_ok_reachable _ t0 (flat_Scheduler_run Sequential units)
               (tidy_Scheduler_run Sequential units)
               (workers_tidy_Scheduler_run Sequential units) c Hr 0%nat m)
      by (rewrite Hpool; reflexivity).
    rewrite Hb. f_equal. apply take_ge.
    unfold main_done in Hdone. rewrite Hpool in Hdone. simpl in Hdone.
    apply bool_decide_eq_true in Hdone. rewrite Hb in Hdone. exact Hdone.
  - intros t s Hin. apply (out_ok_reachable _ t0 c Hr) in Hin.
    rewrite Hpool in Hin. simpl in Hin. lia.
Qed.

Lemma workload_nonneg : Forall (fun u => 0 <= durationMillis u) workload.
Proof. repeat constructor; simpl; lia. Qed.

(** C2. Sequential mode.  For every set of units (of non-negative
    durations) the elapsed time of a completed run is the sum of the
    durations, up to the overhead of the schedule, and exactly the sum for
    the overhead-free schedule, which completes.  For coffee (2000 ms) and
    toast (3000 ms) that is 5000 ms plus the overhead, and when the overhead
    stays under one second the console shows exactly the five lines, in
    this order. *)
Theorem C2_sequential_sum_and_output :
  (forall units t0 sched,
     Forall (fun u => 0 <= durationMillis u) units ->
     main_done (exec sched (boot (Scheduler_run Sequential units) t0)) = true ->
     total_duration units
       <= elapsed (exec sched (boot (Scheduler_run Sequential units) t0))
       <= total_duration units + total_stall sched) /\
  (forall units t0,
     Forall (fun u => 0 <= durationMillis u) units ->
     exists sched,
       total_stall sched = 0 /\
       main_done (exec sched (boot (Scheduler_run Sequential units) t0)) = true /\
       elapsed (exec sched (boot (Scheduler_run Sequential units) t0)) =
         total_duration units) /\
  (forall t0 sched,
     main_done (exec sched (boot Program_01_async.Run t0)) = true ->
     total_stall sched < milliseconds 1000 ->
     milliseconds 5000
       <= elapsed (exec sched (boot Program_01_async.Run t0))
       <= milliseconds 5000 + total_stall sched /\
     console_text (exec sched (boot Program_01_async.Run t0)) =
       unlines [ "Creating coffee..."; "Created coffee!";
                 "Creating toast..."; "Created toast!";
                 "Total time = 5 seconds" ]).
Proof.
  split; [|split].
  - intros units t0 sched Hd Hdone. apply sequential_elapsed; assumption.
  - intros units t0 Hd.
    exists (straight (length (Scheduler_run Sequential units))).
    pose proof (straight_completes units t0 Hd) as Hdone.
    pose proof (sequential_elapsed units t0 Hd _ Hdone) as He. cbv zeta in He.
    rewrite straight_no_stall in He.
    split; [apply straight_no_stall|]. split; [exact Hdone | lia].
  - intros t0 sched Hdone Hstall.
    pose proof (sequential_elapsed workload t0 workload_nonneg sched Hdone) as He.
    cbv zeta in He.
    change (Scheduler_run Sequential workload) with Program_01_async.Run in He.
    change (total_duration workload) with (milliseconds 5000) in He.
    split; [exact He|].
    destruct (sequential_console workload t0 _ ltac:(exists sched; reflexivity) Hdone)
      as (m & Hpool & Hcon).
    unfold console_text.
    change (Scheduler_run Sequential workload) with Program_01_async.Run in *.
    rewrite Hcon.
    assert (Hcount : count_text m = "5").
    { unfold count_text. unfold elapsed in He. rewrite Hpool in He. simpl in He.
      rewrite (duration_cast_seconds_range _ 5); [reflexivity | lia |].
      unfold milliseconds in *. lia. }
    simpl. rewrite Hcount. reflexivity.
Qed.

(** C2 at the overhead-free schedule of the sources' program. *)
Lemma C2_sequential_sum_and_output_witness :
  milliseconds 5000
    <= elapsed (exec (straight 16) (boot Program_01_async.Run 0))
    <= milliseconds 5000 + total_stall (straight 16) /\
  console_text (exec (straight 16) (boot Program_01_async.Run 0)) =
    unlines [ "Creating coffee..."; "Created coffee!";
              "Creating toast..."; "Created toast!";
              "Total time = 5 seconds" ].
Proof.
  apply (proj2 (proj2 C2_sequential_sum_and_output) 0 (straight 16)).
  - reflexivity.
  - reflexivity.
Defined.

(** ** Runs in which nothing throws *)

Lemma healthy_before (c c' : config) : trans c c' -> healthy c' -> healthy c.
Proof.
  intros [t th i Ht Hr Hre | t th i Ht Hr | w He Hs Hn | dt He Hdt] H t' th' Ht';
    try (exact (H t' th' Ht')).
  - destruct (decide (t' = t)) as [-> | Hne].
    + rewrite Ht in Ht'. injection Ht' as <-.
      rewrite <- (failed_local_step c th i).
      apply (H t). apply lookup_exec_instr_self. exact Ht.
    + apply (H t'). apply lookup_exec_instr_other; assumption.
  - destruct (decide (t' = t)) as [-> | Hne].
    + exfalso. specialize (H t (fail th)).
      rewrite pool_raise_in in H.
      rewrite list_lookup_insert_eq in H by (eapply lookup_lt_Some; eauto).
      specialize (H eq_refl). discriminate.
    + apply (H t'). rewrite pool_raise_in, list_lookup_insert_ne; auto.
Qed.

Lemma healthy_no_raise (c : config) (t : nat) (th : thread) :
  pool c !! t = Some th -> healthy (raise_in c t th) -> False.
Proof.
  intros Ht H. specialize (H t (fail th)).
  rewrite pool_raise_in in H.
  rewrite list_lookup_insert_eq in H by (eapply lookup_lt_Some; eauto).
  specialize (H eq_refl). discriminate.
Qed.

(** A thread that cannot run, in a process that runs and in which nothing
    has thrown. *)
Lemma not_ready_inv (c : config) (t : nat) (th : thread) :
  ready c t th = None -> may_run c = true -> failed th = false ->
  now c < wake th \/
  match body th !! pc th with
  | None => True
  | Some LockGuard => mutex c <> None
  | Some EndScope => mutex c <> Some t
  | Some (FutureGet f) =>
      forall u tu, futures th !! f = Some u -> pool c !! u = Some tu ->
                   finished c tu = false
  | Some _ => False
  end.
Proof.
  unfold ready. intros H Hm Hf. rewrite Hm, Hf in H. simpl in H.
  case_bool_decide as Hw; [|left; lia]. right.
  destruct (body th !! pc th) as [i|]; [|exact I].
  destruct i; try discriminate.
  - destruct (mutex c); [discriminate | discriminate].
  - case_bool_decide; [discriminate | assumption].
  - intros u tu Hu Htu. rewrite Hu, Htu in H.
    destruct (finished c tu); [discriminate | reflexivity].
Qed.

(** ** Threads whose function threw *)


Lemma always_after_snoc_other {A : Type} (a b e : A) (l : list A) :
  always_after a b l -> e <> b -> always_after a b (l ++ [e]).
Proof.
  intros H Hne. apply always_after_app; [exact H|].
  apply always_after_absent. simpl. intros [Heq | []]. auto.
Qed.

Lemma always_after_snoc_in {A : Type} (a b e : A) (l : list A) :
  always_after a b l -> In a l -> always_after a b (l ++ [e]).
Proof.
  intros H Hin l1 l2 Heq.
  destruct (app_split_at _ _ _ _ _ Heq) as [(k & Hl & _) | (k & -> & Hl')].
  - exact (H _ _ Hl).
  - apply in_or_app. left. exact Hin.
Qed.



(** ** The statements of [execute], by position *)

Lemma execute_lookup_sleep {mode : ExecutionMode} (u : WorkUnit) (k : nat) (ms : Z) :
  execute mode u !! k = Some (SleepFor ms) ->
  k = sleep_index mode /\ ms = durationMillis u.
Proof.
  destruct mode; simpl;
    do 8 (destruct k as [|k]; [intros [=]; auto|]); discriminate.
Qed.

Lemma guards_take_execute {mode : ExecutionMode} (u : WorkUnit) (k : nat) :
  guards (take k (execute mode u)) = if in_scope mode k then 1 else 0.
Proof.
  destruct mode; simpl;
    do 8 (destruct k as [|k]; [reflexivity|]); reflexivity.
Qed.

Lemma length_execute {mode : ExecutionMode} (u : WorkUnit) :
  length (execute mode u) = (sleep_index mode + 3)%nat.
Proof. destruct mode; reflexivity. Qed.

Lemma execute_step_kind {mode : ExecutionMode} (u : WorkUnit) (k : nat) (i : instr) :
  execute mode u !! k = Some i ->
  (k = sleep_index mode /\ i = SleepFor (durationMillis u)) \/
  (k <> sleep_index mode /\ forall c t th, local_step c th i = advance th /\
     pool (exec_instr c t th i) = <[t := advance th]> (pool c)).
Proof.
  destruct mode; simpl; intros H;
    do 7 (destruct k as [|k];
          [first [discriminate
                 | injection H as <-;
                   first [left; split; reflexivity
                         | right; split; [simpl; lia | intros; split; reflexivity]]]|]);
    discriminate.
Qed.

Lemma execute_lookup_finish {mode : ExecutionMode} (u v : WorkUnit) (th : thread) (k : nat) (i : instr) :
  execute mode u !! k = Some i ->
  piece th i = Some (finish_message v) ->
  k = S (sleep_index mode).
Proof.
  destruct mode; simpl; intros H Hp;
    do 7 (destruct k as [|k];
          [first [discriminate
                 | injection H as <-; simpl in Hp;
                   first [reflexivity | discriminate
                         | injection Hp as Hp;
                           first [exfalso; exact (start_ne_finish _ _ Hp)
                                 | exfalso; exact (finish_ne_newline _ (eq_sym Hp))]]]|]);
    discriminate.
Qed.

Lemma pieces_take_finish {mode : ExecutionMode} (u : WorkUnit) (th : thread) (k : nat) :
  (S (sleep_index mode) < k)%nat ->
  In (finish_message u) (pieces th (take k (execute mode u))).
Proof.
  destruct mode; simpl; intros Hk;
    do 7 (destruct k as [|k]; [lia || (simpl; tauto)|]); simpl; tauto.
Qed.

(** ** Two units, concurrently *)

Section Two.

Variable mode : ExecutionMode.
Variables u1 u2 : WorkUnit.
Variable t0 : Z.
Hypothesis concurrent : mode <> Sequential.
Hypothesis d1_nonneg : 0 <= durationMillis u1.
Hypothesis d2_nonneg : 0 <= durationMillis u2.

Let B2 : list instr := Scheduler_run mode [u1; u2].

Lemma two_code :
  B2 = [ ClockStart; Async (execute mode u1); Async (execute mode u2);
         FutureGet 0; FutureGet 1; ClockStop;
         Insert "Total time = "; InsertCount; Insert " seconds"; Endl ].
Proof. unfold B2. destruct mode; [done | reflexivity | reflexivity]. Qed.

(** The pool of the process: main, then the thread of the first unit once
    main is past the first [std::async], then that of the second. *)
Lemma two_view (c : config) :
  reachable (boot B2 t0) c ->
  exists m ws, pool c = m :: ws /\ body m = B2 /\ (pc m <= 10)%nat /\
    futures m = seq 1 (length ws) /\
    body <$> ws = take (pc m - 1) [execute mode u1; execute mode u2].
Proof.
  intros Hr.
  destruct (shape_reachable _ t0 (flat_Scheduler_run mode [u1; u2]) c Hr)
    as (m & ws & Hpool & Hb & Hf & Hws).
  pose proof (pc_ok_reachable _ t0 c Hr 0%nat m ltac:(rewrite Hpool; reflexivity)) as Hpc.
  rewrite Hb in Hpc. fold B2 in Hb, Hws, Hpc. rewrite two_code in Hpc, Hws. simpl in Hpc.
  exists m, ws. repeat split; auto.
  rewrite Hws. clear Hws. revert Hpc. generalize (pc m). intros k Hk.
  do 11 (destruct k as [|k]; [reflexivity|]). lia.
Qed.

Lemma two_workers (c : config) (j : nat) (w : thread) :
  reachable (boot B2 t0) c ->
  pool c !! S j = Some w ->
  exists m, pool c !! 0%nat = Some m /\ (j + 2 <= pc m)%nat /\
    (pc w <= length (body w))%nat /\
    ((j = 0%nat /\ body w = execute mode u1) \/ (j = 1%nat /\ body w = execute mode u2)).
Proof.
  intros Hr Hj.
  destruct (two_view c Hr) as (m & ws & Hpool & Hb & Hpc & Hf & Hws).
  pose proof (pc_ok_reachable _ t0 c Hr _ _ Hj) as Hpcw.
  rewrite Hpool in Hj |- *. simpl in Hj. exists m. split; [reflexivity|].
  assert (Hl : (body <$> ws) !! j = Some (body w))
    by (rewrite list_lookup_fmap, Hj; reflexivity).
  rewrite Hws in Hl. apply lookup_take_Some in Hl as [Hl Hlt].
  destruct j as [|[|j]]; simpl in Hl; try discriminate; injection Hl as Hl;
    (split; [lia|]); (split; [exact Hpcw|]); auto.
Qed.

Lemma guards_take_main (k : nat) : guards (take k B2) = 0.
Proof.
  rewrite two_code. do 11 (destruct k as [|k]; [reflexivity|]). reflexivity.
Qed.

(** What the machine's invariants say of the thread of a unit. *)
Lemma worker_facts (c : config) (j : nat) (w : thread) :
  reachable (boot B2 t0) c ->
  pool c !! S j = Some w ->
  failed w = false ->
  ((pc w <> S (sleep_index mode)) -> wake w <= now c) /\
  (mutex c = Some (S j) <-> in_scope mode (pc w) = true).
Proof.
  intros Hr Hj Hnf.
  destruct (two_workers c j w Hr Hj) as (m & _ & _ & _ & Hbody).
  assert (Hb : exists u, body w = execute mode u)
    by (destruct Hbody as [[_ H] | [_ H]]; eauto).
  destruct Hb as (u & Hb). split.
  - intros Hpc. destruct (wake_ok_reachable _ t0 c Hr _ _ Hj) as [H | (ms & Hp & Hs)]; auto.
    rewrite Hb in Hs. apply execute_lookup_sleep in Hs as [Hs _]. lia.
  - destruct (lock_ok_reachable _ t0 c Hr) as [_ Hl]. specialize (Hl _ _ Hj).
    unfold holds_guard in Hl. rewrite Hnf, Hb, guards_take_execute in Hl.
    destruct (in_scope mode (pc w)); case_bool_decide; split; intros; done || lia.
Qed.

Lemma main_facts (c : config) (m : thread) :
  reachable (boot B2 t0) c ->
  pool c !! 0%nat = Some m ->
  failed m = false ->
  wake m <= now c /\ mutex c <> Some 0%nat.
Proof.
  intros Hr Hm Hnf.
  pose proof (main_body _ t0 (flat_Scheduler_run mode [u1; u2]) c m Hr Hm) as Hb.
  fold B2 in Hb. split.
  - destruct (wake_ok_reachable _ t0 c Hr _ _ Hm) as [H | (ms & Hp & Hs)]; auto.
    exfalso. rewrite Hb, two_code in Hs. revert Hs. generalize (pc m - 1)%nat.
    intros k. do 11 (destruct k as [|k]; [discriminate|]). discriminate.
  - destruct (lock_ok_reachable _ t0 c Hr) as [_ Hl]. specialize (Hl _ _ Hm).
    unfold holds_guard in Hl. rewrite Hnf, Hb, guards_take_main in Hl.
    case_bool_decide; [lia | assumption].
Qed.

(** The owner of the mutex is never blocked: it is a unit's thread between
    the construction of its [lock_guard] and the closing brace, awake, with
    a statement it can execute. *)
Lemma holder_ready (c : config) (t : nat) :
  reachable (boot B2 t0) c -> healthy c -> may_run c = true ->
  mutex c = Some t ->
  exists th i, pool c !! t = Some th /\ ready c t th = Some i /\
    (1 <= pc th <= 3)%nat /\ mode = ConcurrentSynchronized.
Proof.
  intros Hr Hh Hmay Hm.
  destruct (lock_ok_reachable _ t0 c Hr) as [Hlt _].
  destruct (lookup_lt_is_Some_2 _ _ (Hlt _ Hm)) as [th Hth].
  pose proof (Hh _ _ Hth) as Hnf.
  destruct t as [|j].
  - destruct (main_facts c th Hr Hth Hnf) as [_ Hne]. done.
  - destruct (worker_facts c j th Hr Hth Hnf) as [Hw Hs].
    apply Hs in Hm as Hin.
    destruct (two_workers c j th Hr Hth) as (m & _ & _ & _ & Hbody).
    assert (Hb : exists u, body th = execute mode u)
      by (destruct Hbody as [[_ H] | [_ H]]; eauto).
    destruct Hb as (u & Hb).
    unfold in_scope in Hin. destruct mode; try discriminate.
    apply andb_true_iff in Hin as [H1 H3].
    apply Nat.leb_le in H1, H3.
    specialize (Hw ltac:(simpl; lia)).
    exists th. unfold ready. rewrite Hmay, Hnf, Hb. simpl.
    rewrite bool_decide_eq_true_2 by exact Hw.
    destruct (pc th) as [|[|[|[|k]]]]; try lia; simpl.
    + eexists. repeat split; auto.
    + eexists. repeat split; auto.
    + rewrite bool_decide_eq_true_2 by exact Hm. eexists. repeat split; auto.
Qed.

(** When no thread can run, a unit's thread is asleep or has returned. *)
Lemma idle_worker (c : config) (j : nat) (w : thread) :
  reachable (boot B2 t0) c -> healthy c -> may_run c = true ->
  some_ready c = false ->
  pool c !! S j = Some w ->
  (now c < wake w /\ pc w = S (sleep_index mode)) \/
  (wake w <= now c /\ pc w = (sleep_index mode + 3)%nat).
Proof.
  intros Hr Hh Hmay Hidle Hj.
  pose proof (some_ready_false c Hidle) as Hnone.
  pose proof (Hh _ _ Hj) as Hnf.
  destruct (worker_facts c j w Hr Hj Hnf) as [Hw Hs].
  destruct (decide (now c < wake w)) as [Hlt | Hge].
  - left. split; [exact Hlt|].
    destruct (decide (pc w = S (sleep_index mode))); [assumption|].
    specialize (Hw ltac:(assumption)). lia.
  - right. split; [lia|].
    destruct (not_ready_inv c (S j) w (Hnone _ _ Hj) Hmay Hnf) as [Hlt | Hblocked];
      [lia|].
    destruct (two_workers c j w Hr Hj) as (m & _ & _ & Hpc & Hbody).
    assert (Hb : exists u, body w = execute mode u)
      by (destruct Hbody as [[_ H] | [_ H]]; eauto).
    destruct Hb as (u & Hb). rewrite Hb in Hblocked, Hpc.
    assert (Hlock : mutex c <> None -> False).
    { intros Hm. destruct (mutex c) as [t|] eqn:Ht; [|done].
      destruct (holder_ready c t Hr Hh Hmay Ht) as (th & i & Hth & Hready & _).
      rewrite (Hnone _ _ Hth) in Hready. discriminate. }
    clear Hw. revert Hblocked Hpc Hs. generalize (pc w). intros k Hblocked Hpc Hs.
    destruct mode; [done| |]; simpl in *.
    + do 6 (destruct k as [|k]; [done|]). lia.
    + destruct k as [|k]; [exfalso; apply Hlock; exact Hblocked|].
      do 2 (destruct k as [|k]; [done|]).
      destruct k as [|k]; [exfalso; apply Hblocked, Hs; reflexivity|].
      do 3 (destruct k as [|k]; [done|]).
      destruct k as [|k]; [reflexivity | lia].
Qed.

(** When no thread can run, main waits for a future or has returned, and
    both units have been started. *)
Lemma idle_main (c : config) :
  reachable (boot B2 t0) c -> healthy c -> may_run c = true ->
  some_ready c = false ->
  exists m w1 w2, pool c = [m; w1; w2] /\ wake m <= now c /\
    (pc m = 3 \/ pc m = 4 \/ pc m = 10)%nat.
Proof.
  intros Hr Hh Hmay Hidle.
  pose proof (some_ready_false c Hidle) as Hnone.
  destruct (two_view c Hr) as (m & ws & Hpool & Hb & Hpc & Hf & Hws).
  assert (Hm : pool c !! 0%nat = Some m) by (rewrite Hpool; reflexivity).
  pose proof (Hh _ _ Hm) as Hnf.
  destruct (main_facts c m Hr Hm Hnf) as [Hw _].
  destruct (not_ready_inv c 0%nat m (Hnone _ _ Hm) Hmay Hnf) as [Hlt | Hblocked];
    [lia|].
  rewrite Hb, two_code in Hblocked.
  assert (Hcase : (pc m = 3 \/ pc m = 4 \/ pc m = 10)%nat).
  { revert Hblocked Hpc. generalize (pc m). intros k Hblocked Hpc.
    do 3 (destruct k as [|k]; [done|]).
    do 2 (destruct k as [|k]; [auto|]).
    do 5 (destruct k as [|k]; [done|]).
    destruct k; [auto | lia]. }
  assert (Hws2 : body <$> ws = [execute mode u1; execute mode u2]).
  { rewrite Hws. destruct Hcase as [-> | [-> | ->]]; reflexivity. }
  destruct ws as [|w1 [|w2 [|w3 ws]]]; try discriminate.
  exists m, w1, w2. auto.
Qed.

Lemma two_main_lookup (k : nat) (i : instr) :
  B2 !! k = Some i ->
  (k = 0 /\ i = ClockStart)%nat \/
  (k = 1 /\ i = Async (execute mode u1))%nat \/
  (k = 2 /\ i = Async (execute mode u2))%nat \/
  (k = 3 /\ i = FutureGet 0)%nat \/
  (k = 4 /\ i = FutureGet 1)%nat \/
  (k = 5 /\ i = ClockStop)%nat \/
  ((6 <= k)%nat /\ forall c th, local_step c th i = advance th /\
     pool (exec_instr c 0 th i) = <[0%nat := advance th]> (pool c)).
Proof.
  rewrite two_code. intros H.
  do 6 (destruct k as [|k]; [injection H as <-; tauto|]).
  do 6 right. split; [lia|].
  do 4 (destruct k as [|k]; [injection H as <-; intros; split; reflexivity|]).
  discriminate.
Qed.

Local Arguments Nat.leb : simpl never.

Lemma concurrent_time_reachable (c : config) :
  reachable (boot B2 t0) c -> concurrent_time mode u1 u2 t0 c.
Proof.
  intros Hreach. revert c Hreach. apply invariant.
  - intros _. exists (spawn B2 t0). split; [reflexivity|].
    unfold remaining, finish_due, sleeps_long. cfg. simpl.
    unfold milliseconds. repeat split; lia.
  - intros c1 c2 Hr1 IH Htr Hh2.
    pose proof (healthy_before _ _ Htr Hh2) as Hh1.
    destruct (IH Hh1) as (m & Hm & (Hst & Ht0 & Hwm) & Hstart & Hpot & Hdue1 & Hdue2 &
                          Hlong1 & Hlong2 & Hstop).
    clear IH.
    destruct (two_view c1 Hr1) as (m' & ws & Hpool & Hb & Hpc & Hf & Hws).
    rewrite Hpool in Hm. injection Hm as ->.
    assert (HD1 : 0 <= milliseconds (durationMillis u1)) by (unfold milliseconds; lia).
    assert (HD2 : 0 <= milliseconds (durationMillis u2)) by (unfold milliseconds; lia).
    destruct Htr as [t th i Ht Hr Hre | t th i Ht Hr | w He Hs Hn | dt He Hdt].
    + pose proof (get_ok_reachable _ t0 c1 Hr1) as Hget.
      apply ready_inv in Hr as (Hmay & Hnf & Hw & Hi & _).
      unfold concurrent_time, remaining, finish_due, sleeps_long in *.
      rewrite !now_exec_instr, !stalled_exec_instr.
      rewrite Hpool in Ht. destruct t as [|j]; simpl in Ht.
      * injection Ht as <-. rewrite Hb in Hi.
        exists (local_step c1 m i).
        split; [rewrite pool_exec_instr, Hpool; reflexivity|].
        unfold remaining, finish_due, sleeps_long in *.
        destruct (two_main_lookup _ _ Hi)
          as [[Hk ->] | [[Hk ->] | [[Hk ->] | [[Hk ->] | [[Hk ->] | [[Hk ->] | [Hk Hplain]]]]]]].
        -- rewrite pool_exec_instr, Hpool in *. rewrite Hk in *.
           destruct ws; [|discriminate]. cfg; unfold local_step; cfg. simpl in *.
           finish_time.
        -- rewrite pool_exec_instr, Hpool in *. rewrite Hk in *.
           destruct ws; [|discriminate]. cfg; unfold local_step; cfg. simpl in *.
           finish_time.
        -- rewrite pool_exec_instr, Hpool in *. rewrite Hk in *.
           destruct ws as [|w1 [|w2 ws]]; try discriminate.
           cfg; unfold local_step; cfg. simpl in *.
           finish_time.
        -- rewrite pool_exec_instr, Hpool in *. rewrite Hk in *.
           destruct ws as [|w1 [|w2 [|w3 ws]]]; try discriminate.
           cfg; unfold local_step; cfg. simpl in *.
           finish_time.
        -- rewrite pool_exec_instr, Hpool in *. rewrite Hk in *.
           destruct ws as [|w1 [|w2 [|w3 ws]]]; try discriminate.
           cfg; unfold local_step; cfg. simpl in *.
           finish_time.
        -- destruct (Hget 0%nat m 3%nat 0%nat) as (x1 & tu1 & Hx1 & Htu1 & Hret1);
             [rewrite Hpool; reflexivity | lia | rewrite Hb, two_code; reflexivity |].
           destruct (Hget 0%nat m 4%nat 1%nat) as (x2 & tu2 & Hx2 & Htu2 & Hret2);
             [rewrite Hpool; reflexivity | lia | rewrite Hb, two_code; reflexivity |].
           rewrite pool_exec_instr, Hpool in *. rewrite Hk in *.
           destruct ws as [|w1 [|w2 [|w3 ws]]]; try discriminate.
           rewrite Hf in Hx1, Hx2. simpl in Hx1, Hx2, Hws.
           injection Hx1 as <-. injection Hx2 as <-. simpl in Htu1, Htu2.
           injection Htu1 as <-. injection Htu2 as <-.
           injection Hws as Hb1 Hb2.
           unfold returned in Hret1, Hret2.
           rewrite !andb_true_iff, !bool_decide_eq_true in Hret1, Hret2.
           rewrite Hb1, length_execute in Hret1. rewrite Hb2, length_execute in Hret2.
           cfg; unfold local_step; cfg. simpl in *.
           finish_time.
        -- destruct (Hplain c1 m) as [Hls Hpl]. rewrite Hpl, Hls, Hpool in *.
           cfg. simpl in *.
           finish_time.
      * destruct (two_workers c1 j th Hr1 ltac:(rewrite Hpool; exact Ht))
          as (m1 & Hm1 & Hjm & Hpcw & Hbody).
        rewrite Hpool in Hm1. injection Hm1 as <-.
        exists m.
        destruct Hbody as [[-> Hbw] | [-> Hbw]]; rewrite Hbw in Hi;
          destruct (execute_step_kind _ _ _ Hi) as [[Hk ->] | [Hk Hplain]].
        -- split; [rewrite pool_exec_instr, Hpool; reflexivity|].
           rewrite pool_exec_instr, Hpool in *.
           destruct ws as [|w1 [|w2 ws]]; try discriminate;
             simpl in Ht; injection Ht as ->;
             cfg; unfold local_step; cfg; simpl in *; rewrite Hk in *;
             finish_time.
        -- destruct (Hplain c1 1%nat th) as [Hls Hpl].
           split; [rewrite Hpl, Hpool; reflexivity|].
           rewrite Hpl, Hpool in *.
           destruct ws as [|w1 [|w2 ws]]; try discriminate;
             simpl in Ht; injection Ht as ->;
             cfg; simpl in *;
             finish_time.
        -- split; [rewrite pool_exec_instr, Hpool; reflexivity|].
           rewrite pool_exec_instr, Hpool in *.
           destruct ws as [|w1 [|w2 ws]]; try discriminate;
             simpl in Ht; injection Ht as ->;
             cfg; unfold local_step; cfg; simpl in *; rewrite Hk in *;
             finish_time.
        -- destruct (Hplain c1 2%nat th) as [Hls Hpl].
           split; [rewrite Hpl, Hpool; reflexivity|].
           rewrite Hpl, Hpool in *.
           destruct ws as [|w1 [|w2 ws]]; try discriminate;
             simpl in Ht; injection Ht as ->;
             cfg; simpl in *;
             finish_time.
    + exfalso. exact (healthy_no_raise _ _ _ Ht Hh2).
    + assert (Hmay : may_run c1 = true)
        by (unfold may_run, exit_code in *; destruct (proc c1); done).
      destruct (idle_main c1 Hr1 Hh1 Hmay Hs) as (m1 & w1 & w2 & Hp & _ & Hcase).
      rewrite Hpool in Hp. injection Hp as <- ->.
      pose proof (idle_worker c1 0 w1 Hr1 Hh1 Hmay Hs ltac:(rewrite Hpool; reflexivity))
        as Hi1.
      pose proof (idle_worker c1 1 w2 Hr1 Hh1 Hmay Hs ltac:(rewrite Hpool; reflexivity))
        as Hi2.
      apply next_wake_spec in Hn as (Hlt & (t & th & Hth & Hw) & Hmin).
      rewrite Hpool in Hth, Hmin.
      pose proof (Hmin 1%nat w1 eq_refl) as Hmin1.
      pose proof (Hmin 2%nat w2 eq_refl) as Hmin2.
      assert (Hwho : w = wake m \/ w = wake w1 \/ w = wake w2).
      { destruct t as [|[|[|t]]]; simpl in Hth; try discriminate;
          injection Hth as <-; auto. }
      clear Hmin Hth.
      exists m. split; [cfg; rewrite Hpool; reflexivity|].
      unfold remaining, finish_due, sleeps_long in *. cfg. rewrite Hpool in *.
      simpl in *.
      destruct Hi1 as [[? Hp1] | [? Hp1]], Hi2 as [[? Hp2] | [? Hp2]];
        rewrite Hp1, Hp2 in *;
        destruct mode; simpl in *; try done; finish_time.
    + exists m. split; [cfg; rewrite Hpool; reflexivity|].
      unfold remaining, finish_due, sleeps_long in *. cfg.
      rewrite Hpool in *.
      destruct ws as [|w1 [|w2 ws]]; simpl in *; finish_time.
Qed.



Lemma returned_wrote_finish (c : config) (j : nat) (w : thread) (u : WorkUnit) :
  reachable (boot B2 t0) c ->
  pool c !! S j = Some w -> body w = execute mode u ->
  (S (sleep_index mode) < pc w)%nat ->
  In (S j, finish_message u) (out c).
Proof.
  intros Hr Hj Hb Hpc. apply In_written_by.
  rewrite (written_ok_reachable _ t0 (flat_Scheduler_run mode [u1; u2])
             (tidy_Scheduler_run mode [u1; u2])
             (workers_tidy_Scheduler_run mode [u1; u2]) c Hr _ _ Hj).
  rewrite Hb. apply pieces_take_finish. exact Hpc.
Qed.

Lemma finish_order_reachable (c : config) :
  reachable (boot B2 t0) c -> finish_order mode u1 u2 c.
Proof.
  intros Hreach. revert c Hreach. apply invariant.
  - intros _ _. apply always_after_nil.
  - intros c1 c2 Hr1 IH Htr Hh2 Hs2.
    pose proof (healthy_before _ _ Htr Hh2) as Hh1.
    pose proof (trans_stalled _ _ Htr) as Hmono.
    specialize (IH Hh1 ltac:(lia)).
    destruct Htr as [t th i Ht Hr Hre | t th i Ht Hr | w He Hs Hn | dt He Hdt];
      try (cfg; exact IH).
    + rewrite out_exec_instr. rewrite stalled_exec_instr in Hs2.
      destruct (piece th i) as [s|] eqn:Hp; [|rewrite app_nil_r; exact IH].
      destruct (decide ((t, s) = (2%nat, finish_message u2))) as [Heq | Hne];
        [|apply always_after_snoc_other; assumption].
      injection Heq as -> ->.
      apply always_after_snoc_in; [exact IH|].
      apply ready_inv in Hr as (_ & _ & Hw & Hi & _).
      destruct (two_workers c1 1 th Hr1 Ht) as (m & Hm & Hpcm & _ & [[? _] | [_ Hb2]]);
        [discriminate|].
      rewrite Hb2 in Hi.
      pose proof (execute_lookup_finish _ _ _ _ _ Hi Hp) as Hk.
      destruct (concurrent_time_reachable c1 Hr1 Hh1)
        as (m' & Hm' & (Hst & Ht0 & _) & Hstart & _ & Hdue1 & _ & _ & Hlong2 & _).
      rewrite Hm in Hm'. injection Hm' as <-.
      unfold sleeps_long in Hlong2. rewrite Ht in Hlong2.
      specialize (Hlong2 ltac:(lia)). specialize (Hstart ltac:(lia)).
      destruct (two_view c1 Hr1) as (m' & ws & Hpool & _ & _ & _ & Hws).
      rewrite Hpool in Ht, Hm. injection Hm as ->.
      destruct ws as [|w1 [|w2 ws]]; try discriminate.
      assert (Hb1 : body w1 = execute mode u1).
      { destruct (two_workers c1 0 w1 Hr1 ltac:(rewrite Hpool; reflexivity))
          as (_ & _ & _ & _ & [[_ H] | [? _]]); [exact H | discriminate]. }
      apply (returned_wrote_finish c1 0 w1 u1 Hr1 ltac:(rewrite Hpool; reflexivity) Hb1).
      unfold finish_due in Hdue1. rewrite Hpool in Hdue1. simpl in Hdue1.
      assert (HD1 : 0 <= milliseconds (durationMillis u1)) by (unfold milliseconds; lia).
      revert Hdue1. destruct (Nat.leb_spec (pc w1) (sleep_index mode)); intros Hdue1; [lia|].
      destruct (decide (pc w1 = S (sleep_index mode))) as [He | Hn]; [|lia].
      specialize (Hdue1 He). lia.
    + exfalso. exact (healthy_no_raise _ _ _ Ht Hh2).
Qed.


End Two.


(** ** The concurrent programs of the sources *)




(** ** The guard, for any number of units *)

Lemma guards_take_zero (code : list instr) (k : nat) :
  Forall (fun i => guard_delta i = 0) code -> guards (take k code) = 0.
Proof.
  intros H. revert k. induction H as [|i code Hi _ IH]; intros [|k]; simpl; auto.
  rewrite IH. lia.
Qed.

Lemma Scheduler_run_no_guard (mode : ExecutionMode) (units : list WorkUnit) :
  Forall (fun i => guard_delta i = 0) (Scheduler_run mode units).
Proof.
  unfold Scheduler_run. repeat (apply Forall_app; split); try (repeat constructor).
  - induction units as [|u units IH]; simpl; [constructor|].
    apply Forall_app. split; [|exact IH]. destruct mode; repeat constructor.
  - destruct mode; simpl; [constructor| |];
      apply Forall_fmap, list.Forall_forall; intros; reflexivity.
Qed.

Lemma main_never_holds (mode : ExecutionMode) (units : list WorkUnit) (t0 : Z)
      (c : config) :
  reachable (boot (Scheduler_run mode units) t0) c -> mutex c <> Some 0%nat.
Proof.
  intros Hr Hm.
  destruct (lock_ok_reachable _ t0 c Hr) as [Hlt Hl].
  destruct (lookup_lt_is_Some_2 _ _ (Hlt _ Hm)) as [m Hth].
  specialize (Hl _ _ Hth). rewrite bool_decide_eq_true_2 in Hl by exact Hm.
  unfold holds_guard in Hl. destruct (failed m); [lia|].
  rewrite (main_body _ t0 (flat_Scheduler_run mode units) c m Hr Hth) in Hl.
  rewrite guards_take_zero in Hl by apply Scheduler_run_no_guard. lia.
Qed.

(** The thread of a unit owns the mutex exactly while it is between the
    construction of its [lock_guard] and the closing brace; a thread that
    sleeps has just called [sleep_for]. *)
Lemma unit_scope (mode : ExecutionMode) (units : list WorkUnit) (t0 : Z)
      (c : config) (j : nat) (w : thread) :
  mode <> Sequential ->
  reachable (boot (Scheduler_run mode units) t0) c ->
  pool c !! S j = Some w ->
  (mutex c = Some (S j) <-> failed w = false /\ in_scope mode (pc w) = true) /\
  (now c < wake w -> pc w = S (sleep_index mode)).
Proof.
  intros Hmode Hr Hj.
  destruct (worker_executes mode units t0 c j w Hmode Hr Hj) as (u & Hu & Hb).
  split.
  - destruct (lock_ok_reachable _ t0 c Hr) as [_ Hl]. specialize (Hl _ _ Hj).
    unfold holds_guard in Hl. rewrite Hb, guards_take_execute in Hl.
    destruct (failed w), (in_scope mode (pc w)); case_bool_decide;
      split; try tauto; try lia; intros [? ?]; discriminate.
  - intros Hlt.
    destruct (wake_ok_reachable _ t0 c Hr _ _ Hj) as [H | (ms & Hp & Hs)]; [lia|].
    rewrite Hb in Hs. apply execute_lookup_sleep in Hs as [Hs _]. lia.
Qed.

(** The owner of the mutex can always run: it is the thread of a unit of
    the synchronized mode that has not thrown, is awake, and is at most
    three statements from the end of the guarded scope. *)
Lemma guard_holder_runs (mode : ExecutionMode) (units : list WorkUnit) (t0 : Z)
      (c : config) (t : nat) :
  reachable (boot (Scheduler_run mode units) t0) c ->
  may_run c = true ->
  mutex c = Some t ->
  exists j th u i,
    t = S j /\ pool c !! t = Some th /\ units !! j = Some u /\
    body th = execute ConcurrentSynchronized u /\
    failed th = false /\ (1 <= pc th <= 3)%nat /\
    ready c t th = Some i /\ body th !! pc th = Some i.
Proof.
  intros Hr Hmay Hm.
  destruct t as [|j]; [exfalso; exact (main_never_holds mode units t0 c Hr Hm)|].
  destruct (lock_ok_reachable _ t0 c Hr) as [Hlt _].
  destruct (lookup_lt_is_Some_2 _ _ (Hlt _ Hm)) as [th Hth].
  assert (Hmode : mode <> Sequential).
  { intros ->. destruct (sequential_alone units t0 c Hr) as (m & Hpool & _).
    rewrite Hpool in Hth. discriminate. }
  destruct (unit_scope mode units t0 c j th Hmode Hr Hth) as [Hs Hsleep].
  apply Hs in Hm as Hin. destruct Hin as [Hnf Hin].
  destruct (worker_executes mode units t0 c j th Hmode Hr Hth) as (u & Hu & Hb).
  unfold in_scope in Hin. destruct mode; try discriminate.
  apply andb_true_iff in Hin as [H1 H3]. apply Nat.leb_le in H1, H3.
  assert (Hw : wake th <= now c).
  { destruct (decide (now c < wake th)) as [Hlt' | ?]; [|lia].
    specialize (Hsleep Hlt'). simpl in Hsleep. lia. }
  exists j, th, u.
  unfold ready. rewrite Hmay, Hnf, Hb. simpl.
  rewrite bool_decide_eq_true_2 by exact Hw.
  destruct (pc th) as [|[|[|[|k]]]]; try lia; simpl.
  - eexists. repeat split; auto; lia.
  - eexists. repeat split; auto; lia.
  - rewrite bool_decide_eq_true_2 by exact Hm. eexists. repeat split; auto; lia.
Qed.

Lemma filter_none {A : Type} (P : A -> Prop) `{forall x, Decision (P x)} (l : list A) :
  (forall i x, l !! i = Some x -> ~ P x) -> filter P l = [].
Proof.
  induction l as [|a l IH]; intros Hn; [reflexivity|].
  rewrite filter_cons. destruct (decide (P a)) as [Ha | Ha].
  - exfalso. exact (Hn 0%nat a eq_refl Ha).
  - apply IH. intros i x Hi. exact (Hn (S i) x Hi).
Qed.

Lemma filter_at_most_one {A : Type} (P : A -> Prop) `{forall x, Decision (P x)}
      (l : list A) (k : option nat) (off : nat) :
  (forall i x, l !! i = Some x -> P x -> k = Some (off + i)%nat) ->
  (length (filter P l) <= 1)%nat.
Proof.
  revert off. induction l as [|a l IH]; intros off Hk; [simpl; lia|].
  rewrite filter_cons. destruct (decide (P a)) as [Ha | Ha].
  - rewrite (filter_none P l); [simpl; lia|].
    intros i x Hi Hx.
    pose proof (Hk 0%nat a eq_refl Ha) as H0.
    pose proof (Hk (S i) x Hi Hx) as H1.
    rewrite H0 in H1. injection H1 as H1. lia.
  - apply (IH (S off)). intros i x Hi Hx.
    rewrite (Hk (S i) x Hi Hx). f_equal. lia.
Qed.

(** At most one execution context holds the guard. *)
Lemma holders_at_most_one (B : list instr) (t0 : Z) (c : config) :
  reachable (boot B t0) c -> (holders c <= 1)%nat.
Proof.
  intros Hr. destruct (lock_ok_reachable _ t0 c Hr) as [_ Hl].
  unfold holders. apply (filter_at_most_one _ _ (mutex c) 0).
  intros i x Hi Hx. specialize (Hl _ _ Hi).
  case_bool_decide as Hm; [exact Hm | lia].
Qed.

Lemma holders_distinct (B : list instr) (t0 : Z) (c : config)
      (t t' : nat) (th th' : thread) :
  reachable (boot B t0) c ->
  pool c !! t = Some th -> pool c !! t' = Some th' ->
  0 < holds_guard th -> 0 < holds_guard th' -> t = t'.
Proof.
  intros Hr Ht Ht' Hh Hh'. destruct (lock_ok_reachable _ t0 c Hr) as [_ Hl].
  pose proof (Hl _ _ Ht) as H1. pose proof (Hl _ _ Ht') as H2.
  repeat case_bool_decide; try lia. congruence.
Qed.

(** ** Acquisitions, for any number of units *)

Lemma dispatch_concurrent (mode : ExecutionMode) (units : list WorkUnit) :
  mode <> Sequential ->
  flat_map (dispatch mode) units = (fun u => Async (execute mode u)) <$> units.
Proof.
  intros Hmode. induction units as [|u units IH]; [reflexivity|].
  simpl. rewrite IH. destruct mode; [done | reflexivity | reflexivity].
Qed.

Lemma concurrent_code (mode : ExecutionMode) (units : list WorkUnit) :
  mode <> Sequential ->
  Scheduler_run mode units =
  ClockStart :: ((fun u => Async (execute mode u)) <$> units) ++
  (FutureGet <$> seq 0 (length units)) ++ ClockStop :: report.
Proof.
  intros Hmode. unfold Scheduler_run. rewrite dispatch_concurrent by exact Hmode.
  destruct mode; [done | reflexivity | reflexivity].
Qed.

Lemma concurrent_lookup_get (mode : ExecutionMode) (units : list WorkUnit) (j : nat) :
  mode <> Sequential ->
  (j < length units)%nat ->
  Scheduler_run mode units !! S (length units + j) = Some (FutureGet j).
Proof.
  intros Hmode Hj. rewrite concurrent_code by exact Hmode. simpl.
  rewrite lookup_app_r by (rewrite length_fmap; lia).
  rewrite length_fmap. replace (length units + j - length units)%nat with j by lia.
  rewrite lookup_app_l by (rewrite length_fmap, length_seq; lia).
  rewrite list_lookup_fmap, lookup_seq_lt by lia. reflexivity.
Qed.

Lemma length_Scheduler_run (mode : ExecutionMode) (units : list WorkUnit) :
  mode <> Sequential ->
  length (Scheduler_run mode units) = (2 * length units + 6)%nat.
Proof.
  intros Hmode. rewrite concurrent_code by exact Hmode. simpl.
  rewrite !length_app, !length_fmap, length_seq. simpl. lia.
Qed.

(** When main is done, every unit has its thread, and every thread has
    returned. *)
Lemma all_returned (mode : ExecutionMode) (units : list WorkUnit) (t0 : Z) (c : config) :
  mode <> Sequential ->
  reachable (boot (Scheduler_run mode units) t0) c ->
  main_done c = true ->
  exists m ws, pool c = m :: ws /\ body m = Scheduler_run mode units /\
    body <$> ws = execute mode <$> units /\
    forall j w, ws !! j = Some w -> returned c w = true.
Proof.
  intros Hmode Hr Hdone.
  destruct (shape_reachable _ t0 (flat_Scheduler_run mode units) c Hr)
    as (m & ws & Hpool & Hb & Hf & Hws).
  unfold main_done in Hdone. rewrite Hpool in Hdone. simpl in Hdone.
  apply bool_decide_eq_true in Hdone. rewrite Hb in Hdone.
  rewrite take_ge in Hws by exact Hdone.
  rewrite spawned_Scheduler_run in Hws.
  assert (Hws' : body <$> ws = execute mode <$> units)
    by (rewrite Hws; destruct mode; [done | reflexivity | reflexivity]).
  exists m, ws. repeat split; auto.
  intros j w Hj.
  assert (Hlen : length ws = length units).
  { rewrite <- (length_fmap body ws), Hws', length_fmap. reflexivity. }
  pose proof (lookup_lt_Some _ _ _ Hj) as Hlt. rewrite Hlen in Hlt.
  destruct (get_ok_reachable _ t0 c Hr 0%nat m (S (length units + j)) j)
    as (u & tu & Hu & Htu & Hret).
  - rewrite Hpool. reflexivity.
  - rewrite length_Scheduler_run in Hdone by exact Hmode. lia.
  - rewrite Hb. apply concurrent_lookup_get; assumption.
  - rewrite Hf, lookup_seq_lt in Hu by lia. injection Hu as <-.
    rewrite Hpool in Htu. simpl in Htu. rewrite Hj in Htu. injection Htu as <-.
    exact Hret.
Qed.

Lemma locks_taken_main (mode : ExecutionMode) (units : list WorkUnit) (m : thread) :
  body m = Scheduler_run mode units -> locks_taken m = 0%nat.
Proof.
  intros Hb. unfold locks_taken. rewrite Hb, filter_none; [reflexivity|].
  intros i x Hi Hx. apply list_elem_of_lookup_2, elem_of_take in Hi.
  destruct Hi as (k & Hk & _). apply list_elem_of_lookup_2 in Hk.
  pose proof (proj1 (list.Forall_forall _ _) (Scheduler_run_no_guard mode units) x Hk).
  destruct x; discriminate.
Qed.

Lemma locks_taken_unit (mode : ExecutionMode) (u : WorkUnit) (w : thread) :
  body w = execute mode u ->
  (locks_taken w <= 1)%nat /\
  ((length (body w) <= pc w)%nat -> mode = ConcurrentSynchronized ->
   locks_taken w = 1%nat).
Proof.
  intros Hb. unfold locks_taken. rewrite Hb. split.
  - generalize (pc w). intros k.
    destruct mode; simpl; do 8 (destruct k as [|k]; [simpl; lia|]); simpl; lia.
  - intros Hlen ->. rewrite take_ge by exact Hlen. reflexivity.
Qed.

Lemma sum_list_bound (f : thread -> nat) (ws : list thread) :
  (forall j w, ws !! j = Some w -> (f w <= 1)%nat) ->
  (sum_list (f <$> ws) <= length ws)%nat.
Proof.
  induction ws as [|a ws IH]; intros H; csimpl; [lia|].
  pose proof (H 0%nat a eq_refl).
  specialize (IH (fun j w Hj => H (S j) w Hj)). lia.
Qed.

Lemma sum_list_ones (f : thread -> nat) (ws : list thread) :
  (forall j w, ws !! j = Some w -> f w = 1%nat) ->
  sum_list (f <$> ws) = length ws.
Proof.
  induction ws as [|a ws IH]; intros H; csimpl; [lia|].
  pose proof (H 0%nat a eq_refl).
  specialize (IH (fun j w Hj => H (S j) w Hj)). lia.
Qed.

Lemma acquisitions_bounded (mode : ExecutionMode) (units : list WorkUnit) (t0 : Z)
      (c : config) :
  reachable (boot (Scheduler_run mode units) t0) c ->
  (acquired c <= length units)%nat.
Proof.
  intros Hr. rewrite (acquired_ok_reachable _ t0 c Hr).
  destruct (shape_reachable _ t0 (flat_Scheduler_run mode units) c Hr)
    as (m & ws & Hpool & Hb & Hf & Hws).
  rewrite Hpool. csimpl. rewrite (locks_taken_main mode units m Hb). simpl.
  assert (Hmode : mode = Sequential \/ mode <> Sequential)
    by (destruct mode; auto; right; discriminate).
  destruct Hmode as [-> | Hmode].
  - destruct (sequential_alone units t0 c Hr) as (m' & Hpool' & _).
    rewrite Hpool in Hpool'. injection Hpool' as _ ->. simpl. lia.
  - etransitivity; [apply sum_list_bound|].
    + intros j w Hj.
      destruct (worker_executes mode units t0 c j w Hmode Hr
                  ltac:(rewrite Hpool; exact Hj)) as (u & _ & Hbw).
      apply (locks_taken_unit mode u w Hbw).
    + rewrite <- (length_fmap body ws), Hws.
      assert (Hsub : (length (spawned (take (pc m) (Scheduler_run mode units)))
                      <= length (spawned (Scheduler_run mode units)))%nat).
      { rewrite <- (take_drop (pc m) (Scheduler_run mode units)) at 2.
        rewrite spawned_app, length_app. lia. }
      rewrite spawned_Scheduler_run in Hsub.
      destruct mode; [done| |]; rewrite length_fmap in Hsub; exact Hsub.
Qed.

Lemma acquisitions_when_done (units : list WorkUnit) (t0 : Z) (c : config) :
  reachable (boot (Scheduler_run ConcurrentSynchronized units) t0) c ->
  main_done c = true ->
  acquired c = length units.
Proof.
  intros Hr Hdone. rewrite (acquired_ok_reachable _ t0 c Hr).
  destruct (all_returned ConcurrentSynchronized units t0 c ltac:(discriminate) Hr Hdone)
    as (m & ws & Hpool & Hb & Hws & Hret).
  rewrite Hpool. csimpl. rewrite (locks_taken_main _ units m Hb). simpl.
  rewrite sum_list_ones.
  - rewrite <- (length_fmap body ws), Hws, length_fmap. reflexivity.
  - intros j w Hj.
    destruct (worker_executes ConcurrentSynchronized units t0 c j w
                ltac:(discriminate) Hr ltac:(rewrite Hpool; exact Hj)) as (u & _ & Hbw).
    apply (locks_taken_unit _ u w Hbw); [|reflexivity].
    specialize (Hret j w Hj). unfold returned in Hret.
    rewrite !andb_true_iff, !bool_decide_eq_true in Hret. tauto.
Qed.

(** ** The exits of the guarded scope *)

(** What the next step of the owner of the mutex does to the mutex: an
    exception releases it; the closing brace releases it; the two statements
    of the start write keep it and leave the owner one statement further. *)
Lemma holder_step (mode : ExecutionMode) (units : list WorkUnit) (t0 : Z)
      (c : config) (t : nat) :
  reachable (boot (Scheduler_run mode units) t0) c ->
  may_run c = true ->
  mutex c = Some t ->
  mutex (step (Fault t) c) = None /\
  exists th, pool c !! t = Some th /\ (1 <= pc th <= 3)%nat /\
    if decide (pc th = 3%nat) then mutex (step (Run t) c) = None
    else mutex (step (Run t) c) = Some t /\
         may_run (step (Run t) c) = true /\
         exists th', pool (step (Run t) c) !! t = Some th' /\ pc th' = S (pc th).
Proof.
  intros Hr Hmay Hm.
  destruct (guard_holder_runs mode units t0 c t Hr Hmay Hm)
    as (j & th & u & i & -> & Hth & Hu & Hb & Hnf & Hpc & Hready & Hi).
  unfold step, act. rewrite Hmay, Hth, Hready. split.
  - rewrite mutex_raise_in, bool_decide_eq_true_2 by exact Hm. reflexivity.
  - exists th. split; [reflexivity|]. split; [exact Hpc|].
    rewrite Hb in Hi.
    assert (Hcases : pc th = 1%nat \/ pc th = 2%nat \/ pc th = 3%nat) by lia.
    destruct Hcases as [Hp | [Hp | Hp]]; rewrite Hp in Hi |- *;
      injection Hi as <-; simpl rethrows; cbv iota.
    + destruct (decide (1 = 3)%nat); [lia|].
      rewrite mutex_exec_instr. split; [exact Hm|]. split.
      * unfold may_run in *. rewrite proc_exec_instr. exact Hmay.
      * eexists. split; [apply lookup_exec_instr_self; exact Hth|].
        rewrite pc_local_step, Hp. reflexivity.
    + destruct (decide (2 = 3)%nat); [lia|].
      rewrite mutex_exec_instr. split; [exact Hm|]. split.
      * unfold may_run in *. rewrite proc_exec_instr. exact Hmay.
      * eexists. split; [apply lookup_exec_instr_self; exact Hth|].
        rewrite pc_local_step, Hp. reflexivity.
    + destruct (decide (3 = 3)%nat); [|lia].
      rewrite mutex_exec_instr. reflexivity.
Qed.

(** Left to run, the owner releases the mutex within three statements. *)
Lemma holder_releases (mode : ExecutionMode) (units : list WorkUnit) (t0 : Z)
      (c : config) (t : nat) :
  reachable (boot (Scheduler_run mode units) t0) c ->
  may_run c = true ->
  mutex c = Some t ->
  exists th, pool c !! t = Some th /\
    mutex (exec (replicate (4 - pc th) (Run t)) c) = None.
Proof.
  intros Hr Hmay Hm.
  destruct (holder_step mode units t0 c t Hr Hmay Hm) as (_ & th & Hth & Hpc & Hs).
  exists th. split; [exact Hth|].
  remember (3 - pc th)%nat as k eqn:Hk.
  revert c th Hr Hmay Hm Hth Hpc Hs Hk.
  induction k as [|k IH]; intros c th Hr Hmay Hm Hth Hpc Hs Hk.
  - replace (4 - pc th)%nat with 1%nat by lia. simpl.
    destruct (decide (pc th = 3%nat)); [exact Hs | lia].
  - destruct (decide (pc th = 3%nat)) as [|_]; [lia|].
    destruct Hs as (Hm' & Hmay' & th' & Hth' & Hpc').
    replace (4 - pc th)%nat with (S (4 - pc th'))%nat by lia. simpl.
    assert (Hr' : reachable (boot (Scheduler_run mode units) t0) (step (Run t) c))
      by (apply reachable_step; exact Hr).
    destruct (holder_step mode units t0 _ t Hr' Hmay' Hm') as (_ & th2 & Hth2 & Hpc2 & Hs2).
    rewrite Hth' in Hth2. injection Hth2 as <-.
    apply (IH _ th' Hr' Hmay' Hm' Hth' Hpc2 Hs2). lia.
Qed.

(** ** The guard of the synchronized mode *)

(** C4. In the synchronized mode [execute] constructs the [lock_guard]
    immediately before the start write and closes its scope immediately
    after it, before [sleep_for]; and under every schedule the thread of a
    unit owns the mutex exactly between these two statements: a thread that
    sleeps does not own it, and a thread that reached [sleep_for] or the
    finish write does not own it. *)
Theorem C4_guard_only_around_start_write :
  (forall u,
     execute ConcurrentSynchronized u =
     [LockGuard] ++ console_write (start_message u) ++ [EndScope] ++
     [SleepFor (durationMillis u)] ++ console_write (finish_message u)) /\
  (forall units t0 c j w,
     reachable (boot (Scheduler_run ConcurrentSynchronized units) t0) c ->
     pool c !! S j = Some w ->
     (exists u, units !! j = Some u /\ body w = execute ConcurrentSynchronized u) /\
     (mutex c = Some (S j) <-> failed w = false /\ (1 <= pc w <= 3)%nat) /\
     (now c < wake w -> pc w = 5%nat /\ mutex c <> Some (S j)) /\
     ((4 <= pc w)%nat -> mutex c <> Some (S j))).
Proof.
  split; [reflexivity|].
  intros units t0 c j w Hr Hw.
  destruct (unit_scope ConcurrentSynchronized units t0 c j w ltac:(discriminate) Hr Hw)
    as [Hs Hsleep].
  assert (Hscope : mutex c = Some (S j) <-> failed w = false /\ (1 <= pc w <= 3)%nat).
  { rewrite Hs. unfold in_scope. rewrite andb_true_iff, !Nat.leb_le. tauto. }
  split; [|split; [exact Hscope|split]].
  - apply (worker_executes ConcurrentSynchronized units t0 c j w);
      [discriminate | exact Hr | exact Hw].
  - intros Hlt. specialize (Hsleep Hlt). simpl in Hsleep.
    split; [exact Hsleep|]. intros Hm. apply Hscope in Hm. lia.
  - intros Hpc Hm. apply Hscope in Hm. lia.
Qed.

(** C4 at the thread of the coffee in the program of the sources, asleep
    after its start write. *)
Lemma C4_guard_only_around_start_write_witness :
  exists w,
    pool (exec [Run 0; Run 0; Run 1; Run 1; Run 1; Run 1; Run 1]%nat
               (boot Program_03_async_cout_mutex.Run 0)) !! 1%nat = Some w /\
    now (exec [Run 0; Run 0; Run 1; Run 1; Run 1; Run 1; Run 1]%nat
              (boot Program_03_async_cout_mutex.Run 0)) < wake w /\
    mutex (exec [Run 0; Run 0; Run 1; Run 1; Run 1; Run 1; Run 1]%nat
                (boot Program_03_async_cout_mutex.Run 0)) <> Some 1%nat.
Proof.
  eexists. split; [reflexivity|]. split; [reflexivity|].
  refine (proj2 (proj1 (proj2 (proj2
    (proj2 C4_guard_only_around_start_write workload 0 _ 0%nat _ _ _))) _)).
  - exists [Run 0; Run 0; Run 1; Run 1; Run 1; Run 1; Run 1]%nat. reflexivity.
  - reflexivity.
  - reflexivity.
Defined.

(** C5. At most one execution context holds the guard, in every state of
    every program; the owner of the mutex is always able to run, an
    exception thrown inside the guarded scope releases the mutex, and so
    does the closing brace, which the owner reaches within three
    statements; and a run of the synchronized mode over N units acquires
    the mutex at most N times, exactly N times once main has joined them
    all. *)
Theorem C5_guard_mutual_exclusion :
  (forall B t0 c, reachable (boot B t0) c -> (holders c <= 1)%nat) /\
  (forall mode units t0 c t,
     reachable (boot (Scheduler_run mode units) t0) c ->
     may_run c = true ->
     mutex c = Some t ->
     exists th i,
       pool c !! t = Some th /\ ready c t th = Some i /\
       mutex (step (Fault t) c) = None /\
       mutex (exec (replicate (4 - pc th) (Run t)) c) = None) /\
  (forall units t0 c,
     reachable (boot (Scheduler_run ConcurrentSynchronized units) t0) c ->
     (acquired c <= length units)%nat /\
     (main_done c = true -> acquired c = length units)).
Proof.
  split; [|split].
  - intros B t0 c Hr. exact (holders_at_most_one B t0 c Hr).
  - intros mode units t0 c t Hr Hmay Hm.
    destruct (guard_holder_runs mode units t0 c t Hr Hmay Hm)
      as (j & th & u & i & _ & Hth & _ & _ & _ & _ & Hready & _).
    destruct (holder_step mode units t0 c t Hr Hmay Hm) as (Hf & _).
    destruct (holder_releases mode units t0 c t Hr Hmay Hm) as (th' & Hth' & Hrel).
    rewrite Hth in Hth'. injection Hth' as <-.
    exists th, i. auto.
  - intros units t0 c Hr. split.
    + exact (acquisitions_bounded _ units t0 c Hr).
    + exact (acquisitions_when_done units t0 c Hr).
Qed.

(** C5 at the end of a run of the program of the sources: two units, two
    acquisitions. *)
Lemma C5_guard_mutual_exclusion_witness :
  main_done (exec smooth_synchronized (boot Program_03_async_cout_mutex.Run 0)) = true /\
  acquired (exec smooth_synchronized (boot Program_03_async_cout_mutex.Run 0)) = 2%nat.
Proof.
  split; [reflexivity|].
  refine (proj2 (proj2 (proj2 C5_guard_mutual_exclusion) workload 0 _ _) _).
  - exists smooth_synchronized. reflexivity.
  - reflexivity.
Defined.

(** ** The number of seconds reported *)

Lemma report_written (mode : ExecutionMode) (units : list WorkUnit) (t0 : Z)
      (c : config) :
  reachable (boot (Scheduler_run mode units) t0) c ->
  main_done c = true ->
  exists before,
    written_by 0 (out c) =
    before ++ [ "Total time = "; string_of_Z (duration_cast_seconds (elapsed c));
                " seconds"; newline ].
Proof.
  intros Hr Hdone.
  unfold main_done, elapsed in *.
  destruct (pool c !! 0%nat) as [m|] eqn:Hm; [|discriminate].
  apply bool_decide_eq_true in Hdone.
  rewrite (written_ok_reachable _ t0 (flat_Scheduler_run mode units)
             (tidy_Scheduler_run mode units)
             (workers_tidy_Scheduler_run mode units) c Hr 0%nat m Hm).
  rewrite take_ge by exact Hdone.
  rewrite (main_body _ t0 (flat_Scheduler_run mode units) c m Hr Hm).
  unfold Scheduler_run. rewrite !pieces_app.
  eexists. rewrite !app_assoc. reflexivity.
Qed.

(** C9. The count inserted after "Total time = " is the elapsed time cast
    to seconds, and the cast truncates toward zero: for an elapsed time that
    is not negative it is the floor of the milliseconds divided by 1000, the
    remainder is dropped, and 5999 ms are reported as 5 seconds. *)
Theorem C9_seconds_truncated :
  (forall ticks,
     duration_cast_seconds (- ticks) = - duration_cast_seconds ticks /\
     (0 <= ticks ->
      duration_cast_seconds ticks = duration_cast_milliseconds ticks / 1000 /\
      duration_cast_seconds ticks * 1000000000 <= ticks
        < (duration_cast_seconds ticks + 1) * 1000000000)) /\
  (duration_cast_seconds (milliseconds 5999) = 5 /\
   elapsed (exec slow_sequential (boot Program_01_async.Run 0)) = milliseconds 5999 /\
   console_text (exec slow_sequential (boot Program_01_async.Run 0)) =
     unlines [ "Creating coffee..."; "Created coffee!";
               "Creating toast..."; "Created toast!"; "Total time = 5 seconds" ]) /\
  (forall mode units t0 sched,
     main_done (exec sched (boot (Scheduler_run mode units) t0)) = true ->
     exists before,
       written_by 0 (out (exec sched (boot (Scheduler_run mode units) t0))) =
       before ++
       [ "Total time = ";
         string_of_Z (duration_cast_seconds
                        (elapsed (exec sched (boot (Scheduler_run mode units) t0))));
         " seconds"; newline ]).
Proof.
  split; [|split].
  - intros ticks. unfold duration_cast_seconds, duration_cast_milliseconds. split.
    + apply Z.quot_opp_l. lia.
    + intros Hpos. rewrite !Z.quot_div_nonneg by lia. split.
      * rewrite Z.div_div by lia. reflexivity.
      * pose proof (Z.div_mod ticks 1000000000 ltac:(lia)).
        pose proof (Z.mod_pos_bound ticks 1000000000 ltac:(lia)). lia.
  - repeat split; vm_compute; reflexivity.
  - intros mode units t0 sched Hdone.
    apply (report_written mode units t0); [exists sched; reflexivity | exact Hdone].
Qed.

(** C9 at the sequential program of the sources, run with 999 ms lost. *)
Lemma C9_seconds_truncated_witness :
  exists before,
    written_by 0 (out (exec slow_sequential (boot Program_01_async.Run 0))) =
    before ++
    [ "Total time = ";
      string_of_Z (duration_cast_seconds
                     (elapsed (exec slow_sequential (boot Program_01_async.Run 0))));
      " seconds"; newline ].
Proof.
  apply (proj2 (proj2 C9_seconds_truncated) Sequential workload 0 slow_sequential).
  reflexivity.
Defined.

(** ** Exit, abort and exceptions, for every program *)

Lemma exit_ok_reachable (B : list instr) (t0 : Z) (c : config) :
  reachable (boot B t0) c -> exit_ok c.
Proof.
  apply invariant.
  - intros n Hn. discriminate.
  - intros c1 c2 _ IH Htr n Hn.
    destruct Htr as [t th i Ht Hr Hre | t th i Ht Hr | w He Hs Hn' | dt He Hdt].
    + apply ready_inv in Hr as (Hmay & _ & _ & Hi & _).
      rewrite proc_exec_instr in Hn.
      destruct i; try (unfold may_run in Hmay; rewrite Hn in Hmay; discriminate).
      injection Hn as ->.
      exists t, (local_step c1 th (ReturnMain n)), (pc th).
      split; [apply lookup_exec_instr_self; exact Ht|].
      rewrite pc_local_step, body_local_step. split; [lia | exact Hi].
    + apply ready_inv in Hr as (Hmay & _).
      rewrite proc_raise_in in Hn. unfold may_run in Hmay.
      destruct t; [discriminate|]. rewrite Hn in Hmay. discriminate.
    + unfold exit_code in He. cfg. rewrite Hn in He. discriminate.
    + unfold exit_code in He. cfg. rewrite Hn in He. discriminate.
Qed.

Lemma abort_ok_reachable (B : list instr) (t0 : Z) (c : config) :
  reachable (boot B t0) c -> abort_ok c.
Proof.
  apply invariant.
  - split; [discriminate|]. intros m Hm Hf. cfg. simpl in Hm.
    injection Hm as <-. discriminate.
  - intros c1 c2 _ [IH1 IH2] Htr.
    destruct Htr as [t th i Ht Hr Hre | t th i Ht Hr | w He Hs Hn | dt He Hdt];
      try (split; cfg; assumption).
    + apply ready_inv in Hr as (_ & Hnf & _). split.
      * rewrite proc_exec_instr. intros Hp.
        assert (Hp1 : proc c1 = Aborted) by (destruct i; try discriminate; exact Hp).
        destruct (IH1 Hp1) as (m & Hm & Hf). exists m. split; [|exact Hf].
        apply lookup_exec_instr_other; [|exact Hm].
        intros <-. rewrite Hm in Ht. injection Ht as ->. congruence.
      * intros m Hm Hf. rewrite proc_exec_instr.
        pose proof (lookup_lt_Some _ _ _ Ht) as Hlt.
        destruct (lookup_exec_instr _ _ _ _ _ _ Ht Hm)
          as [[<- ->] | [[Hne Hold] | [Hlen _]]].
        -- rewrite failed_local_step in Hf. congruence.
        -- specialize (IH2 m Hold Hf). destruct i; try exact IH2. discriminate.
        -- lia.
    + apply ready_inv in Hr as (_ & Hnf & _). split.
      * rewrite proc_raise_in, pool_raise_in. intros Hp.
        pose proof (lookup_lt_Some _ _ _ Ht) as Hlt.
        destruct t as [|t].
        -- exists (fail th). rewrite list_lookup_insert_eq by exact Hlt. done.
        -- destruct (IH1 Hp) as (m & Hm & Hf). exists m.
           rewrite list_lookup_insert_ne by discriminate. done.
      * intros m Hm Hf. rewrite proc_raise_in. destruct t as [|t]; [discriminate|].
        rewrite pool_raise_in, list_lookup_insert_ne in Hm by discriminate.
        exact (IH2 m Hm Hf).
Qed.



(** Nothing throws unless the schedule makes a statement throw. *)
Lemma no_fault_healthy (B : list instr) (t0 : Z) (sched : list choice) :
  has_fault sched = false -> healthy (exec sched (boot B t0)).
Proof.
  induction sched as [|ch sched IH] using rev_ind; intros Hs.
  - intros t th Ht. destruct t; simpl in Ht; [|done]. injection Ht as <-. reflexivity.
  - unfold has_fault in Hs. rewrite existsb_app in Hs. simpl in Hs.
    apply orb_false_iff in Hs as [Hs Hch].
    specialize (IH Hs). rewrite exec_snoc.
    set (c := exec sched (boot B t0)) in *.
    unfold step. destruct (may_run c); [|exact IH].
    destruct ch as [t|t| |dt]; simpl in *; try discriminate.
    + destruct (pool c !! t) as [th|] eqn:Ht; [|exact IH].
      destruct (ready c t th) as [i|] eqn:Hr; [|exact IH].
      destruct (rethrows c th i) eqn:Hre.
      * exfalso. unfold rethrows in Hre. destruct i; try discriminate.
        destruct (futures th !! f) as [u|]; [|discriminate].
        destruct (pool c !! u) as [tu|] eqn:Hu; [|discriminate].
        rewrite (IH _ _ Hu) in Hre. discriminate.
      * intros t' th' Ht'.
        destruct (lookup_exec_instr _ _ _ _ _ _ Ht Ht')
          as [[-> ->] | [[Hne Hold] | [-> (code & -> & ->)]]].
        -- rewrite failed_local_step. exact (IH _ _ Ht).
        -- exact (IH _ _ Hold).
        -- reflexivity.
    + destruct (some_ready c); [exact IH|].
      destruct (next_wake c); [|exact IH]. intros t' th' Ht'. exact (IH _ _ Ht').
    + intros t' th' Ht'. exact (IH _ _ Ht').
Qed.

Lemma no_fault_no_abort (B : list instr) (t0 : Z) (sched : list choice) :
  has_fault sched = false -> proc (exec sched (boot B t0)) <> Aborted.
Proof.
  intros Hs Hp.
  destruct (abort_ok_reachable B t0 _ ltac:(exists sched; reflexivity)) as [H1 _].
  destruct (H1 Hp) as (m & Hm & Hf).
  rewrite (no_fault_healthy B t0 sched Hs _ _ Hm) in Hf. discriminate.
Qed.

(** ** A program that begins with a console line *)

Lemma begins_with_reachable (s : string) (code : list instr) (t0 : Z) (c : config) :
  reachable (boot (Insert s :: Endl :: code) t0) c -> begins_with s c.
Proof.
  set (B := Insert s :: Endl :: code). intros Hr.
  cut (begins_with s c /\ forall m, pool c !! 0%nat = Some m -> body m = B); [tauto|].
  revert c Hr. apply invariant.
  - split.
    + exists (spawn B t0). split; [reflexivity|]. cfg. auto.
    + intros m Hm. simpl in Hm. injection Hm as <-. reflexivity.
  - intros c1 c2 _ [(m & Hm & Hb) Hbody] Htr.
    pose proof (Hbody m Hm) as HB.
    destruct Htr as [t th i Ht Hr Hre | t th i Ht Hr | w He Hs Hn | dt He Hdt];
      try (split; [exists m; split; [exact Hm | exact Hb] | exact Hbody]).
    + apply ready_inv in Hr as (_ & _ & _ & Hi & _).
      pose proof (lookup_lt_Some _ _ _ Ht) as Hlt.
      split.
      * destruct (decide (t = 0%nat)) as [-> | Hne].
        -- rewrite Hm in Ht. injection Ht as <-.
           exists (local_step c1 m i).
           split; [apply lookup_exec_instr_self; exact Hm|].
           rewrite pc_local_step, out_exec_instr, pool_exec_instr.
           rewrite HB in Hi.
           destruct (pc m) as [|[|k]].
           ++ simpl in Hi. injection Hi as <-. destruct Hb as [-> Hlen]. simpl.
              rewrite length_app, length_insert. simpl. split; [reflexivity | lia].
           ++ simpl in Hi. injection Hi as <-. destruct Hb as [-> Hlen]. simpl. eauto.
           ++ destruct Hb as [r ->]. simpl. eauto.
        -- exists m. split; [apply lookup_exec_instr_other; auto|].
           destruct (pc m) as [|[|k]].
           ++ destruct Hb as [_ Hlen]. lia.
           ++ destruct Hb as [_ Hlen]. lia.
           ++ destruct Hb as [r Hout]. rewrite out_exec_instr, Hout. simpl. eauto.
      * intros m' Hm'.
        destruct (lookup_exec_instr _ _ _ _ _ _ Ht Hm')
          as [[<- ->] | [[Hne Hold] | [Hlen _]]].
        -- rewrite body_local_step. rewrite Hm in Ht. injection Ht as <-. exact HB.
        -- auto.
        -- lia.
    + pose proof (lookup_lt_Some _ _ _ Ht) as Hlt.
      split.
      * destruct (decide (t = 0%nat)) as [-> | Hne].
        -- rewrite Hm in Ht. injection Ht as <-.
           exists (fail m). rewrite pool_raise_in, out_raise_in, length_insert.
           split; [apply list_lookup_insert_eq; exact Hlt | exact Hb].
        -- exists m. rewrite pool_raise_in, out_raise_in, length_insert.
           split; [rewrite list_lookup_insert_ne by auto; exact Hm | exact Hb].
      * intros m' Hm'.
        destruct (lookup_raise_in _ _ _ _ _ Hm') as [[<- ->] | [Hne Hold]].
        -- rewrite Hm in Ht. injection Ht as <-. exact HB.
        -- auto.
Qed.

(** ** Console writes around the work *)

Lemma text_plain (i : instr) :
  is_text i = true ->
  is_clock i = false /\ is_count i = false /\ async_body i = None /\
  is_return i = false /\ is_lock i = false /\ is_sleep i = false.
Proof. destruct i; try discriminate; repeat split. Qed.

Lemma spawned_none (code : list instr) :
  Forall (fun i => async_body i = None) code -> spawned code = [].
Proof.
  induction 1 as [|i code Hi _ IH]; [reflexivity|].
  unfold spawned in *. csimpl. rewrite Hi, IH. reflexivity.
Qed.

Lemma spawned_take_nil (code : list instr) (k : nat) :
  spawned code = [] -> spawned (take k code) = [].
Proof.
  intros Hnil. destruct (spawned (take k code)) as [|b l] eqn:Hs; [reflexivity|].
  assert (Hin : b ∈ spawned (take k code)) by (rewrite Hs; left).
  apply spawned_take in Hin. rewrite Hnil in Hin. inversion Hin.
Qed.

Section Wrap.

Variables pre work post : list instr.
Hypothesis pre_text : Forall (fun i => is_text i = true) pre.
Hypothesis post_plain : Forall (fun i => is_clock i = false /\ async_body i = None) post.

Lemma spawned_wrap : spawned (pre ++ work ++ post) = spawned work.
Proof.
  rewrite !spawned_app.
  rewrite (spawned_none pre), (spawned_none post), app_nil_r; [reflexivity | |].
  - eapply list.Forall_impl; [exact post_plain|]. intros i [_ H]. exact H.
  - eapply list.Forall_impl; [exact pre_text|]. intros i H. apply text_plain in H. tauto.
Qed.

Lemma flat_wrap : flat work -> flat (pre ++ work ++ post).
Proof. unfold flat. rewrite spawned_wrap. auto. Qed.

Lemma workers_tidy_wrap :
  Forall tidy (spawned work) -> Forall tidy (spawned (pre ++ work ++ post)).
Proof. rewrite spawned_wrap. auto. Qed.

Lemma tidy_wrap : tidy work -> tidy (pre ++ work ++ post).
Proof.
  intros Hw k i Hi Hc.
  apply lookup_app_Some in Hi as [Hi | [Hle Hi]].
  - apply list_elem_of_lookup_2 in Hi.
    apply (proj1 (list.Forall_forall _ _) pre_text), text_plain in Hi.
    destruct Hi as [Hi _]. congruence.
  - apply lookup_app_Some in Hi as [Hi | [Hle' Hi]].
    + pose proof (lookup_lt_Some _ _ _ Hi) as Hlt.
      rewrite take_app_ge by exact Hle.
      rewrite take_app_le by lia.
      apply Forall_app. split.
      * eapply list.Forall_impl; [exact pre_text|]. intros j H. apply text_plain in H. tauto.
      * exact (Hw _ _ Hi Hc).
    + apply list_elem_of_lookup_2 in Hi.
      apply (proj1 (list.Forall_forall _ _) post_plain) in Hi.
      destruct Hi as [Hi _]. congruence.
Qed.

End Wrap.

(** ** The [main] functions *)

Lemma main_code (programId : Z) :
  main programId =
  console_write (banner programId) ++ work_of (mode_of_id programId) ++ [ReturnMain 0].
Proof.
  destruct programId as [|p|p]; try reflexivity.
  destruct p as [[p|p|]|[p|p|]|]; reflexivity.
Qed.

Lemma mode_of_id_other (programId : Z) :
  programId <> 1 -> programId <> 2 -> programId <> 3 -> mode_of_id programId = None.
Proof.
  intros H1 H2 H3. destruct programId as [|p|p]; try reflexivity.
  destruct p as [[p|p|]|[p|p|]|]; try reflexivity; lia.
Qed.

Lemma Program_main_code :
  Program.main = [] ++ work_of (Some ConcurrentUnsynchronized) ++ [ReturnMain 0].
Proof. reflexivity. Qed.

Lemma flat_work_of (m : option ExecutionMode) : flat (work_of m).
Proof. destruct m as [mode|]; [apply flat_Scheduler_run | constructor]. Qed.

Lemma tidy_work_of (m : option ExecutionMode) : tidy (work_of m).
Proof.
  destruct m as [mode|]; [apply tidy_Scheduler_run | apply tidy_no_clock; constructor].
Qed.

Lemma workers_tidy_work_of (m : option ExecutionMode) : Forall tidy (spawned (work_of m)).
Proof. destruct m as [mode|]; [apply workers_tidy_Scheduler_run | constructor]. Qed.

Lemma work_of_no_return (m : option ExecutionMode) :
  Forall (fun i => is_return i = false) (work_of m).
Proof. destruct m as [[]|]; repeat constructor. Qed.

Lemma workers_no_return (m : option ExecutionMode) :
  Forall (Forall (fun i => is_return i = false)) (spawned (work_of m)).
Proof. destruct m as [[]|]; repeat constructor. Qed.

Lemma return_plain : Forall (fun i => is_clock i = false /\ async_body i = None) [ReturnMain 0].
Proof. repeat constructor. Qed.

Lemma banner_text (programId : Z) :
  Forall (fun i => is_text i = true) (console_write (banner programId)).
Proof. repeat constructor. Qed.

Section Entry.

Variable pre : list instr.
Variable m : option ExecutionMode.
Variable t0 : Z.
Hypothesis pre_text : Forall (fun i => is_text i = true) pre.

Let E : list instr := pre ++ work_of m ++ [ReturnMain 0].

Lemma flat_entry : flat E.
Proof. apply flat_wrap; [exact pre_text | exact return_plain | apply flat_work_of]. Qed.

Lemma tidy_entry : tidy E.
Proof. apply tidy_wrap; [exact pre_text | exact return_plain | apply tidy_work_of]. Qed.

Lemma workers_tidy_entry : Forall tidy (spawned E).
Proof.
  apply workers_tidy_wrap;
    [exact pre_text | exact return_plain | apply workers_tidy_work_of].
Qed.

(** The one [return] of the program is its last statement, and returns 0. *)
Lemma return_position (k : nat) (n : Z) :
  E !! k = Some (ReturnMain n) ->
  n = 0 /\ S k = length E.
Proof.
  unfold E. intros Hk. rewrite !length_app. simpl.
  apply lookup_app_Some in Hk as [Hk | [Hle Hk]].
  - apply list_elem_of_lookup_2 in Hk.
    apply (proj1 (list.Forall_forall _ _) pre_text), text_plain in Hk.
    simpl in Hk. destruct Hk as (_ & _ & _ & Hk & _). discriminate.
  - apply lookup_app_Some in Hk as [Hk | [Hle' Hk]].
    + apply list_elem_of_lookup_2 in Hk.
      apply (proj1 (list.Forall_forall _ _) (work_of_no_return m)) in Hk. discriminate.
    + destruct (k - length pre - length (work_of m))%nat as [|k'] eqn:Hk'; [|done].
      simpl in Hk. injection Hk as <-. split; [reflexivity | lia].
Qed.

(** The process exits only with code 0, and only when main has executed
    all of its statements. *)
Lemma entry_exit (c : config) (n : Z) :
  reachable (boot E t0) c ->
  exit_code c = Some n ->
  n = 0 /\ main_done c = true.
Proof.
  intros Hr He. unfold exit_code in He.
  destruct (proc c) as [|code|] eqn:Hp; try discriminate. injection He as ->.
  destruct (exit_ok_reachable E t0 c Hr n Hp) as (t & th & k & Ht & Hk & Hret).
  destruct t as [|j].
  - pose proof (main_body E t0 flat_entry c th Hr Ht) as Hb.
    rewrite Hb in Hret. apply return_position in Hret as [-> Hlen].
    split; [reflexivity|]. unfold main_done. rewrite Ht, Hb.
    apply bool_decide_eq_true_2. lia.
  - exfalso.
    pose proof (worker_body_in E t0 flat_entry c j th Hr Ht) as Hin.
    unfold E in Hin. rewrite (spawned_wrap _ _ _ pre_text return_plain) in Hin.
    apply (proj1 (list.Forall_forall _ _) (workers_no_return m)) in Hin.
    apply list_elem_of_lookup_2 in Hret.
    apply (proj1 (list.Forall_forall _ _) Hin) in Hret. discriminate.
Qed.

End Entry.

(** ** The same run, started later *)

Lemma later_lookup (d : Z) (c c' : config) (t : nat) :
  later d c c' ->
  match pool c !! t, pool c' !! t with
  | Some th, Some th' => later_thread d th th'
  | None, None => True
  | _, _ => False
  end.
Proof.
  intros (_ & Hp & _). revert t.
  induction Hp as [|th th' l l' Hth _ IH]; intros [|t]; simpl; auto.
  apply IH.
Qed.

Lemma later_finished (d : Z) (c c' : config) (th th' : thread) :
  later d c c' -> later_thread d th th' -> finished c' th' = finished c th.
Proof.
  intros (Hnow & _) (Hb & Hpc & Hw & _ & Hf).
  unfold finished, returned. rewrite Hb, Hpc, Hf, Hw, Hnow.
  f_equal. f_equal. apply bool_decide_ext. lia.
Qed.

Lemma later_ready (d : Z) (c c' : config) (t : nat) (th th' : thread) :
  later d c c' -> later_thread d th th' -> ready c' t th' = ready c t th.
Proof.
  intros Hl Hth.
  pose proof Hl as (Hnow & _ & Hm & _ & _ & Hproc).
  pose proof Hth as (Hb & Hpc & Hw & Hfu & Hf).
  unfold ready, may_run. rewrite Hproc, Hf, Hb, Hpc, Hm, Hfu, Hw, Hnow.
  rewrite (bool_decide_ext (wake th + d ≤ now c + d) (wake th ≤ now c)) by lia.
  destruct (body th !! pc th) as [[]|]; try reflexivity.
  destruct (futures th !! f) as [u|]; [|reflexivity].
  pose proof (later_lookup d c c' u Hl) as Hu.
  destruct (pool c !! u) as [tu|], (pool c' !! u) as [tu'|]; try done.
  rewrite (later_finished d c c' tu tu' Hl Hu). reflexivity.
Qed.

Lemma later_rethrows (d : Z) (c c' : config) (th th' : thread) (i : instr) :
  later d c c' -> later_thread d th th' -> rethrows c' th' i = rethrows c th i.
Proof.
  intros Hl (_ & _ & _ & Hfu & _). unfold rethrows. rewrite Hfu.
  destruct i; try reflexivity.
  destruct (futures th !! f) as [u|]; [|reflexivity].
  pose proof (later_lookup d c c' u Hl) as Hu.
  destruct (pool c !! u) as [tu|], (pool c' !! u) as [tu'|]; try done.
  destruct Hu as (_ & _ & _ & _ & Hf). exact Hf.
Qed.

Lemma later_local_step (d : Z) (c c' : config) (th th' : thread) (i : instr) :
  later d c c' -> later_thread d th th' ->
  later_thread d (local_step c th i) (local_step c' th' i).
Proof.
  intros (Hnow & Hp & _) (Hb & Hpc & Hw & Hfu & Hf).
  apply Forall2_length in Hp.
  destruct i; unfold later_thread, local_step; cfg; rewrite ?Hp; repeat split;
    try congruence; lia.
Qed.

Lemma later_exec_instr (d : Z) (c c' : config) (t : nat) (th th' : thread) (i : instr) :
  later d c c' -> later_thread d th th' ->
  later d (exec_instr c t th i) (exec_instr c' t th' i).
Proof.
  intros Hl Hth. pose proof (later_local_step d c c' th th' i Hl Hth) as Hls.
  destruct Hl as (Hnow & Hp & Hm & Ha & Hs & Hproc).
  unfold later.
  rewrite !now_exec_instr, !pool_exec_instr, !mutex_exec_instr,
          !acquired_exec_instr, !stalled_exec_instr, !proc_exec_instr.
  rewrite Hm, Ha, Hs, Hproc.
  repeat split; try congruence.
  apply Forall2_app; [apply Forall2_insert; assumption|].
  destruct i; try constructor; [|constructor].
  unfold later_thread. cfg. repeat split. lia.
Qed.

Lemma later_raise_in (d : Z) (c c' : config) (t : nat) (th th' : thread) :
  later d c c' -> later_thread d th th' ->
  later d (raise_in c t th) (raise_in c' t th').
Proof.
  intros (Hnow & Hp & Hm & Ha & Hs & Hproc) Hth.
  unfold later.
  rewrite !now_raise_in, !pool_raise_in, !mutex_raise_in,
          !acquired_raise_in, !stalled_raise_in, !proc_raise_in, Hm, Hproc.
  repeat split; try congruence.
  apply Forall2_insert; [assumption|].
  destruct Hth as (Hb & Hpc & Hw & Hfu & Hf). unfold later_thread. cfg. tauto.
Qed.

Lemma later_some_ready (d : Z) (c c' : config) :
  later d c c' -> some_ready c' = some_ready c.
Proof.
  intros Hl. pose proof Hl as (_ & Hp & _). unfold some_ready.
  generalize 0%nat. induction Hp as [|th th' l l' Hth _ IH]; intros t; [reflexivity|].
  simpl. rewrite (later_ready d c c' t th th' Hl Hth), IH. reflexivity.
Qed.

Lemma later_next_wake (d : Z) (c c' : config) :
  later d c c' -> next_wake c' = (fun w => w + d) <$> next_wake c.
Proof.
  intros (Hnow & Hp & _). unfold next_wake. rewrite Hnow.
  induction Hp as [|th th' l l' Hth _ IH]; [reflexivity|].
  simpl. rewrite IH. destruct Hth as (_ & _ & Hw & _). rewrite Hw.
  rewrite (bool_decide_ext (now c + d < wake th + d) (now c < wake th)) by lia.
  case_bool_decide; [|reflexivity].
  destruct (earliest_wake (now c) l) as [w|]; simpl; [|reflexivity].
  f_equal. lia.
Qed.

Lemma later_act (d : Z) (c c' : config) (ch : choice) :
  later d c c' -> later d (act ch c) (act ch c').
Proof.
  intros Hl. pose proof Hl as (Hnow & Hp & Hm & Ha & Hs & Hproc).
  destruct ch as [t|t| |dt]; simpl.
  - pose proof (later_lookup d c c' t Hl) as Ht.
    destruct (pool c !! t) as [th|], (pool c' !! t) as [th'|]; try done.
    rewrite (later_ready d c c' t th th' Hl Ht).
    destruct (ready c t th) as [i|]; [|exact Hl].
    rewrite (later_rethrows d c c' th th' i Hl Ht).
    destruct (rethrows c th i); [apply later_raise_in | apply later_exec_instr];
      assumption.
  - pose proof (later_lookup d c c' t Hl) as Ht.
    destruct (pool c !! t) as [th|], (pool c' !! t) as [th'|]; try done.
    rewrite (later_ready d c c' t th th' Hl Ht).
    destruct (ready c t th) as [i|]; [|exact Hl].
    apply later_raise_in; assumption.
  - rewrite (later_some_ready d c c' Hl), (later_next_wake d c c' Hl).
    destruct (some_ready c); [exact Hl|].
    destruct (next_wake c) as [w|]; simpl; [|exact Hl].
    unfold later. cfg. repeat split; auto.
  - unfold later. cfg. repeat split; auto; lia.
Qed.

Lemma later_step (d : Z) (c c' : config) (ch : choice) :
  later d c c' -> later d (step ch c) (step ch c').
Proof.
  intros Hl. pose proof Hl as (_ & _ & _ & _ & _ & Hproc).
  unfold step, may_run. rewrite Hproc.
  destruct (proc c); auto using later_act.
Qed.

Lemma later_exec (d : Z) (sched : list choice) (c c' : config) :
  later d c c' -> later d (exec sched c) (exec sched c').
Proof.
  revert c c'. induction sched as [|ch sched IH]; intros c c' Hl; [exact Hl|].
  simpl. apply IH, later_step, Hl.
Qed.

Lemma later_boot (B : list instr) (t0 : Z) : later t0 (boot B 0) (boot B t0).
Proof.
  unfold later. cfg. repeat split; auto.
  constructor; [|constructor]. unfold later_thread. cfg. repeat split.
Qed.

(** Whether and how a run exits does not depend on when it starts. *)
Lemma exit_code_any_start (B : list instr) (t0 : Z) (sched : list choice) :
  exit_code (exec sched (boot B t0)) = exit_code (exec sched (boot B 0)).
Proof.
  destruct (later_exec t0 sched _ _ (later_boot B t0)) as (_ & _ & _ & _ & _ & Hp).
  unfold exit_code. rewrite Hp. reflexivity.
Qed.

(** ** An unrecognized identifier *)

Lemma banner_ne (programId : Z) (u : WorkUnit) :
  banner programId <> start_message u /\
  banner programId <> finish_message u /\
  banner programId <> "Total time = " /\
  banner programId <> newline.
Proof.
  unfold banner, start_message, finish_message, newline.
  repeat split; intros H; text_differs H.
Qed.

Lemma noop_code (programId : Z) :
  mode_of_id programId = None ->
  main programId = [Insert (banner programId); Endl; ReturnMain 0].
Proof. intros H. rewrite main_code, H. reflexivity. Qed.

Lemma noop_alone (programId t0 : Z) (c : config) :
  mode_of_id programId = None ->
  reachable (boot (main programId) t0) c ->
  exists m, pool c = [m] /\ body m = main programId /\ (pc m <= 3)%nat /\
            console c = take (pc m) [banner programId; newline].
Proof.
  intros Hmode Hr. pose proof (noop_code programId Hmode) as Hcode.
  assert (Hflat : flat (main programId)) by (rewrite Hcode; constructor).
  destruct (shape_reachable _ t0 Hflat c Hr) as (m & ws & Hpool & Hb & _ & Hws).
  rewrite spawned_take_nil in Hws by (rewrite Hcode; reflexivity).
  apply fmap_nil_inv in Hws. subst ws.
  pose proof (pc_ok_reachable _ t0 c Hr 0%nat m ltac:(rewrite Hpool; reflexivity)) as Hpc.
  rewrite Hb, Hcode in Hpc. simpl in Hpc.
  exists m. repeat split; auto.
  unfold console. rewrite console_single.
  - rewrite (written_ok_reachable _ t0 Hflat
               ltac:(rewrite Hcode; apply tidy_no_clock; repeat constructor)
               ltac:(rewrite Hcode; constructor) c Hr 0%nat m)
      by (rewrite Hpool; reflexivity).
    rewrite Hb, Hcode.
    destruct (pc m) as [|[|[|[|k]]]]; reflexivity.
  - intros t s Hin. apply (out_ok_reachable _ t0 c Hr) in Hin.
    rewrite Hpool in Hin. simpl in Hin. lia.
Qed.

Lemma noop_time (programId t0 : Z) (c : config) :
  mode_of_id programId = None ->
  reachable (boot (main programId) t0) c ->
  now c = t0 + stalled c.
Proof.
  intros Hmode. revert c.
  apply (invariant _ (fun c => now c = t0 + stalled c)).
  - cfg. lia.
  - intros c1 c2 Hr IH Htr.
    destruct Htr as [t th i Ht Hre Hre' | t th i Ht Hre | w He Hs Hn | dt He Hdt].
    + rewrite now_exec_instr, stalled_exec_instr. exact IH.
    + rewrite now_raise_in, stalled_raise_in. exact IH.
    + exfalso. apply next_wake_spec in Hn as (Hlt & (t & th & Ht & Hw) & _).
      destruct (noop_alone programId t0 c1 Hmode Hr) as (m & Hpool & Hb & Hpc & _).
      rewrite Hpool in Ht. destruct t; simpl in Ht; [|done]. injection Ht as <-.
      destruct (wake_ok_reachable _ t0 c1 Hr 0%nat m ltac:(rewrite Hpool; reflexivity))
        as [Hle | (ms & Hp & Hsl)]; [lia|].
      rewrite Hb, (noop_code programId Hmode) in Hsl.
      destruct (pc m) as [|[|[|[|k]]]]; simpl in Hsl; try discriminate; lia.
    + cfg. lia.
Qed.

Lemma noop_no_work (programId t0 : Z) (c : config) :
  mode_of_id programId = None ->
  reachable (boot (main programId) t0) c ->
  no_work t0 c.
Proof.
  intros Hmode Hr.
  destruct (noop_alone programId t0 c Hmode Hr) as (m & Hpool & Hb & Hpc & Hcon).
  assert (Hin : forall s, In s (console c) -> s = banner programId \/ s = newline).
  { intros s. rewrite Hcon.
    destruct (pc m) as [|[|k]]; simpl; rewrite ?take_nil; simpl; intuition. }
  unfold no_work. split; [rewrite Hpool; reflexivity|].
  split; [|split; [|split]].
  - intros u. destruct (banner_ne programId u) as (H1 & H2 & _).
    split; intros H; apply Hin in H as [H | H]; try congruence.
    + unfold start_message, newline in H. text_differs H.
    + exact (finish_ne_newline u H).
  - intros H. apply Hin in H as [H | H].
    + destruct (banner_ne programId coffee) as (_ & _ & H3 & _). congruence.
    + discriminate.
  - rewrite (acquired_ok_reachable _ t0 c Hr), Hpool. csimpl.
    unfold locks_taken. rewrite Hb, (noop_code programId Hmode).
    destruct (pc m) as [|[|[|[|k]]]]; reflexivity.
  - exact (noop_time programId t0 c Hmode Hr).
Qed.

(** ** Runs of the [main] functions *)

Lemma main_exit (programId t0 : Z) (c : config) (n : Z) :
  reachable (boot (main programId) t0) c ->
  exit_code c = Some n ->
  n = 0 /\ main_done c = true.
Proof.
  rewrite main_code. apply entry_exit, banner_text.
Qed.

Lemma Program_main_exit (t0 : Z) (c : config) (n : Z) :
  reachable (boot Program.main t0) c ->
  exit_code c = Some n ->
  n = 0 /\ main_done c = true.
Proof.
  rewrite Program_main_code. apply entry_exit. constructor.
Qed.

Lemma round_robin_exits (s : string) (m : option ExecutionMode) (t0 : Z) :
  exit_code (exec (round_robin 24)
                  (boot (console_write s ++ work_of m ++ [ReturnMain 0]) t0)) = Some 0.
Proof.
  rewrite exit_code_any_start. destruct m as [[]|]; vm_compute; reflexivity.
Qed.

Lemma round_robin_Program_exits (t0 : Z) :
  exit_code (exec (round_robin 24) (boot Program.main t0)) = Some 0.
Proof. rewrite exit_code_any_start. vm_compute. reflexivity. Qed.


Lemma main_begins (programId t0 : Z) (c : config) :
  reachable (boot (main programId) t0) c -> begins_with (banner programId) c.
Proof. rewrite main_code. apply begins_with_reachable. Qed.

Lemma main_exit_console (programId t0 : Z) (c : config) (n : Z) :
  reachable (boot (main programId) t0) c ->
  exit_code c = Some n ->
  exists rest, console c = banner programId :: newline :: rest.
Proof.
  intros Hr He.
  destruct (main_exit programId t0 c n Hr He) as [_ Hdone].
  destruct (main_begins programId t0 c Hr) as (m & Hm & H).
  unfold main_done in Hdone. rewrite Hm in Hdone.
  apply bool_decide_eq_true in Hdone.
  assert (Hflat : flat (main programId))
    by (rewrite main_code; apply flat_entry, banner_text).
  rewrite (main_body _ t0 Hflat c m Hr Hm), main_code in Hdone.
  rewrite !length_app in Hdone. simpl in Hdone.
  unfold console.
  destruct (pc m) as [|[|k]]; [lia | lia |].
  destruct H as [rest ->]. simpl. eauto.
Qed.

Lemma noop_completes (programId t0 : Z) :
  mode_of_id programId = None ->
  exit_code (exec (round_robin 24) (boot (main programId) t0)) = Some 0 /\
  console (exec (round_robin 24) (boot (main programId) t0)) =
    [banner programId; newline].
Proof.
  intros Hmode.
  assert (He : exit_code (exec (round_robin 24) (boot (main programId) t0)) = Some 0)
    by (rewrite main_code; apply round_robin_exits).
  split; [exact He|].
  set (c := exec (round_robin 24) (boot (main programId) t0)) in *.
  assert (Hr : reachable (boot (main programId) t0) c) by (exists (round_robin 24); reflexivity).
  destruct (main_exit_console programId t0 c 0 Hr He) as [rest Hrest].
  destruct (noop_alone programId t0 c Hmode Hr) as (m & _ & _ & _ & Hcon).
  rewrite Hcon in Hrest |- *.
  destruct (pc m) as [|[|[|k]]]; simpl in *; try discriminate; reflexivity.
Qed.

(** C6. The [switch] of [main] runs the sequential program for 1, the
    unsynchronized one for 2 and the synchronized one for 3, each of them
    the scheduler in that mode over coffee and toast; for every other
    identifier [main] is the banner line and [return 0], and in no state of
    any of its runs has any work been done: no thread besides main, no
    message of a unit, no total, no lock, no time spent but the overhead;
    and it runs to its end. *)
Theorem C6_mode_of_id :
  (mode_of_id 1 = Some Sequential /\
   mode_of_id 2 = Some ConcurrentUnsynchronized /\
   mode_of_id 3 = Some ConcurrentSynchronized) /\
  (main 1 = console_write (banner 1) ++ Program_01_async.Run ++ [ReturnMain 0] /\
   main 2 = console_write (banner 2) ++ Program_02_async.Run ++ [ReturnMain 0] /\
   main 3 = console_write (banner 3) ++ Program_03_async_cout_mutex.Run ++ [ReturnMain 0]) /\
  (Program_01_async.Run = Scheduler_run Sequential workload /\
   Program_02_async.Run = Scheduler_run ConcurrentUnsynchronized workload /\
   Program_03_async_cout_mutex.Run = Scheduler_run ConcurrentSynchronized workload) /\
  (forall programId t0 sched,
     programId <> 1 -> programId <> 2 -> programId <> 3 ->
     mode_of_id programId = None /\
     main programId = console_write (banner programId) ++ [ReturnMain 0] /\
     no_work t0 (exec sched (boot (main programId) t0)) /\
     exit_code (exec (round_robin 24) (boot (main programId) t0)) = Some 0).
Proof.
  split; [repeat split|]. split; [repeat split|]. split; [repeat split|].
  intros programId t0 sched H1 H2 H3.
  pose proof (mode_of_id_other programId H1 H2 H3) as Hmode.
  split; [exact Hmode|]. split; [exact (noop_code programId Hmode)|]. split.
  - apply (noop_no_work programId t0); [exact Hmode | exists sched; reflexivity].
  - apply (noop_completes programId t0 Hmode).
Qed.

(** C6 at the identifier 7, run to its end. *)
Lemma C6_mode_of_id_witness :
  mode_of_id 7 = None /\
  main 7 = console_write (banner 7) ++ [ReturnMain 0] /\
  no_work 0 (exec (round_robin 24) (boot (main 7) 0)) /\
  exit_code (exec (round_robin 24) (boot (main 7) 0)) = Some 0.
Proof.
  apply (proj2 (proj2 (proj2 C6_mode_of_id)) 7 0 (round_robin 24)); discriminate.
Defined.




(** ** An execution context that cannot be created *)

Lemma Scheduler_run_measured (mode : ExecutionMode) (units : list WorkUnit) :
  Scheduler_run mode units = measured mode units ++ report.
Proof. unfold Scheduler_run, measured. rewrite <- !app_assoc. reflexivity. Qed.

Lemma total_ne (u : WorkUnit) :
  start_message u <> "Total time = " /\ finish_message u <> "Total time = ".
Proof.
  unfold start_message, finish_message. split; intros H; text_differs H.
Qed.

Lemma count_ne_total (th : thread) : count_text th <> "Total time = ".
Proof.
  unfold count_text.
  destruct (string_of_Z_head (duration_cast_seconds (stop th - start th)))
    as (a & r & -> & Ha).
  intros H. injection H as H _.
  repeat (destruct Ha as [Ha | Ha]; [subst a; discriminate|]). subst a. discriminate.
Qed.

(** No statement of a unit inserts the text of the total. *)
Lemma execute_no_total (mode : ExecutionMode) (u : WorkUnit) (th : thread) :
  ~ In "Total time = " (pieces th (execute mode u)).
Proof.
  rewrite pieces_execute. destruct (total_ne u) as [H1 H2].
  simpl. intros [H | [H | [H | [H | []]]]]; try congruence; discriminate.
Qed.

Lemma measured_no_total (mode : ExecutionMode) (units : list WorkUnit) (th : thread) :
  ~ In "Total time = " (pieces th (measured mode units)).
Proof.
  unfold measured. rewrite !pieces_app. simpl.
  assert (Hj : pieces th (join_all mode (length units)) = []).
  { destruct mode; simpl; [reflexivity| |];
      generalize 0%nat; induction (length units) as [|n IH]; intros k; simpl; auto;
      apply IH. }
  rewrite Hj, !app_nil_r. clear Hj.
  induction units as [|u units IH]; simpl; [tauto|].
  rewrite pieces_app. intros H. apply in_app_or in H as [H | H]; [|exact (IH H)].
  destruct mode; try (exact (execute_no_total _ u th H)); simpl in H; tauto.
Qed.

Lemma measured_no_return (mode : ExecutionMode) (units : list WorkUnit) :
  Forall (fun i => is_return i = false) (measured mode units).
Proof.
  unfold measured. repeat (apply Forall_app; split); try (repeat constructor).
  - induction units as [|u units IH]; simpl; [constructor|].
    apply Forall_app. split; [|exact IH]. destruct mode; repeat constructor.
  - destruct mode; simpl; [constructor| |];
      apply Forall_fmap, list.Forall_forall; intros; reflexivity.
Qed.

Lemma pieces_take_In (th : thread) (code : list instr) (k : nat) (s : string) :
  In s (pieces th (take k code)) -> In s (pieces th code).
Proof.
  intros H. rewrite <- (take_drop k code), pieces_app. apply in_or_app. auto.
Qed.

Section Fatal.

Variables pre post : list instr.
Variable mode : ExecutionMode.
Variable units : list WorkUnit.
Variable t0 : Z.
Hypothesis pre_text : Forall (fun i => is_text i = true) pre.
Hypothesis pre_no_total : forall th, ~ In "Total time = " (pieces th pre).
Hypothesis post_plain : Forall (fun i => is_clock i = false /\ async_body i = None) post.

Let W : list instr := pre ++ Scheduler_run mode units ++ post.








End Fatal.





(** ** Progress, for every program *)

Lemma return_ok_reachable (B : list instr) (t0 : Z) (c : config) :
  reachable (boot B t0) c -> return_ok c.
Proof.
  apply invariant.
  - intros t th k n Ht Hk. destruct t; simpl in Ht; [|done].
    injection Ht as <-. cfg. lia.
  - intros c1 c2 _ IH Htr.
    destruct Htr as [t th i Ht Hr Hre | t th i Ht Hr | w He Hs Hn | dt He Hdt];
      try (intros t' th' k n Ht' Hk Hret; cfg; exact (IH _ _ _ _ Ht' Hk Hret)).
    + apply ready_inv in Hr as (_ & _ & _ & Hi & _).
      intros t' th' k n Ht' Hk Hret. rewrite proc_exec_instr.
      destruct (lookup_exec_instr _ _ _ _ _ _ Ht Ht')
        as [[-> ->] | [[Hne Hold] | [-> (code & -> & ->)]]].
      * rewrite pc_local_step in Hk. rewrite body_local_step in Hret.
        destruct (decide (k = pc th)) as [-> | Hne].
        -- rewrite Hi in Hret. injection Hret as ->. discriminate.
        -- assert (Hp : proc c1 <> Running) by (apply (IH t th k n); auto; lia).
           destruct i; auto; discriminate.
      * assert (Hp : proc c1 <> Running) by (apply (IH t' th' k n); auto).
        destruct i; auto; discriminate.
      * cfg. lia.
    + intros t' th' k n Ht' Hk Hret. rewrite proc_raise_in.
      destruct (lookup_raise_in _ _ _ _ _ Ht') as [[-> ->] | [Hne Hold]].
      * cfg. destruct t; [discriminate|]. exact (IH _ _ _ _ Ht Hk Hret).
      * destruct t; [discriminate|]. exact (IH _ _ _ _ Hold Hk Hret).
Qed.

Lemma rethrows_healthy (c : config) (th : thread) (i : instr) :
  healthy c -> rethrows c th i = false.
Proof.
  intros Hh. unfold rethrows. destruct i; try reflexivity.
  destruct (futures th !! f) as [u|]; [|reflexivity].
  destruct (pool c !! u) as [tu|] eqn:Hu; [|reflexivity].
  exact (Hh _ _ Hu).
Qed.

Lemma some_ready_from_true (c : config) (ths : list thread) (t0 : nat) :
  some_ready_from c t0 ths = true ->
  exists k th i, ths !! k = Some th /\ ready c (t0 + k) th = Some i.
Proof.
  revert t0. induction ths as [|th rest IH]; intros t0 H; [discriminate|].
  simpl in H. destruct (ready c t0 th) as [i|] eqn:Hr.
  - exists 0%nat, th, i. rewrite Nat.add_0_r. auto.
  - destruct (IH _ H) as (k & u & i & Hu & Hi).
    exists (S k), u, i. split; [exact Hu|].
    replace (t0 + S k)%nat with (S t0 + k)%nat by lia. exact Hi.
Qed.

Lemma some_ready_true (c : config) :
  some_ready c = true ->
  exists t th i, pool c !! t = Some th /\ ready c t th = Some i.
Proof. intros H. exact (some_ready_from_true c (pool c) 0 H). Qed.

Lemma earliest_wake_some (t0 : Z) (ths : list thread) (t : nat) (th : thread) :
  ths !! t = Some th -> t0 < wake th -> exists w, earliest_wake t0 ths = Some w.
Proof.
  revert t. induction ths as [|a rest IH]; intros t Ht Hlt; [done|].
  simpl. destruct t as [|t]; simpl in Ht.
  - injection Ht as ->. rewrite bool_decide_eq_true_2 by exact Hlt.
    destruct (earliest_wake t0 rest); eauto.
  - destruct (IH t Ht Hlt) as [w Hw]. rewrite Hw.
    case_bool_decide; eauto.
Qed.

Lemma sum_list_lt (f g : thread -> nat) (l : list thread) (t : nat) (th : thread) :
  (forall x, (g x <= f x)%nat) ->
  l !! t = Some th -> (g th < f th)%nat ->
  (sum_list (g <$> l) < sum_list (f <$> l))%nat.
Proof.
  intros Hle. revert t. induction l as [|a l IH]; intros t Ht Hlt; [done|].
  assert (Hall : (sum_list (g <$> l) <= sum_list (f <$> l))%nat).
  { clear -Hle. induction l as [|b l IHl]; csimpl; [lia|]. pose proof (Hle b). lia. }
  destruct t as [|t]; simpl in Ht; csimpl.
  - injection Ht as ->. lia.
  - specialize (IH t Ht Hlt). pose proof (Hle a). lia.
Qed.

Lemma potential_exec_instr (c : config) (t : nat) (th : thread) (i : instr) :
  pool c !! t = Some th ->
  ready c t th = Some i ->
  (forall code, i = Async code -> todo code = length code) ->
  (potential (exec_instr c t th i) < potential c)%nat.
Proof.
  intros Ht Hr Hcode.
  apply ready_inv in Hr as (_ & _ & Hw & Hi & _).
  unfold potential, asleep.
  rewrite now_exec_instr, pool_exec_instr, fmap_app, sum_list_app.
  set (F := fun x => (2 * left_to_do x +
                      (if bool_decide (now c < wake x)%Z then 1 else 0))%nat).
  pose proof (sum_list_insert F (pool c) t th (local_step c th i) Ht) as Hsum.
  assert (Hleft : left_to_do th = (cost i + left_to_do (local_step c th i))%nat).
  { unfold left_to_do. rewrite body_local_step, pc_local_step.
    rewrite (drop_S _ _ _ Hi). reflexivity. }
  assert (Hth : F th = (2 * left_to_do th)%nat).
  { unfold F. rewrite bool_decide_eq_false_2 by lia. lia. }
  assert (Hnew : (F (local_step c th i) <= 2 * left_to_do (local_step c th i) + 1)%nat).
  { unfold F. case_bool_decide; lia. }
  destruct i; simpl in *; try lia.
  assert (Hx : F (local_step c th (Async body0)) =
               (2 * left_to_do (local_step c th (Async body0)))%nat).
  { unfold F. rewrite wake_local_step, bool_decide_eq_false_2 by lia. lia. }
  assert (Hs : F (spawn body0 (now c)) = (2 * length body0)%nat).
  { unfold F, left_to_do. cfg. rewrite bool_decide_eq_false_2 by lia.
    rewrite drop_0, (Hcode _ eq_refl). lia. }
  rewrite Hs. lia.
Qed.

Lemma potential_idle (c : config) (w : Z) :
  next_wake c = Some w ->
  (potential (set_now w c) < potential c)%nat.
Proof.
  intros Hn. apply next_wake_spec in Hn as (Hlt & (t & th & Ht & Hw) & _).
  unfold potential. cfg.
  apply (sum_list_lt _ _ _ t th); [|exact Ht|].
  - intros x. unfold asleep. cfg. repeat case_bool_decide; lia.
  - unfold asleep. cfg. repeat case_bool_decide; lia.
Qed.

(** ** Progress of the [main] functions *)

Lemma lookup_spawned (code : list instr) (k : nat) (b : list instr) :
  code !! k = Some (Async b) -> b ∈ spawned code.
Proof.
  revert k. induction code as [|i code IH]; intros k Hk; [done|].
  unfold spawned in *. csimpl. destruct k as [|k]; simpl in Hk.
  - injection Hk as ->. left.
  - specialize (IH k Hk). destruct (async_body i); [right|]; exact IH.
Qed.

Lemma todo_execute (mode : ExecutionMode) (u : WorkUnit) :
  todo (execute mode u) = length (execute mode u).
Proof. destruct mode; reflexivity. Qed.

Lemma execute_lookup_scope (mode : ExecutionMode) (u : WorkUnit) (k : nat) (i : instr) :
  execute mode u !! k = Some i ->
  (i = EndScope -> in_scope mode k = true) /\ (forall f, i <> FutureGet f).
Proof.
  destruct mode; simpl;
    do 8 (destruct k as [|k];
          [first [ discriminate
                 | intros [= <-]; split;
                   [first [discriminate | intros _; reflexivity] | discriminate] ]|]);
    discriminate.
Qed.

(** A thread inside its guarded scope that owns the mutex and is awake can
    execute its next statement. *)
Lemma scope_ready (c : config) (t : nat) (th : thread) (mode : ExecutionMode)
      (u : WorkUnit) :
  may_run c = true -> failed th = false -> wake th <= now c ->
  body th = execute mode u -> in_scope mode (pc th) = true ->
  mutex c = Some t ->
  ready c t th <> None.
Proof.
  intros Hmay Hnf Hw Hb Hin Hm. unfold ready.
  rewrite Hmay, Hnf, Hb. simpl. rewrite bool_decide_eq_true_2 by exact Hw.
  unfold in_scope in Hin. destruct mode; try discriminate.
  destruct (pc th) as [|[|[|[|k]]]]; simpl in *; try discriminate.
  rewrite bool_decide_eq_true_2 by exact Hm. discriminate.
Qed.

Section Completion.

Variables pre work : list instr.
Variable mode : ExecutionMode.
Variable t0 : Z.
Hypothesis pre_text : Forall (fun i => is_text i = true) pre.
Hypothesis work_threads : Forall (fun b => exists u, b = execute mode u) (spawned work).
Hypothesis work_plain : Forall (fun i => guard_delta i = 0 /\ is_return i = false) work.
Hypothesis work_gets :
  forall k f, work !! k = Some (FutureGet f) ->
              (f < length (spawned (take k work)))%nat.

Let W : list instr := pre ++ work ++ [ReturnMain 0].

Lemma flat_C : flat W.
Proof.
  apply flat_wrap; [exact pre_text | exact return_plain|].
  eapply list.Forall_impl; [exact work_threads|].
  intros b [u ->]. apply spawned_execute.
Qed.

Lemma worker_C (c : config) (j : nat) (th : thread) :
  reachable (boot W t0) c -> pool c !! S j = Some th ->
  exists u, body th = execute mode u.
Proof.
  intros Hr Hth. pose proof (worker_body_in W t0 flat_C c j th Hr Hth) as Hin.
  unfold W in Hin. rewrite (spawned_wrap _ _ _ pre_text return_plain) in Hin.
  exact (proj1 (list.Forall_forall _ _) work_threads _ Hin).
Qed.

Lemma main_guards (k : nat) : guards (take k W) = 0.
Proof.
  apply guards_take_zero. unfold W. repeat (apply Forall_app; split).
  - eapply list.Forall_impl; [exact pre_text|]. intros i Hi. destruct i; done.
  - eapply list.Forall_impl; [exact work_plain|]. intros i [Hi _]. exact Hi.
  - repeat constructor.
Qed.

Lemma running_not_done (c : config) (m : thread) :
  reachable (boot W t0) c -> proc c = Running -> pool c !! 0%nat = Some m ->
  (pc m < length W)%nat.
Proof.
  intros Hr Hp Hm.
  pose proof (pc_ok_reachable W t0 c Hr _ _ Hm) as Hpc.
  pose proof (main_body W t0 flat_C c m Hr Hm) as Hb. rewrite Hb in Hpc.
  destruct (decide (pc m = length W)) as [Heq | Hne]; [exfalso|lia].
  apply (return_ok_reachable W t0 c Hr 0%nat m (length pre + length work)%nat 0 Hm);
    [| |exact Hp].
  - rewrite Heq. unfold W. rewrite !length_app. simpl. lia.
  - rewrite Hb. unfold W.
    rewrite lookup_app_r by lia. rewrite lookup_app_r by lia.
    replace (length pre + length work - length pre - length work)%nat with 0%nat by lia.
    reflexivity.
Qed.

Lemma W_get (k f : nat) :
  W !! k = Some (FutureGet f) -> (f < length (spawned (take k W)))%nat.
Proof.
  unfold W. intros Hk.
  apply lookup_app_Some in Hk as [Hk | [Hle Hk]].
  - apply list_elem_of_lookup_2 in Hk.
    apply (proj1 (list.Forall_forall _ _) pre_text) in Hk. discriminate.
  - apply lookup_app_Some in Hk as [Hk | [Hle' Hk]].
    + pose proof (lookup_lt_Some _ _ _ Hk) as Hlt.
      rewrite take_app_ge by exact Hle. rewrite take_app_le by lia.
      rewrite spawned_app, length_app. pose proof (work_gets _ _ Hk). lia.
    + destruct (k - length pre - length work)%nat; simpl in Hk; [discriminate | done].
Qed.

Lemma async_cost (c : config) (t : nat) (th : thread) (code : list instr) :
  reachable (boot W t0) c -> pool c !! t = Some th ->
  body th !! pc th = Some (Async code) ->
  todo code = length code.
Proof.
  intros Hr Ht Hi. destruct t as [|j].
  - rewrite (main_body W t0 flat_C c th Hr Ht) in Hi.
    apply lookup_spawned in Hi. unfold W in Hi.
    rewrite (spawned_wrap _ _ _ pre_text return_plain) in Hi.
    destruct (proj1 (list.Forall_forall _ _) work_threads _ Hi) as [u ->].
    apply todo_execute.
  - destruct (worker_C c j th Hr Ht) as [u Hb]. rewrite Hb in Hi.
    apply lookup_spawned in Hi. rewrite spawned_execute in Hi. inversion Hi.
Qed.

(** No deadlock: in a running process in which nothing has thrown, if no
    thread can execute a statement then some thread sleeps. *)
Lemma sleeper_exists (c : config) :
  reachable (boot W t0) c -> healthy c -> proc c = Running ->
  some_ready c = false ->
  exists t th, pool c !! t = Some th /\ now c < wake th.
Proof.
  intros Hr Hh Hp Hnone.
  pose proof (some_ready_false c Hnone) as Hnr.
  assert (Hmay : may_run c = true) by (unfold may_run; rewrite Hp; reflexivity).
  destruct (shape_reachable W t0 flat_C c Hr) as (m & ws & Hpool & Hb & Hf & Hws).
  assert (Hm : pool c !! 0%nat = Some m) by (rewrite Hpool; reflexivity).
  destruct (decide (now c < wake m)) as [|Hawake]; [exists 0%nat, m; done|].
  pose proof (running_not_done c m Hr Hp Hm) as Hlt.
  destruct (lookup_lt_is_Some_2 W (pc m) Hlt) as [i Hi].
  destruct (not_ready_inv c 0%nat m (Hnr _ _ Hm) Hmay (Hh _ _ Hm)) as [Hs | Hblk]; [lia|].
  rewrite Hb, Hi in Hblk.
  pose proof (main_guards (S (pc m))) as Hgi.
  rewrite (take_S_r _ _ _ Hi), guards_app, main_guards in Hgi. simpl in Hgi.
  destruct i; simpl in Hgi; try lia; try (exfalso; exact Hblk).
  pose proof (W_get _ _ Hi) as Hflt. rewrite <- Hws, length_fmap in Hflt.
  destruct (lookup_lt_is_Some_2 ws f Hflt) as [tu Htu].
  assert (Hu : pool c !! S f = Some tu) by (rewrite Hpool; exact Htu).
  assert (Hfu : futures m !! f = Some (S f)) by (rewrite Hf; apply lookup_seq_lt; lia).
  specialize (Hblk _ _ Hfu Hu).
  destruct (decide (now c < wake tu)) as [|Hawake']; [exists (S f), tu; done|].
  unfold finished, returned in Hblk. rewrite (Hh _ _ Hu) in Hblk. simpl in Hblk.
  rewrite (bool_decide_eq_true_2 (wake tu ≤ now c)) in Hblk by lia.
  rewrite andb_true_r in Hblk. apply bool_decide_eq_false in Hblk.
  destruct (worker_C c f tu Hr Hu) as [u Hbu].
  destruct (lookup_lt_is_Some_2 (body tu) (pc tu) ltac:(lia)) as [j Hj].
  destruct (not_ready_inv c (S f) tu (Hnr _ _ Hu) Hmay (Hh _ _ Hu)) as [? | Hblk2]; [lia|].
  rewrite Hj in Hblk2. rewrite Hbu in Hj.
  destruct (lock_ok_reachable W t0 c Hr) as [Hown Hlock].
  destruct j; try (exfalso; exact Hblk2).
  - destruct (mutex c) as [o|] eqn:Hmx; [|done].
    destruct (lookup_lt_is_Some_2 _ _ (Hown o eq_refl)) as [tho Ho].
    pose proof (Hlock o tho Ho) as Hg.
    rewrite bool_decide_eq_true_2 in Hg by reflexivity.
    unfold holds_guard in Hg. rewrite (Hh _ _ Ho) in Hg.
    destruct o as [|jo].
    + rewrite Hm in Ho. injection Ho as <-. rewrite Hb, main_guards in Hg. lia.
    + destruct (worker_C c jo tho Hr Ho) as [uo Hbo].
      rewrite Hbo, guards_take_execute in Hg.
      destruct (in_scope mode (pc tho)) eqn:Hin; [|lia].
      destruct (decide (now c < wake tho)) as [|Hawo]; [exists (S jo), tho; done|].
      exfalso.
      apply (scope_ready c (S jo) tho mode uo Hmay (Hh _ _ Ho) ltac:(lia) Hbo Hin Hmx).
      exact (Hnr _ _ Ho).
  - pose proof (Hlock (S f) tu Hu) as Hg. unfold holds_guard in Hg.
    rewrite (Hh _ _ Hu), Hbu, guards_take_execute in Hg.
    rewrite (proj1 (execute_lookup_scope mode u _ _ Hj) eq_refl) in Hg.
    case_bool_decide; [contradiction | lia].
  - exfalso. exact (proj2 (execute_lookup_scope mode u _ _ Hj) _ eq_refl).
Qed.

Lemma exit_zero_C (c : config) (n : Z) :
  reachable (boot W t0) c -> proc c = Exited n -> n = 0.
Proof.
  intros Hr Hp.
  destruct (exit_ok_reachable W t0 c Hr n Hp) as (t & th & k & Ht & Hk & Hret).
  destruct t as [|j].
  - rewrite (main_body W t0 flat_C c th Hr Ht) in Hret. unfold W in Hret.
    apply lookup_app_Some in Hret as [Hret | [_ Hret]].
    + apply list_elem_of_lookup_2 in Hret.
      apply (proj1 (list.Forall_forall _ _) pre_text) in Hret. discriminate.
    + apply lookup_app_Some in Hret as [Hret | [_ Hret]].
      * apply list_elem_of_lookup_2 in Hret.
        apply (proj1 (list.Forall_forall _ _) work_plain) in Hret.
        destruct Hret as [_ Hret]. discriminate.
      * destruct (k - length pre - length work)%nat; simpl in Hret; [|done].
        injection Hret as <-. reflexivity.
  - destruct (worker_C c j th Hr Ht) as [u Hb]. rewrite Hb in Hret.
    exfalso. apply list_elem_of_lookup_2 in Hret.
    assert (Hno : Forall (fun i => is_return i = false) (execute mode u))
      by (unfold execute; destruct mode; repeat constructor).
    apply (proj1 (list.Forall_forall _ _) Hno) in Hret. discriminate.
Qed.

(** Every run in which nothing has thrown can be continued, without any
    exception, to the exit of the process with code 0. *)
Lemma completes (n : nat) (sched : list choice) :
  has_fault sched = false ->
  (potential (exec sched (boot W t0)) < n)%nat ->
  exists sched',
    has_fault sched' = false /\
    exit_code (exec (sched ++ sched') (boot W t0)) = Some 0.
Proof.
  revert sched. induction n as [|n IH]; intros sched Hs Hn; [lia|].
  set (c := exec sched (boot W t0)) in *.
  assert (Hr : reachable (boot W t0) c) by (exists sched; reflexivity).
  pose proof (no_fault_healthy W t0 sched Hs) as Hh. fold c in Hh.
  assert (Hnext : forall ch,
            match ch with Fault _ => false | _ => true end = true ->
            (potential (step ch c) < potential c)%nat ->
            exists sched',
              has_fault sched' = false /\
              exit_code (exec (sched ++ sched') (boot W t0)) = Some 0).
  { intros ch Hch Hlt.
    destruct (IH (sched ++ [ch])) as (s' & Hs' & He).
    - unfold has_fault in *. rewrite existsb_app, Hs. simpl.
      destruct ch; try reflexivity. discriminate.
    - rewrite exec_snoc. fold c. lia.
    - exists (ch :: s'). split.
      + unfold has_fault in *. simpl. rewrite Hs'. destruct ch; try reflexivity.
        discriminate.
      + rewrite <- He, <- app_assoc. reflexivity. }
  destruct (proc c) as [|code|] eqn:Hp.
  - assert (Hmay : may_run c = true) by (unfold may_run; rewrite Hp; reflexivity).
    destruct (some_ready c) eqn:Hsr.
    + destruct (some_ready_true c Hsr) as (t & th & i & Ht & Hready).
      apply (Hnext (Run t)); [reflexivity|].
      unfold step, act. rewrite Hmay, Ht, Hready, (rethrows_healthy c th i Hh).
      apply potential_exec_instr; [exact Ht | exact Hready|].
      intros code ->. apply ready_inv in Hready as (_ & _ & _ & Hi & _).
      exact (async_cost c t th code Hr Ht Hi).
    + destruct (sleeper_exists c Hr Hh Hp Hsr) as (t & th & Ht & Hlt).
      destruct (earliest_wake_some (now c) (pool c) t th Ht Hlt) as [w Hw].
      apply (Hnext Idle); [reflexivity|].
      unfold step, act. rewrite Hmay, Hsr. unfold next_wake. rewrite Hw.
      apply potential_idle. exact Hw.
  - exists []. split; [reflexivity|]. rewrite app_nil_r. fold c.
    unfold exit_code. rewrite Hp. f_equal. exact (exit_zero_C c code Hr Hp).
  - exfalso. exact (no_fault_no_abort W t0 sched Hs Hp).
Qed.

End Completion.

Lemma work_of_threads (mode : ExecutionMode) :
  Forall (fun b => exists u, b = execute mode u) (spawned (work_of (Some mode))).
Proof. destruct mode; repeat constructor; eauto. Qed.

Lemma work_of_plain (m : option ExecutionMode) :
  Forall (fun i => guard_delta i = 0 /\ is_return i = false) (work_of m).
Proof. destruct m as [[]|]; repeat constructor. Qed.

Lemma work_of_gets (m : option ExecutionMode) (k f : nat) :
  work_of m !! k = Some (FutureGet f) ->
  (f < length (spawned (take k (work_of m))))%nat.
Proof.
  destruct m as [[]|]; simpl;
    do 17 (destruct k as [|k]; [first [discriminate | intros [= <-]; simpl; lia]|]);
    discriminate.
Qed.

Lemma entry_completes (pre : list instr) (m : option ExecutionMode) (t0 : Z)
      (sched : list choice) :
  Forall (fun i => is_text i = true) pre ->
  has_fault sched = false ->
  exists sched',
    has_fault sched' = false /\
    exit_code (exec (sched ++ sched') (boot (pre ++ work_of m ++ [ReturnMain 0]) t0))
    = Some 0.
Proof.
  intros Hpre Hs.
  destruct m as [mode|].
  - apply (completes pre (work_of (Some mode)) mode t0 Hpre (work_of_threads mode)
             (work_of_plain _) (work_of_gets _)
             (S (potential (exec sched (boot (pre ++ work_of (Some mode) ++
                                             [ReturnMain 0]) t0))))
             sched Hs).
    lia.
  - apply (completes pre (work_of None) Sequential t0 Hpre ltac:(constructor)
             (work_of_plain _) (work_of_gets _)
             (S (potential (exec sched (boot (pre ++ work_of None ++
                                             [ReturnMain 0]) t0))))
             sched Hs).
    lia.
Qed.


(** C8. Whenever the process of [concurrency/main.cpp] (for any
    identifier) or of [multithreading/02_async/main.cpp] exits, its exit
    code is 0; a run in which no statement throws never ends in
    [std::terminate], and can always be continued, without any exception,
    to the exit of the process with code 0 (there is no deadlock and no
    endless run); the round-robin schedule is such a run, from any start. *)
Theorem C8_exit_code_zero :
  (forall programId t0 sched n,
     exit_code (exec sched (boot (main programId) t0)) = Some n -> n = 0) /\
  (forall t0 sched n,
     exit_code (exec sched (boot Program.main t0)) = Some n -> n = 0) /\
  (forall programId t0 sched,
     has_fault sched = false ->
     proc (exec sched (boot (main programId) t0)) <> Aborted /\
     exists sched',
       has_fault sched' = false /\
       exit_code (exec (sched ++ sched') (boot (main programId) t0)) = Some 0) /\
  (forall t0 sched,
     has_fault sched = false ->
     proc (exec sched (boot Program.main t0)) <> Aborted /\
     exists sched',
       has_fault sched' = false /\
       exit_code (exec (sched ++ sched') (boot Program.main t0)) = Some 0) /\
  has_fault (round_robin 24) = false /\
  (forall programId t0,
     exit_code (exec (round_robin 24) (boot (main programId) t0)) = Some 0) /\
  (forall t0,
     exit_code (exec (round_robin 24) (boot Program.main t0)) = Some 0).
Proof.
  split; [|split; [|split; [|split; [|split; [|split]]]]].
  - intros programId t0 sched n He.
    exact (proj1 (main_exit programId t0 _ n ltac:(exists sched; reflexivity) He)).
  - intros t0 sched n He.
    exact (proj1 (Program_main_exit t0 _ n ltac:(exists sched; reflexivity) He)).
  - intros programId t0 sched Hs. split; [apply no_fault_no_abort, Hs|].
    rewrite main_code. apply entry_completes; [apply banner_text | exact Hs].
  - intros t0 sched Hs. split; [apply no_fault_no_abort, Hs|].
    rewrite Program_main_code. apply entry_completes; [constructor | exact Hs].
  - reflexivity.
  - intros programId t0. rewrite main_code. apply round_robin_exits.
  - apply round_robin_Program_exits.
Qed.

(** C8 at the program of the sources ([programId] is 3), run round-robin. *)
Lemma C8_exit_code_zero_witness :
  exit_code (exec (round_robin 24) (boot (main 3) 0)) = Some 0 /\ 0 = 0.
Proof.
  split; [reflexivity|].
  apply (proj1 C8_exit_code_zero 3 0 (round_robin 24) 0). reflexivity.
Defined.

(** * Further properties of the programs *)

(** ** The mutex outside the synchronized mode *)

Lemma sum_list_zero (f : thread -> nat) (ws : list thread) :
  (forall j w, ws !! j = Some w -> f w = 0%nat) ->
  sum_list (f <$> ws) = 0%nat.
Proof.
  induction ws as [|a ws IH]; intros H; csimpl; [reflexivity|].
  rewrite (H 0%nat a eq_refl), IH; [reflexivity|].
  intros j w Hj. exact (H (S j) w Hj).
Qed.

Lemma thread_code (mode : ExecutionMode) (units : list WorkUnit) (t0 : Z)
      (c : config) (t : nat) (th : thread) :
  reachable (boot (Scheduler_run mode units) t0) c ->
  pool c !! t = Some th ->
  (t = 0%nat /\ body th = Scheduler_run mode units) \/
  (mode <> Sequential /\ exists j u, t = S j /\ units !! j = Some u /\
                                     body th = execute mode u).
Proof.
  intros Hr Ht. destruct t as [|j].
  - left. split; [reflexivity|].
    exact (main_body _ t0 (flat_Scheduler_run mode units) c th Hr Ht).
  - right.
    assert (Hmode : mode <> Sequential).
    { intros ->. destruct (sequential_alone units t0 c Hr) as (m & Hpool & _).
      rewrite Hpool in Ht. discriminate. }
    split; [exact Hmode|].
    destruct (worker_executes mode units t0 c j th Hmode Hr Ht) as (u & Hu & Hb).
    eauto.
Qed.

Lemma unguarded_mode_never_locks (mode : ExecutionMode) (units : list WorkUnit)
      (t0 : Z) (c : config) :
  mode <> ConcurrentSynchronized ->
  reachable (boot (Scheduler_run mode units) t0) c ->
  mutex c = None /\ acquired c = 0%nat.
Proof.
  intros Hmode Hr. split.
  - destruct (mutex c) as [t|] eqn:Hm; [exfalso|reflexivity].
    destruct (lock_ok_reachable _ t0 c Hr) as [Hlt Hl].
    destruct (lookup_lt_is_Some_2 _ _ (Hlt _ Hm)) as [th Hth].
    specialize (Hl _ _ Hth). rewrite bool_decide_eq_true_2 in Hl by exact Hm.
    unfold holds_guard in Hl. destruct (failed th); [lia|].
    destruct (thread_code mode units t0 c t th Hr Hth)
      as [[-> Hb] | (_ & j & u & -> & _ & Hb)]; rewrite Hb in Hl.
    + rewrite guards_take_zero in Hl by apply Scheduler_run_no_guard. lia.
    + rewrite guards_take_execute in Hl. destruct mode; simpl in Hl; try lia. done.
  - rewrite (acquired_ok_reachable _ t0 c Hr). apply sum_list_zero.
    intros t th Ht. unfold locks_taken.
    destruct (thread_code mode units t0 c t th Hr Ht)
      as [[-> Hb] | (_ & j & u & -> & _ & Hb)].
    + apply (locks_taken_main mode units th Hb).
    + rewrite Hb. rewrite filter_none; [reflexivity|].
      intros k x Hk Hx. apply list_elem_of_lookup_2, elem_of_take in Hk.
      destruct Hk as (k' & Hk' & _). apply list_elem_of_lookup_2 in Hk'.
      destruct mode; [| |done]; simpl in Hk';
        repeat (apply elem_of_cons in Hk' as [-> | Hk']; [discriminate|]);
        inversion Hk'.
Qed.

(** X1. [coutMutex] is locked in the synchronized program only: in every
    state of every run of the sequential and of the unsynchronized
    scheduler, over any units, the mutex is free and has never been
    acquired. *)
Theorem X1_mutex_untouched_without_guard :
  forall mode units t0 sched,
    mode <> ConcurrentSynchronized ->
    mutex (exec sched (boot (Scheduler_run mode units) t0)) = None /\
    acquired (exec sched (boot (Scheduler_run mode units) t0)) = 0%nat /\
    holders (exec sched (boot (Scheduler_run mode units) t0)) = 0%nat.
Proof.
  intros mode units t0 sched Hmode.
  set (c := exec sched (boot (Scheduler_run mode units) t0)).
  assert (Hr : reachable (boot (Scheduler_run mode units) t0) c)
    by (exists sched; reflexivity).
  destruct (unguarded_mode_never_locks mode units t0 c Hmode Hr) as [Hm Ha].
  split; [exact Hm|]. split; [exact Ha|].
  unfold holders. rewrite filter_none; [reflexivity|].
  intros t th Ht Hh. destruct (lock_ok_reachable _ t0 c Hr) as [_ Hl].
  specialize (Hl _ _ Ht). rewrite Hm in Hl.
  rewrite bool_decide_eq_false_2 in Hl by discriminate. lia.
Qed.

(** X1 at the unsynchronized program of the sources, run to its end. *)
Lemma X1_mutex_untouched_without_guard_witness :
  mutex (exec smooth_unsynchronized (boot Program.Run 0)) = None /\
  acquired (exec smooth_unsynchronized (boot Program.Run 0)) = 0%nat /\
  holders (exec smooth_unsynchronized (boot Program.Run 0)) = 0%nat.
Proof.
  apply (X1_mutex_untouched_without_guard ConcurrentUnsynchronized workload 0
           smooth_unsynchronized).
  discriminate.
Defined.

(** ** The console of a sequential run, for any units *)

Lemma pieces_dispatch_sequential (th : thread) (units : list WorkUnit) :
  pieces th (flat_map (dispatch Sequential) units) = flat_map unit_lines units.
Proof.
  induction units as [|u units IH]; [reflexivity|].
  change (flat_map (dispatch Sequential) (u :: units))
    with (execute Sequential u ++ flat_map (dispatch Sequential) units).
  rewrite pieces_app, IH. reflexivity.
Qed.

(** X2. The sequential program runs on the thread of main alone, and the
    console of a completed run is, for any units and under every schedule,
    the lines of the units in the order of the units, each "Creating"
    followed by its "Created", and then the total. *)
Theorem X2_sequential_console :
  forall units t0 sched,
    length (pool (exec sched (boot (Scheduler_run Sequential units) t0))) = 1%nat /\
    (main_done (exec sched (boot (Scheduler_run Sequential units) t0)) = true ->
     console (exec sched (boot (Scheduler_run Sequential units) t0)) =
     flat_map unit_lines units ++
     total_lines (exec sched (boot (Scheduler_run Sequential units) t0))).
Proof.
  intros units t0 sched.
  set (c := exec sched (boot (Scheduler_run Sequential units) t0)).
  assert (Hr : reachable (boot (Scheduler_run Sequential units) t0) c)
    by (exists sched; reflexivity).
  split.
  - destruct (sequential_alone units t0 c Hr) as (m & Hpool & _).
    rewrite Hpool. reflexivity.
  - intros Hdone.
    destruct (sequential_console units t0 c Hr Hdone) as (m & Hpool & Hcon).
    rewrite Hcon. unfold Scheduler_run. rewrite !pieces_app.
    rewrite pieces_dispatch_sequential. simpl.
    unfold total_lines, elapsed, count_text. rewrite Hpool. reflexivity.
Qed.

(** X2 at three units, run without overhead. *)
Lemma X2_sequential_console_witness :
  console (exec (straight 24)
                (boot (Scheduler_run Sequential
                         [coffee; toast; {| name := "eggs"; durationMillis := 0 |}]) 0)) =
  flat_map unit_lines [coffee; toast; {| name := "eggs"; durationMillis := 0 |}] ++
  total_lines (exec (straight 24)
                 (boot (Scheduler_run Sequential
                          [coffee; toast; {| name := "eggs"; durationMillis := 0 |}]) 0)).
Proof.
  apply (proj2 (X2_sequential_console
                  [coffee; toast; {| name := "eggs"; durationMillis := 0 |}] 0
                  (straight 24))).
  reflexivity.
Defined.

(** ** One thread per unit, joined before the total *)

Lemma total_position (mode : ExecutionMode) (units : list WorkUnit) (th : thread)
      (k : nat) (i : instr) :
  mode <> Sequential ->
  Scheduler_run mode units !! k = Some i ->
  piece th i = Some "Total time = " ->
  k = (2 * length units + 2)%nat.
Proof.
  intros Hmode Hk Hp. rewrite concurrent_code in Hk by exact Hmode.
  destruct k as [|k]; simpl in Hk; [injection Hk as <-; discriminate|].
  apply lookup_app_Some in Hk as [Hk | [Hle Hk]].
  { rewrite list_lookup_fmap in Hk.
    destruct (units !! k); simpl in Hk; [injection Hk as <-|]; discriminate. }
  rewrite length_fmap in Hle, Hk.
  apply lookup_app_Some in Hk as [Hk | [Hle' Hk]].
  { rewrite list_lookup_fmap in Hk.
    destruct (seq 0 (length units) !! (k - length units)%nat); simpl in Hk;
      [injection Hk as <-|]; discriminate. }
  rewrite length_fmap, length_seq in Hle', Hk.
  destruct (k - length units - length units)%nat as [|[|[|[|[|n]]]]] eqn:Hn;
    simpl in Hk; try discriminate; injection Hk as <-; simpl in Hp;
    try discriminate.
  - lia.
  - injection Hp as Hp. exfalso. exact (count_ne_total th Hp).
Qed.

(** Once main is past its last [get()], every unit has its thread and
    every thread has returned. *)
Lemma joined (mode : ExecutionMode) (units : list WorkUnit) (t0 : Z) (c : config)
      (m : thread) (j : nat) (u : WorkUnit) :
  mode <> Sequential ->
  reachable (boot (Scheduler_run mode units) t0) c ->
  pool c !! 0%nat = Some m ->
  (1 + 2 * length units <= pc m)%nat ->
  units !! j = Some u ->
  exists w, pool c !! S j = Some w /\ body w = execute mode u /\
            returned c w = true.
Proof.
  intros Hmode Hr Hm Hpc Hu.
  pose proof (lookup_lt_Some _ _ _ Hu) as Hj.
  pose proof (main_body _ t0 (flat_Scheduler_run mode units) c m Hr Hm) as Hb.
  destruct (get_ok_reachable _ t0 c Hr 0%nat m (S (length units + j)) j Hm)
    as (x & tu & Hx & Htu & Hret).
  - lia.
  - rewrite Hb. apply concurrent_lookup_get; assumption.
  - rewrite (main_futures _ t0 (flat_Scheduler_run mode units) c m Hr Hm) in Hx.
    apply lookup_seq in Hx as [-> _]. simpl in Htu.
    exists tu. split; [exact Htu|]. split; [|exact Hret].
    destruct (worker_executes mode units t0 c j tu Hmode Hr Htu) as (u' & Hu' & Hb').
    rewrite Hu in Hu'. injection Hu' as <-. exact Hb'.
Qed.

Lemma returned_wrote_all (mode : ExecutionMode) (units : list WorkUnit) (t0 : Z)
      (c : config) (j : nat) (w : thread) (u : WorkUnit) :
  reachable (boot (Scheduler_run mode units) t0) c ->
  pool c !! S j = Some w -> body w = execute mode u ->
  returned c w = true ->
  written_by (S j) (out c) = unit_lines u.
Proof.
  intros Hr Hw Hb Hret.
  rewrite (written_ok_reachable _ t0 (flat_Scheduler_run mode units)
             (tidy_Scheduler_run mode units)
             (workers_tidy_Scheduler_run mode units) c Hr _ _ Hw).
  unfold returned in Hret. rewrite !andb_true_iff, !bool_decide_eq_true in Hret.
  rewrite take_ge by tauto. rewrite Hb. apply pieces_execute.
Qed.

Lemma lines_before_total (mode : ExecutionMode) (units : list WorkUnit) (t0 : Z)
      (c : config) (j : nat) (u : WorkUnit) (s : string) :
  mode <> Sequential ->
  units !! j = Some u ->
  In s (unit_lines u) ->
  reachable (boot (Scheduler_run mode units) t0) c ->
  always_after (S j, s) (0%nat, "Total time = ") (out c).
Proof.
  intros Hmode Hu Hs. revert c. apply invariant.
  - apply always_after_nil.
  - intros c1 c2 Hr1 IH Htr.
    destruct Htr as [t th i Ht Hr Hre | t th i Ht Hr | w He Hsr Hn | dt He Hdt];
      try (cfg; exact IH).
    + rewrite out_exec_instr.
      destruct (piece th i) as [x|] eqn:Hp; [|rewrite app_nil_r; exact IH].
      destruct (decide ((t, x) = (0%nat, "Total time = "))) as [Heq | Hne];
        [|apply always_after_snoc_other; assumption].
      injection Heq as -> ->.
      apply always_after_snoc_in; [exact IH|].
      apply ready_inv in Hr as (_ & _ & _ & Hi & _).
      rewrite (main_body _ t0 (flat_Scheduler_run mode units) c1 th Hr1 Ht) in Hi.
      pose proof (total_position mode units th _ _ Hmode Hi Hp) as Hk.
      destruct (joined mode units t0 c1 th j u Hmode Hr1 Ht ltac:(lia) Hu)
        as (w & Hw & Hb & Hret).
      apply In_written_by.
      rewrite (returned_wrote_all mode units t0 c1 j w u Hr1 Hw Hb Hret).
      exact Hs.
    + rewrite out_raise_in. exact IH.
Qed.





(** X4. In both concurrent programs, for any units and under every
    schedule, "Total time = " is never on the console before every piece of
    every unit: [Run] prints the total only after it has joined all the
    threads. *)
Theorem X4_total_after_every_unit :
  forall mode units t0 sched j u s,
    mode <> Sequential ->
    units !! j = Some u ->
    In s (unit_lines u) ->
    always_after (S j, s) (0%nat, "Total time = ")
                 (out (exec sched (boot (Scheduler_run mode units) t0))).
Proof.
  intros mode units t0 sched j u s Hmode Hu Hs.
  apply (lines_before_total mode units t0 _ j u s Hmode Hu Hs).
  exists sched. reflexivity.
Qed.

(** X4 at the toast of the unsynchronized program of the sources. *)
Lemma X4_total_after_every_unit_witness :
  always_after (2%nat, "Created toast!") (0%nat, "Total time = ")
               (out (exec smooth_unsynchronized (boot Program.Run 0))).
Proof.
  apply (X4_total_after_every_unit ConcurrentUnsynchronized workload 0
           smooth_unsynchronized 1%nat toast "Created toast!").
  - discriminate.
  - reflexivity.
  - simpl. tauto.
Defined.

(** ** The start lines under the guard *)

Lemma execute_synchronized_lookup (u : WorkUnit) (k : nat) (i : instr) :
  execute ConcurrentSynchronized u !! k = Some i ->
  (k = 0%nat /\ i = LockGuard) \/
  (k = 1%nat /\ i = Insert (start_message u)) \/
  (k = 2%nat /\ i = Endl) \/
  (k = 3%nat /\ i = EndScope) \/
  (k = 4%nat /\ i = SleepFor (durationMillis u)) \/
  (k = 5%nat /\ i = Insert (finish_message u)) \/
  (k = 6%nat /\ i = Endl).
Proof.
  simpl. do 7 (destruct k as [|k]; [intros [= <-]; tauto|]). discriminate.
Qed.

Lemma start_ne_newline (u : WorkUnit) : start_message u <> newline.
Proof. unfold start_message, newline. intros H. text_differs H. Qed.

Lemma lookup_written_by (t : nat) (o : list (nat * string)) (a : nat) (z : string) :
  o !! a = Some (t, z) -> In z (written_by t o).
Proof.
  intros H. apply written_by_In. apply list_elem_of_lookup_2 in H.
  apply list_elem_of_In. exact H.
Qed.

(** A thread that has written [x] and then [y], and nothing else: [y]
    stands after [x] on the console. *)
Lemma written_two (t : nat) (o : list (nat * string)) (a : nat) (x y : string) :
  written_by t o = [x; y] -> x <> y ->
  o !! a = Some (t, x) ->
  exists n, (a < n)%nat /\ o !! n = Some (t, y).
Proof.
  intros Hw Hxy Ha.
  pose proof (take_drop_middle o a (t, x) Ha) as Ho.
  rewrite <- Ho in Hw. rewrite written_by_app in Hw.
  change ((t, x) :: drop (S a) o) with ([(t, x)] ++ drop (S a) o) in Hw.
  rewrite written_by_app in Hw. unfold written_by at 2 in Hw. csimpl in Hw.
  rewrite Nat.eqb_refl in Hw. simpl in Hw.
  destruct (written_by t (take a o)) as [|p [|q r]]; simpl in Hw.
  - injection Hw as Hd.
    assert (Hin : In y (written_by t (drop (S a) o))) by (rewrite Hd; left; reflexivity).
    apply In_written_by, list_elem_of_In, list_elem_of_lookup in Hin as [n Hn].
    rewrite lookup_drop in Hn. exists (S a + n)%nat. split; [lia | exact Hn].
  - injection Hw as _ Hw _. congruence.
  - injection Hw as _ _ Hw. destruct r; discriminate.
Qed.

Lemma start_lines_step (units : list WorkUnit) (t0 : Z) (c : config)
      (t : nat) (th : thread) (i : instr) :
  reachable (boot (Scheduler_run ConcurrentSynchronized units) t0) c ->
  pool c !! t = Some th ->
  ready c t th = Some i ->
  start_lines_ok c ->
  start_lines_ok (exec_instr c t th i).
Proof.
  intros Hr Ht Hready [IH1 IH2].
  pose proof (ready_inv _ _ _ _ Hready) as (_ & Hnf & _ & Hi & Hlock & Hend & _).
  pose proof (written_ok_reachable _ t0 (flat_Scheduler_run _ units)
                (tidy_Scheduler_run _ units)
                (workers_tidy_Scheduler_run _ units) c Hr t th Ht) as Hwr.
  (* what thread [t] is executing *)
  assert (Hkind :
    (t = 0%nat /\ guard_delta i = 0) \/
    exists k u, t = S k /\ body th = execute ConcurrentSynchronized u /\
                (mutex c = Some (S k) <-> (1 <= pc th <= 3)%nat)).
  { destruct (thread_code _ units t0 c t th Hr Ht)
      as [[-> Hb] | (_ & k & u & -> & _ & Hb)].
    - left. split; [reflexivity|]. rewrite Hb in Hi.
      apply list_elem_of_lookup_2 in Hi.
      exact (proj1 (list.Forall_forall _ _) (Scheduler_run_no_guard _ units) _ Hi).
    - right. exists k, u. split; [reflexivity|]. split; [exact Hb|].
      destruct (unit_scope ConcurrentSynchronized units t0 c k th
                  ltac:(discriminate) Hr Ht) as [Hs _].
      rewrite Hs. unfold in_scope. rewrite andb_true_iff, !Nat.leb_le. tauto. }
  (* a unit's thread that writes a start message is at its second statement,
     owns the mutex and has written nothing *)
  assert (Hstart : forall k v, t = S k -> piece th i = Some (start_message v) ->
            mutex c = Some (S k) /\ forall a x, out c !! a <> Some (S k, x)).
  { intros k v -> Hp.
    destruct Hkind as [[? _] | (k' & u & [= <-] & Hb & Hown)]; [discriminate|].
    rewrite Hb in Hi.
    assert (Hpc : pc th = 1%nat).
    { destruct (execute_synchronized_lookup u _ _ Hi)
        as [[_ ->] | [[? _] | [[_ ->] | [[_ ->] | [[_ ->] | [[_ ->] | [_ ->]]]]]]];
        simpl in Hp; try discriminate; try assumption;
        injection Hp as Hp; exfalso; symmetry in Hp;
        first [exact (start_ne_newline v Hp) | exact (start_ne_finish v u Hp)]. }
    split; [apply Hown; lia|].
    intros a x Ha. apply lookup_written_by in Ha.
    rewrite Hwr, Hb, Hpc in Ha. simpl in Ha. exact Ha. }
  unfold start_lines_ok. rewrite out_exec_instr.
  destruct (piece th i) as [s|] eqn:Hp.
  - (* a console statement: the mutex is untouched *)
    assert (Hmx : mutex (exec_instr c t th i) = mutex c)
      by (rewrite mutex_exec_instr; destruct i; try reflexivity; discriminate).
    split.
    + intros a j u Ha. rewrite Hmx.
      apply lookup_app_Some in Ha as [Ha | [Hle Ha]].
      * destruct (IH1 a j u Ha) as [(n & Hn & Hnl) | [Hown Hlater]].
        -- left. exists n. split; [exact Hn|]. apply lookup_app_l_Some. exact Hnl.
        -- destruct (decide ((t, s) = (S j, newline))) as [[= -> ->] | Hne].
           ++ left. exists (length (out c)). split; [exact (lookup_lt_Some _ _ _ Ha)|].
              rewrite lookup_app_r by lia. rewrite Nat.sub_diag. reflexivity.
           ++ right. split; [exact Hown|]. intros b k v Hab Hb.
              apply lookup_app_Some in Hb as [Hb | [Hle Hb]]; [exact (Hlater b k v Hab Hb)|].
              destruct (b - length (out c))%nat; simpl in Hb; [|done].
              injection Hb as -> ->.
              destruct (Hstart k v eq_refl eq_refl) as [Hown' Hnone].
              rewrite Hown in Hown'. injection Hown' as <-.
              exact (Hnone a _ Ha).
      * destruct (a - length (out c))%nat eqn:Hd; simpl in Ha; [|done].
        injection Ha as -> ->.
        destruct (Hstart j u eq_refl eq_refl) as [Hown _].
        right. split; [exact Hown|]. intros b k v Hab Hb.
        apply lookup_lt_Some in Hb. rewrite length_app in Hb. simpl in Hb. lia.
    + intros a b j k u v Hab Ha Hb.
      apply lookup_app_Some in Hb as [Hb | [Hle Hb]].
      * assert (Ha' : out c !! a = Some (S j, start_message u)).
        { apply lookup_app_Some in Ha as [Ha | [Hle' _]]; [exact Ha|].
          apply lookup_lt_Some in Hb. lia. }
        destruct (IH2 a b j k u v Hab Ha' Hb) as (n & Hn & Hnl).
        exists n. split; [exact Hn|]. apply lookup_app_l_Some. exact Hnl.
      * destruct (b - length (out c))%nat eqn:Hd; simpl in Hb; [|done].
        injection Hb as -> ->.
        assert (Ha' : out c !! a = Some (S j, start_message u)).
        { apply lookup_app_Some in Ha as [Ha | [Hle' _]]; [exact Ha | lia]. }
        destruct (Hstart k v eq_refl eq_refl) as [Hown' Hnone].
        destruct (IH1 a j u Ha') as [(n & Hn & Hnl) | [Hown _]].
        -- exists n. pose proof (lookup_lt_Some _ _ _ Hnl).
           split; [lia|]. apply lookup_app_l_Some. exact Hnl.
        -- rewrite Hown in Hown'. injection Hown' as <-.
           exfalso. exact (Hnone a _ Ha').
  - (* no console statement: the console is untouched *)
    rewrite app_nil_r. split; [|exact IH2].
    intros a j u Ha.
    destruct (IH1 a j u Ha) as [Hnl | [Hown Hlater]]; [left; exact Hnl|].
    rewrite mutex_exec_instr.
    destruct Hkind as [[-> Hg] | (k & w & -> & Hb & Hsc)].
    + right. split; [|exact Hlater]. destruct i; simpl in Hg; try lia; exact Hown.
    + rewrite Hb in Hi.
      destruct (execute_synchronized_lookup w _ _ Hi)
        as [[_ ->] | [[_ ->] | [[_ ->] | [[Hpc ->] | [[_ ->] | [[_ ->] | [_ ->]]]]]]];
        simpl in Hp; try discriminate; try (right; split; [exact Hown | exact Hlater]).
      * rewrite (Hlock eq_refl) in Hown. discriminate.
      * left. rewrite (Hend eq_refl) in Hown. injection Hown as <-.
        rewrite Hb, Hpc in Hwr. simpl in Hwr.
        assert (Hu : start_message u = start_message w).
        { apply lookup_written_by in Ha. rewrite Hwr in Ha.
          destruct Ha as [Ha | [Ha | []]]; [congruence|].
          exfalso. symmetry in Ha. exact (start_ne_newline u Ha). }
        rewrite Hu in Ha.
        exact (written_two _ _ a _ _ Hwr (start_ne_newline w) Ha).
Qed.

Lemma start_lines_reachable (units : list WorkUnit) (t0 : Z) (c : config) :
  reachable (boot (Scheduler_run ConcurrentSynchronized units) t0) c ->
  healthy c -> start_lines_ok c.
Proof.
  revert c. apply (invariant _ (fun c => healthy c -> start_lines_ok c)).
  - intros _. split.
    + intros a j u Ha. cfg. rewrite lookup_nil in Ha. discriminate.
    + intros a b j k u v _ Ha. cfg. rewrite lookup_nil in Ha. discriminate.
  - intros c1 c2 Hr1 IH Htr Hh2.
    pose proof (healthy_before _ _ Htr Hh2) as Hh1. specialize (IH Hh1).
    destruct Htr as [t th i Ht Hr Hre | t th i Ht Hr | w He Hs Hn | dt He Hdt];
      try exact IH.
    + exact (start_lines_step units t0 c1 t th i Hr1 Ht Hr IH).
    + exfalso. exact (healthy_no_raise _ _ _ Ht Hh2).
Qed.

(** X5. In the synchronized program, for any units and in every run in
    which nothing throws, the start lines of two units are never mixed:
    whenever the "Creating ..." of one unit is on the console before the
    "Creating ..." of another, the first unit's end of line stands between
    them. *)
Theorem X5_start_lines_not_mixed :
  forall units t0 sched a b j k u v,
    has_fault sched = false ->
    (a < b)%nat ->
    out (exec sched (boot (Scheduler_run ConcurrentSynchronized units) t0)) !! a
      = Some (S j, start_message u) ->
    out (exec sched (boot (Scheduler_run ConcurrentSynchronized units) t0)) !! b
      = Some (S k, start_message v) ->
    exists n,
      (a < n < b)%nat /\
      out (exec sched (boot (Scheduler_run ConcurrentSynchronized units) t0)) !! n
        = Some (S j, newline).
Proof.
  intros units t0 sched a b j k u v Hs Hab Ha Hb.
  pose proof (no_fault_healthy (Scheduler_run ConcurrentSynchronized units) t0 sched Hs)
    as Hh.
  destruct (start_lines_reachable units t0 _ ltac:(exists sched; reflexivity) Hh)
    as [_ H2].
  exact (H2 a b j k u v Hab Ha Hb).
Qed.

(** X5 at the overhead-free run of the program of the sources. *)
Lemma X5_start_lines_not_mixed_witness :
  exists n,
    (0 < n < 2)%nat /\
    out (exec smooth_synchronized (boot Program_03_async_cout_mutex.Run 0)) !! n
      = Some (1%nat, newline).
Proof.
  apply (X5_start_lines_not_mixed workload 0 smooth_synchronized 0%nat 2%nat
           0%nat 1%nat coffee toast).
  - reflexivity.
  - lia.
  - reflexivity.
  - reflexivity.
Defined.

(** X6. What the guard is for, and what it leaves open.  Without the
    guard two units can write their "Creating ..." on the same line: the
    unsynchronized scheduler has, for any two units, a run whose console
    begins with both start messages and only then the two ends of line.
    With the guard the finish write is still unprotected: the synchronized
    program of the sources has a run in which "Created coffee!" stands
    between "Creating toast..." and its end of line.  Nothing throws in
    either run. *)
Theorem X6_console_interleavings :
  (forall u1 u2,
     console (exec mixed_unsynchronized
                   (boot (Scheduler_run ConcurrentUnsynchronized [u1; u2]) 0)) =
     [ start_message u1; start_message u2; newline; newline ]) /\
  console (exec split_synchronized (boot Program_03_async_cout_mutex.Run 0)) =
    [ "Creating coffee..."; newline;
      "Creating toast..."; "Created coffee!"; newline; newline ] /\
  has_fault mixed_unsynchronized = false /\
  has_fault split_synchronized = false.
Proof.
  split; [|split; [|split]]; vm_compute; reflexivity.
Qed.

(** ** The clock of a concurrent run, for any number of units *)




(** The statements of the concurrent [Run], by position. *)
Lemma concurrent_lookup (mode : ExecutionMode) (units : list WorkUnit)
      (k : nat) (i : instr) :
  mode <> Sequential ->
  Scheduler_run mode units !! k = Some i ->
  (k = 0%nat /\ i = ClockStart) \/
  ((1 <= k <= length units)%nat /\ exists u, i = Async (execute mode u)) \/
  ((length units < k <= 2 * length units)%nat /\
   i = FutureGet (k - 1 - length units)) \/
  (k = (2 * length units + 1)%nat /\ i = ClockStop) \/
  ((2 * length units + 2 <= k)%nat /\ i ∈ report).
Proof.
  intros Hmode Hk. rewrite concurrent_code in Hk by exact Hmode.
  destruct k as [|k]; simpl in Hk; [injection Hk as <-; tauto|].
  apply lookup_app_Some in Hk as [Hk | [Hle Hk]].
  { pose proof (lookup_lt_Some _ _ _ Hk) as Hlt. rewrite length_fmap in Hlt.
    rewrite list_lookup_fmap in Hk.
    destruct (units !! k) as [u|]; simpl in Hk; [|discriminate].
    injection Hk as <-. right. left. split; [lia | eauto]. }
  rewrite length_fmap in Hle, Hk.
  apply lookup_app_Some in Hk as [Hk | [Hle' Hk]].
  { pose proof (lookup_lt_Some _ _ _ Hk) as Hlt. rewrite length_fmap, length_seq in Hlt.
    rewrite list_lookup_fmap, lookup_seq_lt in Hk by exact Hlt.
    simpl in Hk. injection Hk as <-. right. right. left. split; [lia|].
    f_equal. lia. }
  rewrite length_fmap, length_seq in Hle', Hk.
  destruct (k - length units - length units)%nat as [|n] eqn:Hn; simpl in Hk.
  - injection Hk as <-. right. right. right. left. split; [lia | reflexivity].
  - right. right. right. right. split; [lia|].
    apply list_elem_of_lookup_2 in Hk. exact Hk.
Qed.






Section Many.

Variable mode : ExecutionMode.
Variable units : list WorkUnit.
Variable t0 : Z.
Hypothesis concurrent : mode <> Sequential.
Hypothesis durations : Forall (fun u => 0 <= durationMillis u) units.

Let si : nat := sleep_index mode.







End Many.




(** X8. Either concurrent scheduler over any two units of non-negative
    durations: in a run in which nothing throws and whose overhead is less
    than the difference of the durations, "Created" of the second unit is
    never on the console before "Created" of the first, the shorter. *)
Theorem X8_shorter_of_two_finishes_first :
  forall mode u1 u2 t0 sched,
    mode <> Sequential ->
    0 <= durationMillis u1 -> 0 <= durationMillis u2 ->
    has_fault sched = false ->
    total_stall sched
      < milliseconds (durationMillis u2) - milliseconds (durationMillis u1) ->
    always_after (1%nat, finish_message u1) (2%nat, finish_message u2)
                 (out (exec sched (boot (Scheduler_run mode [u1; u2]) t0))).
Proof.
  intros mode u1 u2 t0 sched Hmode Hd1 Hd2 Hs Hstall.
  set (c := exec sched (boot (Scheduler_run mode [u1; u2]) t0)).
  assert (Hr : reachable (boot (Scheduler_run mode [u1; u2]) t0) c)
    by (exists sched; reflexivity).
  apply (finish_order_reachable mode u1 u2 t0 Hmode Hd1 Hd2 c Hr).
  - exact (no_fault_healthy _ t0 sched Hs).
  - pose proof (stalled_exec sched (boot (Scheduler_run mode [u1; u2]) t0)) as Hst.
    fold c in Hst. cfg. lia.
Qed.

(** X8 at eggs (1000 ms) and coffee (2000 ms), without the guard. *)
Lemma X8_shorter_of_two_finishes_first_witness :
  always_after (1%nat, finish_message eggs) (2%nat, finish_message coffee)
    (out (exec (fair 3 20)
            (boot (Scheduler_run ConcurrentUnsynchronized [eggs; coffee]) 0))).
Proof.
  apply (X8_shorter_of_two_finishes_first ConcurrentUnsynchronized eggs coffee 0
           (fair 3 20)).
  - discriminate.
  - simpl. lia.
  - simpl. lia.
  - reflexivity.
  - vm_compute. reflexivity.
Defined.

(** ** A unit that throws *)

Lemma failed_unit_not_joined (mode : ExecutionMode) (units : list WorkUnit) (t0 : Z)
      (c : config) (j : nat) (w m : thread) :
  mode <> Sequential ->
  reachable (boot (Scheduler_run mode units) t0) c ->
  pool c !! S j = Some w -> failed w = true ->
  pool c !! 0%nat = Some m ->
  (pc m <= S (length units + j))%nat.
Proof.
  intros Hmode Hr Hw Hf Hm.
  destruct (decide (pc m <= S (length units + j))%nat) as [|Hgt]; [assumption|].
  exfalso.
  destruct (worker_executes mode units t0 c j w Hmode Hr Hw) as (u & Hu & _).
  pose proof (lookup_lt_Some _ _ _ Hu) as Hj.
  destruct (get_ok_reachable _ t0 c Hr 0%nat m (S (length units + j)) j Hm)
    as (x & tu & Hx & Htu & Hret).
  - lia.
  - rewrite (main_body _ t0 (flat_Scheduler_run mode units) c m Hr Hm).
    apply concurrent_lookup_get; assumption.
  - rewrite (main_futures _ t0 (flat_Scheduler_run mode units) c m Hr Hm) in Hx.
    apply lookup_seq in Hx as [-> _]. simpl in Htu.
    rewrite Hw in Htu. injection Htu as <-.
    unfold returned in Hret. rewrite Hf in Hret. discriminate.
Qed.

(** X9. In both concurrent programs, for any units: once the function of
    a unit has thrown, [Run] never gets past the [get()] of that unit's
    future, so it never reaches its end and never writes the total; and
    when main calls [get()] on such a future the exception is thrown again
    in main, which nothing catches: the process is terminated. *)
Theorem X9_unit_failure_surfaces_at_get :
  (forall mode units t0 sched j w,
     mode <> Sequential ->
     pool (exec sched (boot (Scheduler_run mode units) t0)) !! S j = Some w ->
     failed w = true ->
     main_done (exec sched (boot (Scheduler_run mode units) t0)) = false /\
     ~ In "Total time = " (console (exec sched (boot (Scheduler_run mode units) t0)))) /\
  (forall mode units t0 sched,
     getting_failed (exec sched (boot (Scheduler_run mode units) t0)) = true ->
     proc (exec (sched ++ [Run 0%nat]) (boot (Scheduler_run mode units) t0)) = Aborted).
Proof.
  split.
  - intros mode units t0 sched j w Hmode Hw Hf.
    set (c := exec sched (boot (Scheduler_run mode units) t0)) in *.
    assert (Hr : reachable (boot (Scheduler_run mode units) t0) c)
      by (exists sched; reflexivity).
    destruct (shape_reachable _ t0 (flat_Scheduler_run mode units) c Hr)
      as (m & ws & Hpool & Hb & _).
    assert (Hm : pool c !! 0%nat = Some m) by (rewrite Hpool; reflexivity).
    pose proof (failed_unit_not_joined mode units t0 c j w m Hmode Hr Hw Hf Hm) as Hpc.
    destruct (worker_executes mode units t0 c j w Hmode Hr Hw) as (u & Hu & _).
    pose proof (lookup_lt_Some _ _ _ Hu) as Hj.
    split.
    + unfold main_done. rewrite Hm. apply bool_decide_eq_false_2.
      rewrite Hb, length_Scheduler_run by exact Hmode. lia.
    + unfold console. intros Hin. apply in_map_iff in Hin as ([t s] & Hs & Hin).
      simpl in Hs. subst s.
      pose proof (out_ok_reachable _ t0 c Hr _ _ Hin) as Hlt.
      destruct (lookup_lt_is_Some_2 _ _ Hlt) as [th Hth].
      apply written_by_In in Hin.
      rewrite (written_ok_reachable _ t0 (flat_Scheduler_run mode units)
                 (tidy_Scheduler_run mode units)
                 (workers_tidy_Scheduler_run mode units) c Hr t th Hth) in Hin.
      destruct (thread_code mode units t0 c t th Hr Hth)
        as [[-> Hbt] | (_ & j' & u' & -> & _ & Hbt)]; rewrite Hbt in Hin.
      * rewrite Hm in Hth. injection Hth as <-.
        rewrite Scheduler_run_measured, take_app_le in Hin.
        -- apply pieces_take_In in Hin. exact (measured_no_total mode units _ Hin).
        -- unfold measured. rewrite !length_app, dispatch_concurrent by exact Hmode.
           rewrite length_fmap. destruct mode; [done| |]; simpl;
             rewrite length_map, length_seq; simpl; lia.
      * apply pieces_take_In in Hin. exact (execute_no_total mode u' th Hin).
  - intros mode units t0 sched Hg. rewrite exec_snoc.
    set (c := exec sched (boot (Scheduler_run mode units) t0)) in *.
    unfold getting_failed in Hg.
    destruct (pool c !! 0%nat) as [m|] eqn:Hm; [|discriminate].
    destruct (ready c 0%nat m) as [i|] eqn:Hready; [|discriminate].
    destruct i; try discriminate.
    pose proof (ready_inv _ _ _ _ Hready) as (Hmay & _).
    unfold step, act. rewrite Hmay, Hm, Hready, Hg.
    rewrite proc_raise_in. reflexivity.
Qed.

(** X9 at the program of the sources: the thread of the coffee throws at
    its first statement, the one of the toast runs on. *)
Lemma X9_unit_failure_surfaces_at_get_witness :
  (main_done (exec ([Run 0; Run 0; Run 0; Fault 1]%nat ++ fair 3 20)
                (boot Program_03_async_cout_mutex.Run 0)) = false /\
   ~ In "Total time = "
        (console (exec ([Run 0; Run 0; Run 0; Fault 1]%nat ++ fair 3 20)
                    (boot Program_03_async_cout_mutex.Run 0)))) /\
  proc (exec ([Run 0; Run 0; Run 0; Fault 1]%nat ++ [Run 0%nat])
          (boot Program_03_async_cout_mutex.Run 0)) = Aborted.
Proof.
  split.
  - eapply (proj1 X9_unit_failure_surfaces_at_get ConcurrentSynchronized workload 0
              ([Run 0; Run 0; Run 0; Fault 1]%nat ++ fair 3 20) 0%nat).
    + discriminate.
    + vm_compute. reflexivity.
    + reflexivity.
  - apply (proj2 X9_unit_failure_surfaces_at_get ConcurrentSynchronized workload 0
             [Run 0; Run 0; Run 0; Fault 1]%nat).
    vm_compute. reflexivity.
Defined.

(** ** No deadlock, for any units *)

Lemma Scheduler_run_threads (mode : ExecutionMode) (units : list WorkUnit) :
  Forall (fun b => exists u, b = execute mode u) (spawned (Scheduler_run mode units)).
Proof.
  rewrite spawned_Scheduler_run. destruct mode; [constructor| |];
    apply Forall_fmap, list.Forall_forall; intros u _; exists u; reflexivity.
Qed.

Lemma Scheduler_run_plain (mode : ExecutionMode) (units : list WorkUnit) :
  Forall (fun i => guard_delta i = 0 /\ is_return i = false) (Scheduler_run mode units).
Proof.
  apply list.Forall_forall. intros i Hin. split.
  - exact (proj1 (list.Forall_forall _ _) (Scheduler_run_no_guard mode units) i Hin).
  - rewrite Scheduler_run_measured in Hin. apply elem_of_app in Hin as [Hin | Hin].
    + exact (proj1 (list.Forall_forall _ _) (measured_no_return mode units) i Hin).
    + unfold report in Hin.
      repeat (apply elem_of_cons in Hin as [-> | Hin]; [reflexivity|]). inversion Hin.
Qed.

Lemma dispatch_sequential_no_get (units : list WorkUnit) :
  Forall (fun i => forall f, i <> FutureGet f) (flat_map (dispatch Sequential) units).
Proof.
  induction units as [|u units IH]; simpl; [constructor|].
  repeat (constructor; [discriminate|]). exact IH.
Qed.

Lemma Scheduler_run_gets (mode : ExecutionMode) (units : list WorkUnit) (k f : nat) :
  Scheduler_run mode units !! k = Some (FutureGet f) ->
  (f < length (spawned (take k (Scheduler_run mode units))))%nat.
Proof.
  intros Hk.
  assert (Hmode : mode = Sequential \/ mode <> Sequential)
    by (destruct mode; auto; right; discriminate).
  destruct Hmode as [-> | Hmode].
  - exfalso. apply list_elem_of_lookup_2 in Hk. unfold Scheduler_run in Hk.
    simpl in Hk. apply elem_of_cons in Hk as [Hk | Hk]; [discriminate|].
    apply elem_of_app in Hk as [Hk | Hk].
    + exact (proj1 (list.Forall_forall _ _) (dispatch_sequential_no_get units) _ Hk f
                   eq_refl).
    + repeat (apply elem_of_cons in Hk as [Hk | Hk]; [discriminate|]). inversion Hk.
  - destruct (concurrent_lookup mode units _ _ Hmode Hk)
      as [[_ H] | [[_ [u H]] | [[Hr H] | [[_ H] | [_ H]]]]]; try discriminate.
    + injection H as ->.
      rewrite concurrent_code by exact Hmode.
      destruct k as [|k]; [lia|]. simpl.
      change (spawned (ClockStart :: ?l)) with (spawned l).
      rewrite take_app_ge by (rewrite length_fmap; lia).
      rewrite spawned_app, length_app.
      assert (Hl : forall l : list WorkUnit,
                length (spawned ((fun u => Async (execute mode u)) <$> l)) = length l).
      { unfold spawned. induction l as [|a l IH]; csimpl; [reflexivity|].
        rewrite IH. reflexivity. }
      rewrite Hl. lia.
    + unfold report in H.
      repeat (apply elem_of_cons in H as [H | H]; [discriminate|]). inversion H.
Qed.

(** X10. A [main] that runs the scheduler, in any mode and over any
    units, and returns 0: whenever the process exits its code is 0; a run
    in which nothing throws never ends in [std::terminate] and never gets
    stuck, it can always be continued, without any exception, to the exit
    with code 0.  The [main] of [multithreading/02_async/main.cpp] and of
    [multithreading/main.cpp] are of this form. *)
Theorem X10_run_and_return_never_stuck :
  (Program.main = run_and_return ConcurrentUnsynchronized workload /\
   Multithreading.main = run_and_return ConcurrentSynchronized workload) /\
  forall mode units t0 sched,
    (forall n, exit_code (exec sched (boot (run_and_return mode units) t0)) = Some n ->
               n = 0) /\
    (has_fault sched = false ->
     proc (exec sched (boot (run_and_return mode units) t0)) <> Aborted /\
     exists sched',
       has_fault sched' = false /\
       exit_code (exec (sched ++ sched') (boot (run_and_return mode units) t0))
       = Some 0).
Proof.
  split; [split; reflexivity|].
  intros mode units t0 sched.
  assert (Hzero : forall s n,
            exit_code (exec s (boot (run_and_return mode units) t0)) = Some n -> n = 0).
  { intros s n He. unfold exit_code in He.
    destruct (proc (exec s (boot (run_and_return mode units) t0))) as [|code|] eqn:Hp;
      try discriminate.
    injection He as ->.
    apply (exit_zero_C [] (Scheduler_run mode units) mode t0 ltac:(constructor)
             (Scheduler_run_threads mode units) (Scheduler_run_plain mode units)
             (exec s (boot (run_and_return mode units) t0)) n);
      [exists s; reflexivity | exact Hp]. }
  split; [exact (Hzero sched)|].
  intros Hs. split; [apply no_fault_no_abort, Hs|].
  apply (completes [] (Scheduler_run mode units) mode t0 ltac:(constructor)
           (Scheduler_run_threads mode units) (Scheduler_run_plain mode units)
           (Scheduler_run_gets mode units)
           (S (potential (exec sched (boot (run_and_return mode units) t0))))
           sched Hs).
  unfold run_and_return. simpl. lia.
Qed.

(** X10 at three units under the guard. *)
Lemma X10_run_and_return_never_stuck_witness :
  proc (exec (fair 4 10)
          (boot (run_and_return ConcurrentSynchronized [coffee; toast; eggs]) 0))
    <> Aborted /\
  exists sched',
    has_fault sched' = false /\
    exit_code (exec (fair 4 10 ++ sched')
                 (boot (run_and_return ConcurrentSynchronized [coffee; toast; eggs]) 0))
    = Some 0.
Proof.
  apply (proj2 (proj2 X10_run_and_return_never_stuck ConcurrentSynchronized
                  [coffee; toast; eggs] 0 (fair 4 10))).
  reflexivity.
Defined.
